(** * poc-agendador: a shallow embedding of the WhatsApp ingestion bot

    The first part gives the program, module by module:

    - [Base64]: the base64 text form that [Buffer] prints and reads;
    - [AuthState]: [serializeBinaryData] and [deserializeBinaryData]
      (the auth state store);
    - [Schedule]: the schedules of Effect and [Effect.retry];
    - [Connection]: the reconnection policy, [connect] and
      [getConnectionState] (whatsapp/Connection.ts);
    - [JSDate]: [Date.prototype.toISOString];
    - [InsertMessage], [WhatsAppMessage], [Proto], [JS]: the records of
      database/Schema.ts, the transport's events, and JavaScript's handling
      of strings in conditions;
    - [Repository]: the [messages] table and its operations
      (database/Repository.ts);
    - [Queue]: the bounded queue of Effect;
    - [MessageStream]: [extractMessageDataEffect] and the bridge from the
      transport's events to the store (whatsapp/MessageStream.ts);
    - [Logger]: the two-second sweep over unprocessed messages
      (effects/Logger.ts).

    The second part states and proves the properties.

    JavaScript strings are carried by [string]; in the content of a message
    one character stands for one code unit, so [String.length] is the
    [length] property. The fixed texts of the log lines are the bytes of
    the source files. *)

From Stdlib Require Import ZArith NArith QArith Qminmax Lia Lqa List Bool.
From Stdlib Require Import Strings.String Strings.Ascii Strings.Byte.
From Stdlib Require Floats.PrimFloat Numbers.Cyclic.Int63.Uint63.
From stdpp Require Import gmap strings list fin_maps pretty sorting.

#[local] Set Warnings "-register-all".
#[local] Open Scope string_scope.
#[local] Open Scope nat_scope.

(* ===================================================================== *)
(** * Base64, as [Buffer.from(x).toString('base64')] and
      [Buffer.from(s, 'base64')] compute it *)
(* ===================================================================== *)

Module Base64.

#[local] Open Scope N_scope.

(** The 64 digits of RFC 4648, section 4. *)
Definition alphabet : string :=
  "ABCDEFGHIJKLMNOPQRSTUVWXYZabcdefghijklmnopqrstuvwxyz0123456789+/".

Definition pad : ascii := "="%char.

(** Digit of a sextet. *)
Definition digit (n : N) : ascii :=
  match String.get (N.to_nat n) alphabet with
  | Some c => c
  | None => pad
  end.

(** Position of a character in a list of digits, counting from [i]. *)
Fixpoint index_from (i : N) (c : ascii) (s : string) : option N :=
  match s with
  | EmptyString => None
  | String d s' => if Ascii.eqb c d then Some i else index_from (N.succ i) c s'
  end.

(** Sextet of a digit. The decoder also reads the URL-safe digits [-] and
    [_] of RFC 4648, section 5. *)
Definition sextet (c : ascii) : option N :=
  if Ascii.eqb c "-"%char then Some 62
  else if Ascii.eqb c "_"%char then Some 63
  else index_from 0 c alphabet.

(** A number stored into a [Uint8Array] slot keeps its low eight bits. *)
Definition byte_of_N (n : N) : byte :=
  match Byte.of_N (n mod 256) with
  | Some b => b
  | None => x00
  end.

(** The sextets of a byte sequence: three bytes give four sextets, a tail of
    one byte gives two and a tail of two bytes gives three. *)
Fixpoint sextets_of_bytes (bs : list byte) : list N :=
  match bs with
  | [] => []
  | [a] =>
      let a := Byte.to_N a in
      [a / 4; (a mod 4) * 16]
  | [a; b] =>
      let a := Byte.to_N a in
      let b := Byte.to_N b in
      [a / 4; (a mod 4) * 16 + b / 16; (b mod 16) * 4]
  | a :: b :: c :: rest =>
      let a := Byte.to_N a in
      let b := Byte.to_N b in
      let c := Byte.to_N c in
      a / 4 :: (a mod 4) * 16 + b / 16 :: (b mod 16) * 4 + c / 64 :: c mod 64
        :: sextets_of_bytes rest
  end.

Fixpoint digits (l : list N) : string :=
  match l with
  | [] => EmptyString
  | n :: l' => String (digit n) (digits l')
  end.

(** Padding completes the last group to four characters. *)
Definition padding (nbytes : nat) : string :=
  match Nat.modulo nbytes 3 with
  | 1%nat => "=="
  | 2%nat => "="
  | _ => ""
  end.

(** [Buffer.from(bytes).toString('base64')]. *)
Definition encode (bs : list byte) : string :=
  digits (sextets_of_bytes bs) ++ padding (List.length bs).

(** Reading is lenient: a character that is no digit is skipped, and the
    first padding character ends the input. *)
Fixpoint sextets_of_string (s : string) : list N :=
  match s with
  | EmptyString => []
  | String c s' =>
      if Ascii.eqb c pad then []
      else match sextet c with
           | Some n => n :: sextets_of_string s'
           | None => sextets_of_string s'
           end
  end.

(** Four sextets give three bytes; a tail of two or three sextets gives one
    or two bytes, and a single left-over sextet gives none. *)
Fixpoint bytes_of_sextets (l : list N) : list byte :=
  match l with
  | s0 :: s1 :: s2 :: s3 :: rest =>
      byte_of_N (s0 * 4 + s1 / 16)
        :: byte_of_N ((s1 mod 16) * 16 + s2 / 4)
        :: byte_of_N ((s2 mod 4) * 64 + s3)
        :: bytes_of_sextets rest
  | [s0; s1; s2] =>
      [byte_of_N (s0 * 4 + s1 / 16); byte_of_N ((s1 mod 16) * 16 + s2 / 4)]
  | [s0; s1] => [byte_of_N (s0 * 4 + s1 / 16)]
  | _ => []
  end.

(** [Buffer.from(s, 'base64')]. *)
Definition decode (s : string) : list byte :=
  bytes_of_sextets (sextets_of_string s).

End Base64.

(* ===================================================================== *)
(** * Auth state store: binary-safe serialization (database/AuthState) *)
(* ===================================================================== *)

Module AuthState.

(** The class of a raw byte sequence; [Buffer] extends [Uint8Array]. *)
Inductive bin_class := Uint8ArrayC | BufferC.

(** A JavaScript number is a double, with its two zeros, its infinities
    and [NaN]. *)
Definition number : Set := PrimFloat.float.

(** The number of a small natural number, such as a byte. *)
Definition number_of_N (n : N) : number :=
  PrimFloat.of_uint63 (Uint63.of_Z (Z.of_N n)).

(** The values [serializeBinaryData] walks: scalars, raw byte sequences,
    arrays, and objects. An object is shown by its own enumerable
    properties, a finite map from string keys to values; its prototype is
    not shown. An object may own a property named [__proto__] (those that
    [JSON.parse] reads from a text with that key do). *)
Inductive value :=
  | VUndefined
  | VNull
  | VBool (b : bool)
  | VNum (n : number)
  | VStr (s : string)
  | VBin (c : bin_class) (bs : list byte)
  | VArr (l : list value)
  | VObj (m : gmap string value).

(** [{ __type: 'binary', data: ... }] *)
Definition binary_wrapper (data : string) : value :=
  VObj (<["data" := VStr data]> {["__type" := VStr "binary"]}).

(** The assignment [result[key] = x] of the two loops, where [result]
    started as [{}]. Every key but [__proto__] becomes an own property of
    [result]. For [__proto__] the assignment reaches the setter that
    [Object.prototype] provides: it replaces the prototype of [result] when
    [x] is an object or [null] and does nothing otherwise, and in neither
    case does [result] gain an own property. A value does not show the
    prototype of an object, so what is stated below of the two functions
    is stated for values in which no object owns a property named
    [__proto__] ([proto_free]), where the prototype of [result] stays what
    it was. *)
Definition assign (key : string) (x : value) (result : gmap string value)
    : gmap string value :=
  if String.eqb key "__proto__" then result else <[key := x]> result.

Fixpoint serializeBinaryData (obj : value) : value :=
  match obj with
  | VBin _ bs => binary_wrapper (Base64.encode bs)
  | VArr l => VArr (serializeBinaryData <$> l)
  | VObj m =>
      VObj (map_fold
              (λ key value result, assign key (serializeBinaryData value) result)
              ∅ m)
  | _ => obj
  end.

(** [obj.__type === 'binary'] on a plain object. *)
Definition is_binary_tag (m : gmap string value) : bool :=
  match m !! "__type" with
  | Some (VStr s) => String.eqb s "binary"
  | _ => false
  end.

(** [Buffer.from(obj.data, 'base64')]. The wrapper that
    [serializeBinaryData] builds always carries a string, which is read as
    base64 text. A raw byte sequence is copied. For [undefined], [null], a
    boolean or a number the call throws a [TypeError]. For an array or an
    object it builds bytes out of the elements by converting each to a
    number; that conversion is not part of this model, which gives no
    result there. *)
Definition buffer_from_base64 (data : option value) : option (list byte) :=
  match data with
  | Some (VStr s) => Some (Base64.decode s)
  | Some (VBin _ bs) => Some bs
  | _ => None
  end.

(** [Object.entries] of a typed array: the indices, in decimal, with the
    element values. *)
Definition index_entries (bs : list byte) : gmap string value :=
  list_to_map (imap (λ i b, (pretty i, VNum (number_of_N (Byte.to_N b)))) bs).

(** The result is [None] where [buffer_from_base64] gives none, which
    happens only under an object tagged as a wrapper whose [data] is not
    a string. *)
Fixpoint deserializeBinaryData (obj : value) : option value :=
  match obj with
  | VObj m =>
      if is_binary_tag m then
        bs ← buffer_from_base64 (m !! "data");
        Some (VBin Uint8ArrayC bs)
      else
        VObj <$> map_fold
                   (λ key value acc,
                      result ← acc;
                      v ← deserializeBinaryData value;
                      Some (assign key v result))
                   (Some ∅) m
  | VArr l => VArr <$> mapM deserializeBinaryData l
  | VBin _ bs => Some (VObj (index_entries bs))
  | _ => Some obj
  end.

(** No object inside the value owns a property [__type] equal to
    ['binary']. *)
Fixpoint tag_free (v : value) : bool :=
  match v with
  | VArr l => forallb tag_free l
  | VObj m =>
      negb (is_binary_tag m)
      && map_fold (λ _ x acc, tag_free x && acc) true m
  | _ => true
  end.

(** No object inside the value owns a property named [__proto__]. *)
Fixpoint proto_free (v : value) : bool :=
  match v with
  | VArr l => forallb proto_free l
  | VObj m =>
      match m !! "__proto__" with
      | Some _ => false
      | None => map_fold (λ _ x acc, proto_free x && acc) true m
      end
  | _ => true
  end.

(** The same value with every raw byte sequence seen as a plain
    [Uint8Array] over the same bytes. *)
Fixpoint as_uint8 (v : value) : value :=
  match v with
  | VBin _ bs => VBin Uint8ArrayC bs
  | VArr l => VArr (as_uint8 <$> l)
  | VObj m => VObj (as_uint8 <$> m)
  | _ => v
  end.

(** The raw byte sequences inside a value are all plain [Uint8Array]s. *)
Fixpoint buffer_free (v : value) : bool :=
  match v with
  | VBin BufferC _ => false
  | VArr l => forallb buffer_free l
  | VObj m => map_fold (λ _ x acc, buffer_free x && acc) true m
  | _ => true
  end.

(** Number of constructors, the measure for induction on values. *)
Fixpoint vsize (v : value) : nat :=
  match v with
  | VArr l => S (sum_list (vsize <$> l))
  | VObj m => S (map_fold (λ _ x n, vsize x + n) 0 m)
  | _ => 1
  end.

(** A credential blob in the shape the transport hands over: nested objects
    and arrays holding key material. *)
Definition sample_creds : value :=
  VObj (<["noiseKey" :=
            VObj (<["private" := VBin Uint8ArrayC [x01; x02; x03]]>
                  {["public" := VBin BufferC [xff; x00]]})]>
        (<["registrationId" := VNum (number_of_N 42)]>
         (<["me" := VNull]>
          {["preKeys" := VArr [VBin Uint8ArrayC []; VStr "x"; VBool true]]}))).

(** A plain object of two strings that happens to carry the wrapper's tag. *)
Definition tagged_blob : value :=
  VObj (<["data" := VStr "AQID"]> {["__type" := VStr "binary"]}).

(** What [JSON.parse] reads from the text [{"__proto__": 1, "a": "x"}]: an
    object that owns a property named [__proto__]. *)
Definition proto_blob : value :=
  VObj (<["__proto__" := VNum (number_of_N 1)]> {["a" := VStr "x"]}).

End AuthState.

(* ===================================================================== *)
(** * Effect's [Schedule] and [Effect.retry], as far as the connector
      uses them *)
(* ===================================================================== *)

Module Schedule.

#[local] Open Scope Q_scope.

(** What a schedule decides after an input: recur after a delay (in
    milliseconds), or stop. *)
Inductive decision :=
  | Continue (delay : Q)
  | Done.

(** A schedule is a state machine. One step reads the next draw [r] of the
    random service (a number in [0, 1)) and the current state, and gives the
    next state, an output and a decision. None of the schedules below
    inspects its input or the clock. *)
Record schedule (S Out : Type) := Schedule {
  initial : S;
  step : Q → S → S * Out * decision
}.
Arguments Schedule {S Out} _ _.
Arguments initial {S Out} _.
Arguments step {S Out} _ _ _.

(** [Schedule.forever]: counts its recurrences, never stops. *)
Definition forever : schedule nat nat :=
  Schedule 0%nat (λ _ n, (S n, n, Continue 0)).

(** [Schedule.whileOutput]: stops as soon as the output fails the test. *)
Definition whileOutput {S Out} (self : schedule S Out) (f : Out → bool)
    : schedule S Out :=
  Schedule (initial self)
    (λ r s,
       let '(s', out, d) := step self r s in
       match d with
       | Done => (s', out, Done)
       | Continue _ => if f out then (s', out, d) else (s', out, Done)
       end).

(** [Schedule.recurs(n)]: [whileOutput(forever, out => out < n)]. *)
Definition recurs (n : nat) : schedule nat nat :=
  whileOutput forever (λ out, out <? n)%nat.

(** [Schedule.exponential(base)]: the i-th delay is [base * 2^i]. *)
Definition exponential (base : Q) : schedule nat Q :=
  Schedule 0%nat
    (λ _ i, let d := base * inject_Z (2 ^ Z.of_nat i) in (S i, d, Continue d)).

(** [Schedule.intersect]: recurs only while both recur, after the longer of
    the two delays. *)
Definition intersect {S1 O1 S2 O2}
    (self : schedule S1 O1) (that : schedule S2 O2)
    : schedule (S1 * S2) (O1 * O2) :=
  Schedule (initial self, initial that)
    (λ r '(s1, s2),
       let '(s1', o1, d1) := step self r s1 in
       let '(s2', o2, d2) := step that r s2 in
       match d1, d2 with
       | Continue x, Continue y => ((s1', s2'), (o1, o2), Continue (Qmax x y))
       | _, _ => ((s1', s2'), (o1, o2), Done)
       end).

(** [Schedule.jittered]: scales each delay by a random factor between 0.8
    and 1.2; the decision to recur is left as it is. *)
Definition jittered {S Out} (self : schedule S Out) : schedule S Out :=
  Schedule (initial self)
    (λ r s,
       let '(s', out, d) := step self r s in
       match d with
       | Continue delay =>
           (s', out, Continue (delay * (8 # 10) * (1 - r) + delay * (12 # 10) * r))
       | Done => (s', out, Done)
       end).

(** How an effect ends. *)
Inductive exit (E A : Type) :=
  | Success (a : A)
  | Failure (e : E).
Arguments Success {E A} _.
Arguments Failure {E A} _.

(** A run of [Effect.retry]: how many times the effect was started, the
    sleeps between the attempts, and how the whole ended. *)
Record run (E A : Type) := Run {
  attempts : nat;
  sleeps : list Q;
  outcome : exit E A
}.
Arguments Run {E A} _ _ _.
Arguments attempts {E A} _.
Arguments sleeps {E A} _.
Arguments outcome {E A} _.

(** [Effect.retry(self, policy)]. The effect is started; when it fails the
    policy is stepped with the failure: on [Done] the failure is the result,
    on [Continue d] the fiber sleeps [d] and the effect is started again.
    [attempt k] is the result of the k-th start (from 0), [rand k] the draw
    used at the k-th step of the policy. A policy may recur for ever, hence
    the fuel: [None] means the fuel ran out. *)
Fixpoint retry_from {E A S Out} (fuel : nat) (attempt : nat → exit E A)
    (rand : nat → Q) (policy : schedule S Out) (s : S) (k : nat)
    (slept : list Q) : option (run E A) :=
  match fuel with
  | O => None
  | Datatypes.S fuel' =>
      match attempt k with
      | Success a => Some (Run (Datatypes.S k) slept (Success a))
      | Failure e =>
          match step policy (rand k) s with
          | (_, _, Done) => Some (Run (Datatypes.S k) slept (Failure e))
          | (s', _, Continue d) =>
              retry_from fuel' attempt rand policy s' (Datatypes.S k) (slept ++ [d])
          end
      end
  end.

Definition retry {E A S Out} (fuel : nat) (attempt : nat → exit E A)
    (rand : nat → Q) (policy : schedule S Out) : option (run E A) :=
  retry_from fuel attempt rand policy (initial policy) 0 [].

End Schedule.

(* ===================================================================== *)
(** * Session connector (whatsapp/Connection.ts) *)
(* ===================================================================== *)

Module Connection.

Import Schedule.

(** A live transport handle. *)
Definition WASocket := nat.

Inductive status := Connecting | Open | Close | Reconnecting.

Record ConnectionState := {
  state_status : status;
  state_socket : option WASocket
}.

(** [Schedule.exponential("1 seconds")], intersected with
    [Schedule.recurs(5)], jittered. *)
Definition createReconnectionPolicy : schedule (nat * nat) (Q * nat) :=
  jittered (intersect (exponential 1000) (recurs 5)).

(** What the two fallible steps of one connection attempt meet:
    [useMultiFileAuthState('./auth')] rejects with a reason or resolves, and
    [makeWASocket] throws with a reason or returns a socket. *)
Record attempt_env := {
  auth_state : string + unit;
  made_socket : string + WASocket
}.

(** The acquire step of [connect]: load the auth state, build the socket,
    register the two handlers, wait three seconds, return the socket. *)
Definition acquire (env : attempt_env) : exit string WASocket :=
  match auth_state env with
  | inl error => Failure ("Failed to load auth state: " ++ error)%string
  | inr _ =>
      match made_socket env with
      | inl error => Failure ("Failed to create socket: " ++ error)%string
      | inr socket => Success socket
      end
  end.

(** [connect]: the acquisition retried under the reconnection policy; a
    failure that survives the policy is logged by [tapError] and handed to
    the caller. The second component is what was logged through
    [Effect.log]: one line at the start of each attempt, and the line of
    [tapError]. *)
Definition connect (fuel : nat) (env : nat → attempt_env) (rand : nat → Q)
    : option (run string WASocket * list string) :=
  match retry fuel (λ k, acquire (env k)) rand createReconnectionPolicy with
  | None => None
  | Some r =>
      Some (r, (repeat "🚀 Starting WhatsApp connection..."%string (attempts r)
                ++ match outcome r with
                   | Failure message => ["Connection failed: " ++ message]%string
                   | Success _ => []
                   end)%list)
  end.

(** What the transport has really gone through. *)
Inductive lifecycle :=
  | NeverConnected
  | Established (socket : WASocket)
  | Dropped (socket : WASocket) (loggedOut : bool)
  | Released.

(** [getConnectionState]: the snapshot does not read the transport. *)
Definition getConnectionState (actual : lifecycle) : ConnectionState :=
  {| state_status := Open; state_socket := None |}.

(** An environment in which every attempt fails while loading the auth
    state, and a random service that always draws one half. *)
Definition always_failing (k : nat) : attempt_env :=
  {| auth_state := inl "EACCES"%string; made_socket := inr k |}.

Definition half (k : nat) : Q := 1 # 2.

End Connection.

(* ===================================================================== *)
(** * [Date.prototype.toISOString] *)
(* ===================================================================== *)

Module JSDate.

#[local] Open Scope Z_scope.

(** A time value is a number of milliseconds since the epoch; a [Date] is
    valid only within 100,000,000 days of it. *)
Definition max_time : Z := 8640000000000000.

(** Decimal digits of a natural number, padded with zeros to [width]. *)
Definition padded (width : nat) (n : Z) : string :=
  let digits := pretty (Z.to_N n) in
  String.concat "" (repeat "0"%string (width - String.length digits)) ++ digits.

(** Year, month and day of a day number counted from 1970-01-01, in the
    proleptic Gregorian calendar. *)
Definition civil_from_days (days : Z) : Z * Z * Z :=
  let z := days + 719468 in
  let era := z / 146097 in
  let doe := z - era * 146097 in
  let yoe := (doe - doe / 1460 + doe / 36524 - doe / 146096) / 365 in
  let doy := doe - (365 * yoe + yoe / 4 - yoe / 100) in
  let mp := (5 * doy + 2) / 153 in
  let d := doy - (153 * mp + 2) / 5 + 1 in
  let m := if mp <? 10 then mp + 3 else mp - 9 in
  let y := yoe + era * 400 + (if m <=? 2 then 1 else 0) in
  (y, m, d).

(** Years 0 to 9999 print with four digits, the others with a sign and six
    digits. *)
Definition year_text (y : Z) : string :=
  if (0 <=? y) && (y <=? 9999) then padded 4 y
  else if y <? 0 then "-" ++ padded 6 (- y)
  else "+" ++ padded 6 y.

(** The message of the [RangeError] thrown for an invalid date. *)
Definition range_error : string := "Invalid Date".

(** [new Date(t).toISOString()]: the text, or the message of the
    [RangeError] it throws. *)
Definition toISOString (t : Z) : string + string :=
  if (- max_time <=? t) && (t <=? max_time) then
    let '(y, m, d) := civil_from_days (t / 86400000) in
    let r := t mod 86400000 in
    inl (year_text y ++ "-" ++ padded 2 m ++ "-" ++ padded 2 d
           ++ "T" ++ padded 2 (r / 3600000)
           ++ ":" ++ padded 2 (r / 60000 mod 60)
           ++ ":" ++ padded 2 (r / 1000 mod 60)
           ++ "." ++ padded 3 (r mod 1000) ++ "Z")%string
  else inr range_error.

End JSDate.

(* ===================================================================== *)
(** * Records (database/Schema.ts) and transport events *)
(* ===================================================================== *)

(** [InsertMessageSchema]. At run time [id] holds whatever [key.id] held,
    which may be [undefined]; hence the option. *)
Module InsertMessage.
Record t := {
  id : option string;
  from : option string;
  to : option string;
  chat_id : string;
  timestamp : string;
  content : string;
  messageType : string;
  isFromMe : bool;
  isGroup : bool;
  processed : bool
}.
End InsertMessage.

(** [WhatsAppMessage], also the shape of a row of the [messages] table. *)
Module WhatsAppMessage.
Record t := {
  id : string;
  from : option string;
  to : option string;
  chat_id : string;
  timestamp : string;
  content : string;
  messageType : string;
  isFromMe : bool;
  isGroup : bool;
  processed : bool;
  createdAt : string
}.

(** [WhatsAppMessage.make({ ...message, createdAt })]: the class checks its
    fields against the schema, so a message without a string [id] is
    rejected ([None]). *)
Definition make (message : InsertMessage.t) (createdAt : string) : option t :=
  match InsertMessage.id message with
  | None => None
  | Some id =>
      Some {| id := id;
              from := InsertMessage.from message;
              to := InsertMessage.to message;
              chat_id := InsertMessage.chat_id message;
              timestamp := InsertMessage.timestamp message;
              content := InsertMessage.content message;
              messageType := InsertMessage.messageType message;
              isFromMe := InsertMessage.isFromMe message;
              isGroup := InsertMessage.isGroup message;
              processed := InsertMessage.processed message;
              createdAt := createdAt |}
  end.

(** The row with [processed] set. *)
Definition set_processed (m : t) : t :=
  {| id := id m; from := from m; to := to m; chat_id := chat_id m;
     timestamp := timestamp m; content := content m;
     messageType := messageType m; isFromMe := isFromMe m;
     isGroup := isGroup m; processed := true; createdAt := createdAt m |}.
End WhatsAppMessage.

(** The part of [proto.IWebMessageInfo] that the normalizer reads. Every
    field is optional in the protocol; an absent field is [None]. *)
Module Proto.

Record IMessageKey := {
  remoteJid : option string;
  fromMe : option bool;
  id : option string;
  participant : option string
}.

Record IMessage := {
  conversation : option string;
  (** [extendedTextMessage], with its [text] *)
  extendedTextMessage : option (option string);
  (** [imageMessage], with its [caption] *)
  imageMessage : option (option string);
  (** [videoMessage], with its [caption] *)
  videoMessage : option (option string);
  audioMessage : option unit;
  stickerMessage : option unit;
  (** [documentMessage], with its [fileName] *)
  documentMessage : option (option string)
}.

Record IWebMessageInfo := {
  key : option IMessageKey;
  message : option IMessage;
  (** seconds since the epoch *)
  messageTimestamp : option Z
}.

End Proto.

(** JavaScript's view of strings in conditions and defaults. *)
Module JS.

(** A string in a condition: absent and empty strings are falsy. *)
Definition truthy (s : option string) : bool :=
  match s with
  | Some s => negb (String.eqb s "")
  | None => false
  end.

(** [s || fallback] *)
Definition or_else (s : option string) (fallback : string) : string :=
  if truthy s then default fallback s else fallback.

(** [s.split(c)[0]]: the part of [s] before the first [c]. *)
Fixpoint before (c : ascii) (s : string) : string :=
  match s with
  | EmptyString => EmptyString
  | String d s' => if Ascii.eqb d c then EmptyString else String d (before c s')
  end.

(** [hay.includes(needle)] *)
Fixpoint includes (hay needle : string) : bool :=
  String.prefix needle hay
  || match hay with
     | EmptyString => false
     | String _ hay' => includes hay' needle
     end.

(** A nullable string inside a template literal. *)
Definition show (s : option string) : string := default "null" s.

End JS.

(* ===================================================================== *)
(** * Message repository (database/Repository.ts) *)
(* ===================================================================== *)

Module Repository.

Import Schedule.
Import WhatsAppMessage.

(** A storage-layer failure. *)
Inductive SqlError := SqlFailure (reason : string).

(** What repository programs run against: the [messages] table, keyed by its
    primary key; the faults the storage layer is going to raise, one entry
    per statement still to come ([Some e]: that statement fails with [e];
    past the end of the list nothing fails); and the log. *)
Record world := World {
  db : gmap string WhatsAppMessage.t;
  faults : list (option SqlError);
  log : list string
}.

(** The fault, if any, that the next statement is going to meet. *)
Definition next_fault (w : world) : option SqlError := mjoin (head (faults w)).

(** An effect over the world that ends in a value or in a [SqlError]. *)
Definition eff (A : Type) : Type := world → world * exit SqlError A.

Definition succeed {A} (a : A) : eff A := λ w, (w, Success a).

Definition bind {A B} (m : eff A) (k : A → eff B) : eff B :=
  λ w, match m w with
       | (w', Success a) => k a w'
       | (w', Failure e) => (w', Failure e)
       end.

#[global] Instance eff_ret : MRet eff := @succeed.
#[global] Instance eff_bind : MBind eff := λ A B k m, bind m k.

(** [Effect.catchAll] *)
Definition catchAll {A} (m : eff A) (handler : SqlError → eff A) : eff A :=
  λ w, match m w with
       | (w', Success a) => (w', Success a)
       | (w', Failure e) => handler e w'
       end.

(** [Effect.log] *)
Definition log_line (line : string) : eff unit :=
  λ w, (World (db w) (faults w) (log w ++ [line]), Success tt).

(** A loop [for (const x of xs) { yield* body(x) }]. *)
Fixpoint for_each {A} (xs : list A) (body : A → eff unit) : eff unit :=
  match xs with
  | [] => succeed tt
  | x :: rest => body x;; for_each rest body
  end.

(** One SQL statement: it fails when the storage layer raises its fault, and
    otherwise takes the table to a new table and a result. *)
Definition statement {A}
    (run : gmap string WhatsAppMessage.t
           → exit SqlError (gmap string WhatsAppMessage.t * A)) : eff A :=
  λ w, match faults w with
       | Some e :: rest => (World (db w) rest (log w), Failure e)
       | pending =>
           match run (db w) with
           | Success (db', a) => (World db' (tl pending) (log w), Success a)
           | Failure e => (World (db w) (tl pending) (log w), Failure e)
           end
       end.

(** [ORDER BY timestamp ASC] on a text column. *)
Definition by_timestamp (a b : WhatsAppMessage.t) : Prop :=
  String.leb (timestamp a) (timestamp b).

#[local] Instance by_timestamp_dec : RelDecision by_timestamp :=
  λ a b, Is_true_dec (String.leb (timestamp a) (timestamp b)).

Definition rows (table : gmap string WhatsAppMessage.t) : list WhatsAppMessage.t :=
  (map_to_list table).*2.

(** [INSERT INTO messages (...) VALUES (...) RETURNING ...]. The column
    [created_at] is not among the inserted columns: it takes its default,
    the text [created_at] of the storage clock. A second row under the same
    primary key violates the constraint. *)
Definition insertMessage (created_at : string) (message : WhatsAppMessage.t)
    : eff WhatsAppMessage.t :=
  statement (λ table,
    match table !! id message with
    | Some _ => Failure (SqlFailure "UNIQUE constraint failed: messages.id")
    | None =>
        let row :=
          {| id := id message; from := from message; to := to message;
             chat_id := chat_id message; timestamp := timestamp message;
             content := content message; messageType := messageType message;
             isFromMe := isFromMe message; isGroup := isGroup message;
             processed := processed message; createdAt := created_at |} in
        Success (<[id message := row]> table, row)
    end).

(** [SELECT ... WHERE processed = false ORDER BY timestamp ASC]. The
    statement leaves the order among rows of equal [timestamp] open, and
    the storage engine lists them as it meets them, which the table of
    this model does not record; here they come in the order of their
    keys. What is stated of a listing below is its order by [timestamp]
    and its elements, never the order within a tie. *)
Definition getUnprocessedMessages : eff (list WhatsAppMessage.t) :=
  statement (λ table,
    Success (table,
             merge_sort by_timestamp
               (filter (λ m, processed m = false) (rows table)))).

(** [UPDATE messages SET processed = true WHERE id = ... RETURNING ...],
    then [result[0]]: the updated row, or [undefined] ([None]) when the
    statement returned no row. *)
Definition markAsProcessed (messageId : string) : eff (option WhatsAppMessage.t) :=
  statement (λ table,
    let table' := alter set_processed messageId table in
    Success (table', table' !! messageId)).

(** [SELECT ... WHERE chat_id = ... ORDER BY timestamp ASC], with the same
    reading of ties. *)
Definition getMessagesByChat (chatId : string) : eff (list WhatsAppMessage.t) :=
  statement (λ table,
    Success (table,
             merge_sort by_timestamp
               (filter (λ m, chat_id m = chatId) (rows table)))).

(** Two rows that differ at most in [processed]. *)
Definition same_but_processed (a b : WhatsAppMessage.t) : Prop :=
  id a = id b ∧ from a = from b ∧ to a = to b ∧ chat_id a = chat_id b
  ∧ timestamp a = timestamp b ∧ content a = content b
  ∧ messageType a = messageType b ∧ isFromMe a = isFromMe b
  ∧ isGroup a = isGroup b ∧ createdAt a = createdAt b.

(** An effect keeps the rows when every row of the table is still there
    afterwards, the same up to [processed]. *)
Definition keeps_rows {A} (m : eff A) : Prop :=
  ∀ w k row,
    db w !! k = Some row →
    ∃ row', db (m w).1 !! k = Some row' ∧ same_but_processed row row'.

(** A stored row and a table that holds it. *)
Definition sample_row : WhatsAppMessage.t :=
  {| id := "m1"; from := Some "555"; to := None; chat_id := "555@s.whatsapp.net";
     timestamp := "2023-11-14T22:13:20.000Z"; content := "hi";
     messageType := "text"; isFromMe := false; isGroup := false;
     processed := false; createdAt := "2023-11-14 22:13:21" |}.

Definition sample_world : world :=
  World {[ "m1" := sample_row ]} [] [].

(** Scenario C: three unprocessed rows at sweep time. *)
Definition row_at (id timestamp : string) : WhatsAppMessage.t :=
  {| id := id; from := Some "555"; to := None; chat_id := "555@s.whatsapp.net";
     timestamp := timestamp; content := "hi"; messageType := "text";
     isFromMe := false; isGroup := false; processed := false;
     createdAt := "2023-11-14 22:13:21" |}.

Definition three_rows : world :=
  World (<["a" := row_at "a" "2023-11-14T22:13:22.000Z"]>
         (<["b" := row_at "b" "2023-11-14T22:13:20.000Z"]>
          {["c" := row_at "c" "2023-11-14T22:13:21.000Z"]})) [] [].

End Repository.

(* ===================================================================== *)
(** * Effect's bounded [Queue] *)
(* ===================================================================== *)

Module Queue.

(** A queue made by [Queue.bounded(capacity)]. It follows the back-pressure
    strategy: an offer to a full queue is not refused, its fiber is
    suspended with the value in hand until there is room. [parked] holds
    the values of the suspended offers, oldest first. *)
Record t (A : Type) := Make {
  capacity : nat;
  items : list A;
  parked : list A
}.
Arguments Make {A} _ _ _.
Arguments capacity {A} _.
Arguments items {A} _.
Arguments parked {A} _.

Definition bounded {A} (capacity : nat) : t A := Make capacity [] [].

(** How the fiber that runs an effect stands once it can go no further
    without waiting: finished with a value, failed, or suspended. *)
Inductive fiber (E A : Type) :=
  | Finished (a : A)
  | Failed (e : E)
  | Suspended.
Arguments Finished {E A} _.
Arguments Failed {E A} _.
Arguments Suspended {E A}.

(** [Queue.offer]: an effect that cannot fail (its error type is [never],
    here [Empty_set]). *)
Definition offer {A} (q : t A) (a : A) : t A * fiber Empty_set bool :=
  if length (items q) <? capacity q
  then (Make (capacity q) (items q ++ [a]) (parked q), Finished true)
  else (Make (capacity q) (items q) (parked q ++ [a]), Suspended).

(** [Queue.size] of a queue on which no consumer is suspended (one is
    suspended only while the queue is empty): the items in the queue and
    the suspended offers together. *)
Definition size {A} (q : t A) : nat := length (items q) + length (parked q).

(** [Queue.takeBetween(q, 1, max)] by the consumer, when it does not have
    to wait: up to [max] of the oldest items leave, and the oldest suspended
    offers complete into the room that was made. On an empty queue the
    consumer waits; nothing is taken. *)
Definition takeUpTo {A} (max : nat) (q : t A) : t A * list A :=
  let taken := take max (items q) in
  let rest := drop max (items q) in
  let room := capacity q - length rest in
  (Make (capacity q) (rest ++ take room (parked q)) (drop room (parked q)),
   taken).

End Queue.

(* ===================================================================== *)
(** * Event normalizer and ingestion bridge (whatsapp/MessageStream.ts) *)
(* ===================================================================== *)

Module MessageStream.

Import Proto JS.

(** A batch as the transport delivers it: [type] is ["notify"] or
    ["append"]. *)
Record BaileysMessage := {
  type : string;
  messages : list IWebMessageInfo
}.

(** The inner helper [extractNumber]. *)
Definition extractNumber (fullId : option string) : option string :=
  if truthy fullId then
    let number := before ":" (before "@" (default "" fullId)) in
    if String.eqb number "" then None else Some number
  else None.

(** The timestamp: the event's own when it carries a non-zero one, the
    clock's otherwise. The result is [inr] with the error's message when
    [toISOString] throws. *)
Definition timestamp_of (now : Z) (messageTimestamp : option Z) : string + string :=
  match messageTimestamp with
  | Some seconds =>
      if (seconds =? 0)%Z then JSDate.toISOString now
      else JSDate.toISOString (seconds * 1000)
  | None => JSDate.toISOString now
  end.

(** The first-match decision over the payload variants: content and type. *)
Definition content_and_type (messageInfo : option IMessage) : string * string :=
  match messageInfo with
  | None => ("[Special message]", "other")
  | Some info =>
      if truthy (conversation info) then
        (default "" (conversation info), "text")
      else if truthy (mjoin (extendedTextMessage info)) then
        (default "" (mjoin (extendedTextMessage info)), "text")
      else
        match imageMessage info, videoMessage info, audioMessage info,
              stickerMessage info, documentMessage info with
        | Some caption, _, _, _, _ => (or_else caption "[Image]", "image")
        | None, Some caption, _, _, _ => (or_else caption "[Video]", "video")
        | None, None, Some _, _, _ => ("[Audio]", "audio")
        | None, None, None, Some _, _ => ("[Sticker]", "sticker")
        | None, None, None, None, Some fileName =>
            ("[Document: " ++ or_else fileName "No name" ++ "]", "document")
        | None, None, None, None, None => ("[Special message]", "other")
        end
  end.

(** [extractMessageDataEffect(message, myNumber)] at clock reading [now]
    (milliseconds). The result is the record or [null] ([None]), with the
    lines the effect logged. *)
Definition extractMessageDataEffect (now : Z) (message : IWebMessageInfo)
    (myNumber : option string) : option InsertMessage.t * list string :=
  match key message with
  | None => (None, [])
  | Some key =>
      if negb (truthy (remoteJid key)) then (None, [])
      else
        let id := Proto.id key in
        let chatId := default "" (remoteJid key) in
        match timestamp_of now (messageTimestamp message) with
        | inr error => (None, ["Error extracting message data: " ++ error])
        | inl timestamp =>
            let isFromMe := default false (fromMe key) in
            let isGroup := includes chatId "@g.us" in
            let '(from, to) :=
              if isFromMe then
                (if truthy myNumber then extractNumber myNumber else None,
                 extractNumber (Some chatId))
              else if isGroup then
                (extractNumber (Some (or_else (participant key) chatId)),
                 if truthy myNumber then extractNumber myNumber else None)
              else
                (extractNumber (Some chatId),
                 if truthy myNumber then extractNumber myNumber else None) in
            let '(content, messageType) := content_and_type (Proto.message message) in
            (Some {| InsertMessage.id := id;
                     InsertMessage.from := from;
                     InsertMessage.to := to;
                     InsertMessage.chat_id := chatId;
                     InsertMessage.timestamp := timestamp;
                     InsertMessage.content := content;
                     InsertMessage.messageType := messageType;
                     InsertMessage.isFromMe := isFromMe;
                     InsertMessage.isGroup := isGroup;
                     InsertMessage.processed := false |},
             [])
        end
  end.

(** The state of the bridge: the queue and the log. *)
Record bridge := Bridge {
  messageQueue : Queue.t BaileysMessage;
  log : list string
}.

(** [createMessageStream] starts from an empty queue of capacity 1000. *)
Definition new_bridge : bridge := Bridge (Queue.bounded 1000) [].

(** The listener on ['messages.upsert']: it forks a fiber that offers the
    batch and logs if the offer fails, and returns at once whether or not
    that fiber has finished. *)
Definition on_upsert (batch : BaileysMessage) (b : bridge) : bridge :=
  match Queue.offer (messageQueue b) batch with
  | (q, Queue.Failed _) => Bridge q (log b ++ ["Failed to queue message"])
  | (q, _) => Bridge q (log b)
  end.

(** [Stream.fromQueue] pulls up to a chunk of batches at a time. *)
Definition DefaultChunkSize : nat := 4096.

Definition pull (b : bridge) : bridge * list BaileysMessage :=
  let '(q, taken) := Queue.takeUpTo DefaultChunkSize (messageQueue b) in
  (Bridge q (log b), taken).

(** The first stage of the stream, on one batch: each message that has a
    key and a conversation identifier is normalized, without a local
    identity, and kept when the result is not [null]. [clock i] is the
    clock reading while the i-th message of the batch is handled. *)
Fixpoint normalize_from (clock : nat → Z) (i : nat) (messages : list IWebMessageInfo)
    : list InsertMessage.t * list string :=
  match messages with
  | [] => ([], [])
  | message :: rest =>
      let '(processedMessages, logged) := normalize_from clock (S i) rest in
      match key message with
      | Some key =>
          if truthy (remoteJid key) then
            let '(processed, lines) :=
              extractMessageDataEffect (clock i) message None in
            (match processed with
             | Some record => record :: processedMessages
             | None => processedMessages
             end, (lines ++ logged)%list)
          else (processedMessages, logged)
      | None => (processedMessages, logged)
      end
  end.

Definition normalize_batch (clock : nat → Z) (batch : BaileysMessage)
    : list InsertMessage.t * list string :=
  normalize_from clock 0 (messages batch).

(** The last stage: each record becomes a [WhatsAppMessage] stamped with
    the clock's [createdAt] and is handed on. A record that the class
    rejects ends the stream with a defect: the result is the messages
    handed on before that, and whether the stream died. *)
Fixpoint emit (createdAt : string) (records : list InsertMessage.t)
    : list WhatsAppMessage.t * bool :=
  match records with
  | [] => ([], false)
  | record :: rest =>
      match WhatsAppMessage.make record createdAt with
      | None => ([], true)
      | Some message =>
          let '(emitted, died) := emit createdAt rest in
          (message :: emitted, died)
      end
  end.

Definition stream_of_batch (clock : nat → Z) (createdAt : string)
    (batch : BaileysMessage) : list WhatsAppMessage.t * bool :=
  emit createdAt (normalize_batch clock batch).1.

(** The body of [processMessageStream] for one message of the stream: the
    message is inserted, and a failure is caught and logged. [created_at]
    is the text of the storage clock. *)
Definition store_message (created_at : string) (message : WhatsAppMessage.t)
    : Repository.eff unit :=
  Repository.catchAll
    (Repository.log_line
       ("üì® Processing message: " ++ WhatsAppMessage.id message
          ++ " from " ++ show (WhatsAppMessage.from message));;
     Repository.insertMessage created_at message;;
     Repository.log_line
       ("üíæ Message stored: "
          ++ String.substring 0 50 (WhatsAppMessage.content message) ++ "..."))
    (λ _, Repository.log_line
            ("‚ùå Failed to process message " ++ WhatsAppMessage.id message)).

(** [processMessageStream] on the messages of one batch. *)
Definition process_batch (clock : nat → Z) (createdAt created_at : string)
    (batch : BaileysMessage) : Repository.eff unit :=
  Repository.for_each (stream_of_batch clock createdAt batch).1
    (store_message created_at).

(** A stored message that carries no local identity: no recipient when
    inbound, no sender when outbound. *)
Definition no_identity (m : WhatsAppMessage.t) : Prop :=
  (WhatsAppMessage.isFromMe m = false → WhatsAppMessage.to m = None)
  ∧ (WhatsAppMessage.isFromMe m = true → WhatsAppMessage.from m = None).

(** An effect adds only such rows when every row of the table afterwards
    either was there before or carries no local identity. *)
Definition adds_no_identity {A} (m : Repository.eff A) : Prop :=
  ∀ w k row,
    Repository.db (m w).1 !! k = Some row →
    Repository.db w !! k = Some row ∨ no_identity row.

(** Events used below. *)
Definition text_message (id : option string) (remoteJid text : string)
    (fromMe : option bool) : IWebMessageInfo :=
  {| key := Some {| remoteJid := Some remoteJid; fromMe := fromMe;
                    Proto.id := id; participant := None |};
     message := Some {| conversation := Some text;
                        extendedTextMessage := None; imageMessage := None;
                        videoMessage := None; audioMessage := None;
                        stickerMessage := None; documentMessage := None |};
     messageTimestamp := None |}.

(** Scenario A: [{ id: "m1", conversationId: "555@s", text: "hi" }]. *)
Definition scenario_A : IWebMessageInfo := text_message (Some "m1") "555@s" "hi" None.

(** An inbound text whose key has a conversation identifier and no [id]. *)
Definition without_id : IWebMessageInfo :=
  text_message None "555@s.whatsapp.net" "hi" (Some false).

(** A batch of one text message, whose id and text are [text]. *)
Definition batch_of (text : string) : BaileysMessage :=
  {| type := "notify"; messages := [text_message (Some text) "555@s" text None] |}.

(** A queue holding its 1000 batches, nothing parked, nothing logged. *)
Definition full_bridge : bridge :=
  Bridge (Queue.Make 1000 (repeat (batch_of "old") 1000) []) [].

End MessageStream.

(* ===================================================================== *)
(** * Reconciliation scheduler (effects/Logger.ts) *)
(* ===================================================================== *)

Module Logger.

Import Schedule Repository JS.
Import WhatsAppMessage.

(** The content shown for a record. *)
Definition truncatedContent (content : string) : string :=
  if 50 <? String.length content
  then String.substring 0 50 content ++ "..."
  else content.

Definition direction (message : WhatsAppMessage.t) : string :=
  if isFromMe message then "→" else "←".

(** The summary line of a record. *)
Definition summary (message : WhatsAppMessage.t) : string :=
  direction message ++ " [" ++ messageType message ++ "] "
    ++ show (from message) ++ " " ++ direction message ++ " "
    ++ show (to message) ++ ": " ++ truncatedContent (content message).

(** [logUnprocessedMessages]: one sweep. *)
Definition logUnprocessedMessages : eff unit :=
  unprocessedMessages ← getUnprocessedMessages;
  if length unprocessedMessages =? 0 then
    log_line "📋 No unprocessed messages"
  else
    log_line ("📨 Found " ++ pretty (length unprocessedMessages)
                ++ " unprocessed messages:");;
    for_each unprocessedMessages (λ message,
      log_line (summary message);;
      markAsProcessed (id message);;
      mret tt);;
    log_line ("✅ Processed " ++ pretty (length unprocessedMessages) ++ " messages").

(** One tick of [startLogging]: the same sweep, with any failure caught and
    logged. *)
Definition tick : eff unit :=
  catchAll logUnprocessedMessages (λ _, log_line "❌ Logging error").

(** The first [n] ticks of the schedule. *)
Fixpoint ticks (n : nat) : eff unit :=
  match n with
  | O => mret tt
  | S n' => tick;; ticks n'
  end.

(** [startLogging], followed through its first [n] ticks. *)
Definition startLogging (n : nat) : eff unit :=
  log_line "🕒 Starting 2-second message logging routine...";;
  ticks n.

(** Contents of 50 and of 51 characters. *)
Definition fifty : string := String.concat "" (repeat "abcde" 10).
Definition fifty_one : string := fifty ++ "f".

End Logger.

(* ===================================================================== *)
(** * Invariants of the [messages] table *)
(* ===================================================================== *)

Module Invariant.

Import Repository.
Import WhatsAppMessage.

(** Every row sits under its own [id], the primary key. *)
Definition keyed (table : gmap string WhatsAppMessage.t) : Prop :=
  ∀ k row, table !! k = Some row → id row = k.

(** An effect carries the rows along [R] when every row of the table is
    still there afterwards, related by [R] to what it was. *)
Definition carries (R : relation WhatsAppMessage.t) {A} (m : eff A) : Prop :=
  ∀ w k row,
    db w !! k = Some row →
    ∃ row', db (m w).1 !! k = Some row' ∧ R row row'.

(** The only change is that [processed] may have gone from false to true. *)
Definition only_marked (a b : WhatsAppMessage.t) : Prop :=
  b = a ∨ (processed a = false ∧ b = set_processed a).

(** The table after [markAsProcessed] was called, with no storage fault, on
    the id of each message of a list. *)
Definition marked (table : gmap string WhatsAppMessage.t)
    (messages : list WhatsAppMessage.t) : gmap string WhatsAppMessage.t :=
  foldl (λ t message, alter set_processed (id message) t) table messages.

(** The rows a sweep finds: the unprocessed ones, in ascending order of
    [timestamp]. *)
Definition unprocessed (table : gmap string WhatsAppMessage.t)
    : list WhatsAppMessage.t :=
  merge_sort by_timestamp (filter (λ m, processed m = false) (rows table)).

(** The lines a sweep over these rows logs. *)
Definition sweep_lines (l : list WhatsAppMessage.t) : list string :=
  if length l =? 0 then ["📋 No unprocessed messages"]
  else ("📨 Found " ++ pretty (length l) ++ " unprocessed messages:")
         :: (Logger.summary <$> l)
         ++ ["✅ Processed " ++ pretty (length l) ++ " messages"].

(** The text of a summary before the content. *)
Definition summary_head (message : WhatsAppMessage.t) : string :=
  Logger.direction message ++ " [" ++ messageType message ++ "] "
    ++ JS.show (from message) ++ " " ++ Logger.direction message ++ " "
    ++ JS.show (to message) ++ ": ".

(** An unprocessed row whose content has 51 characters, alone in a
    table. *)
Definition long_row : WhatsAppMessage.t :=
  {| id := "m9"; from := Some "555"; to := None;
     chat_id := "555@s.whatsapp.net";
     timestamp := "2023-11-14T22:13:20.000Z"; content := Logger.fifty_one;
     messageType := "text"; isFromMe := false; isGroup := false;
     processed := false; createdAt := "2023-11-14 22:13:21" |}.

Definition long_world : world := World {[ "m9" := long_row ]} [] [].

(** The three unprocessed rows of [three_rows], met by a storage layer
    that lets the listing and the first update through and fails the
    second update. *)
Definition failing_sweep : world :=
  World (db three_rows) [None; None; Some (SqlFailure "disk I/O error")] [].

(** An effect preserves a property of the table. *)
Definition preserves (I : gmap string WhatsAppMessage.t → Prop) {A} (m : eff A)
    : Prop :=
  ∀ w, I (db w) → I (db (m w).1).

End Invariant.

(* ===================================================================== *)
(** * Notions used to state the laws of the normalizer and the bridge *)
(* ===================================================================== *)

Module StreamLaws.

Import Proto JS MessageStream.

(** The values [messageType] can take. *)
Definition message_types : list string :=
  ["text"; "image"; "video"; "audio"; "sticker"; "document"; "other"].

(** The character [c] occurs in [s]. *)
Definition occurs (c : ascii) (s : string) : Prop :=
  In c (list_ascii_of_string s).

(** The time value that [extractMessageDataEffect] prints: the event's own
    timestamp, in milliseconds, when it carries a non-zero one, and the
    clock's reading otherwise. *)
Definition time_value (now : Z) (message : IWebMessageInfo) : Z :=
  match messageTimestamp message with
  | Some seconds => if (seconds =? 0)%Z then now else (seconds * 1000)%Z
  | None => now
  end.

(** The identifiers an event carries in its key, if it has one. *)
Definition source_ids (message : IWebMessageInfo) : option (option string * string) :=
  key ← Proto.key message;
  chatId ← remoteJid key;
  Some (Proto.id key, chatId).

Definition record_ids (record : InsertMessage.t) : option (option string * string) :=
  Some (InsertMessage.id record, InsertMessage.chat_id record).

(** The batches the bridge holds, oldest first: those in the queue, then
    those of the suspended offers. *)
Definition pending (b : bridge) : list BaileysMessage :=
  Queue.items (messageQueue b) ++ Queue.parked (messageQueue b).

(** What the stream has received once its consumer has pulled [n] times,
    oldest first, and the bridge as it is then. *)
Fixpoint pulls (n : nat) (b : bridge) : bridge * list BaileysMessage :=
  match n with
  | O => (b, [])
  | S n' =>
      let '(b1, taken) := pull b in
      let '(b2, later) := pulls n' b1 in
      (b2, (taken ++ later)%list)
  end.

(** Offers wait only behind a queue that holds something. *)
Definition can_move (b : bridge) : Prop :=
  1 ≤ Queue.capacity (messageQueue b)
  ∧ (Queue.parked (messageQueue b) ≠ [] → Queue.items (messageQueue b) ≠ []).

(** The queue holds no more than its capacity, and offers are suspended
    only while it is full. *)
Definition bridge_ok (b : bridge) : Prop :=
  length (Queue.items (messageQueue b)) ≤ Queue.capacity (messageQueue b)
  ∧ (Queue.parked (messageQueue b) ≠ []
     → length (Queue.items (messageQueue b)) = Queue.capacity (messageQueue b)).

(** An event of a group conversation sent by a participant. *)
Definition group_message : IWebMessageInfo :=
  {| key := Some {| remoteJid := Some "1203630@g.us"; fromMe := None;
                    Proto.id := Some "g1";
                    participant := Some "5511888:7@s.whatsapp.net" |};
     message := Some {| conversation := None;
                        extendedTextMessage := None;
                        imageMessage := Some (Some "look");
                        videoMessage := Some None; audioMessage := None;
                        stickerMessage := None; documentMessage := None |};
     messageTimestamp := Some 1700000000%Z |}.

(** An event whose timestamp is past the last valid date. *)
Definition far_future : IWebMessageInfo :=
  {| key := Some {| remoteJid := Some "555@s.whatsapp.net"; fromMe := None;
                    Proto.id := Some "f1"; participant := None |};
     message := None;
     messageTimestamp := Some 9000000000000000%Z |}.

End StreamLaws.

(* ===================================================================== *)
(** * Notions used to state the laws of the connector *)
(* ===================================================================== *)

Module ConnectionLaws.

Import Schedule Connection.

#[local] Open Scope Q_scope.

(** The delay before the recurrence that follows the [i]-th attempt (from
    0), before jitter: one second, doubled [i] times. *)
Definition backoff (i : nat) : Q := 1000 * inject_Z (2 ^ Z.of_nat i).

(** An environment in which the first two attempts fail and the third
    gets the socket 7. *)
Definition third_time_lucky (k : nat) : attempt_env :=
  {| auth_state := inr tt;
     made_socket := if (k <? 2)%nat then inl "ECONNRESET"%string else inr 7%nat |}.

End ConnectionLaws.

(* ===================================================================== *)
(** * Clients of the repository *)
(* ===================================================================== *)

Module Client.

Import Repository.

(** A call on the repository. The two fibers of the program, the one that
    stores the messages of the stream and the one that sweeps, touch the
    table through these calls only. *)
Inductive call :=
  | InsertMessage (created_at : string) (message : WhatsAppMessage.t)
  | GetUnprocessedMessages
  | MarkAsProcessed (messageId : string)
  | GetMessagesByChat (chatId : string).

(** The world a call leaves behind, whether it succeeded or failed. *)
Definition after (w : world) (c : call) : world :=
  match c with
  | InsertMessage created_at message => (insertMessage created_at message w).1
  | GetUnprocessedMessages => (getUnprocessedMessages w).1
  | MarkAsProcessed messageId => (markAsProcessed messageId w).1
  | GetMessagesByChat chatId => (getMessagesByChat chatId w).1
  end.

(** The world after a sequence of calls, in whatever order the fibers made
    them. *)
Definition after_all (calls : list call) (w : world) : world :=
  foldl after w calls.

End Client.
(* ===================================================================== *)
(** * JSON, as [JSON.stringify] and [JSON.parse] treat the values of the
      auth state *)
(* ===================================================================== *)

Module Json.

Import AuthState.

(** A JSON document. The text columns of the auth tables hold JSON text;
    a text is carried here by the document it denotes. The number of a
    document is the double that [JSON.parse] reads from its digits. *)
Inductive json :=
  | JNull
  | JBool (b : bool)
  | JNum (n : number)
  | JStr (s : string)
  | JArr (l : list json)
  | JObj (m : gmap string json).

Definition byte_number (b : byte) : number := number_of_N (Byte.to_N b).

(** The number that [JSON.stringify] prints for a number, if it prints
    one: [NaN] and the two infinities are printed as [null], the negative
    zero is printed as [0], and every other number by digits that read
    back as the same double. *)
Definition json_number (n : number) : option number :=
  match PrimFloat.classify n with
  | FloatClass.NaN | FloatClass.PInf | FloatClass.NInf => None
  | FloatClass.NZero => Some PrimFloat.zero
  | _ => Some n
  end.

(** [JSON.stringify]; the result is [None] where JavaScript gives
    [undefined] instead of a text. A property whose value is [undefined] is
    left out, an [undefined] element of an array is printed as [null]. A
    number is printed as [json_number] says. A [Uint8Array] is printed as
    the object of its indices, a [Buffer] through its [toJSON]. *)
Fixpoint stringify (v : value) : option json :=
  match v with
  | VUndefined => None
  | VNull => Some JNull
  | VBool b => Some (JBool b)
  | VNum n => Some (match json_number n with
                    | Some printed => JNum printed
                    | None => JNull
                    end)
  | VStr s => Some (JStr s)
  | VBin Uint8ArrayC bs =>
      Some (JObj (list_to_map (imap (λ i b, (pretty i, JNum (byte_number b))) bs)))
  | VBin BufferC bs =>
      Some (JObj (<["data" := JArr ((λ b, JNum (byte_number b)) <$> bs)]>
                  {["type" := JStr "Buffer"]}))
  | VArr l => Some (JArr ((λ x, default JNull (stringify x)) <$> l))
  | VObj m => Some (JObj (omap stringify m))
  end.

(** [JSON.parse] *)
Fixpoint parse (j : json) : value :=
  match j with
  | JNull => VNull
  | JBool b => VBool b
  | JNum n => VNum n
  | JStr s => VStr s
  | JArr l => VArr (parse <$> l)
  | JObj m => VObj (parse <$> m)
  end.

(** What is left of a value once it has been through JSON: the properties
    that were [undefined] are gone, the [undefined] elements of arrays are
    [null], [NaN] and the infinities are [null], and the negative zero is
    the zero. *)
Fixpoint pruned (v : value) : value :=
  match v with
  | VNum n => match json_number n with
              | Some printed => VNum printed
              | None => VNull
              end
  | VArr l =>
      VArr ((λ x, match x with VUndefined => VNull | _ => pruned x end) <$> l)
  | VObj m =>
      VObj (omap (λ x, match x with
                       | VUndefined => None
                       | _ => Some (pruned x)
                       end) m)
  | _ => v
  end.

(** No raw byte sequence occurs in the value. *)
Fixpoint plain (v : value) : bool :=
  match v with
  | VBin _ _ => false
  | VArr l => forallb plain l
  | VObj m => map_fold (λ _ x acc, plain x && acc) true m
  | _ => true
  end.

(** A number that JSON gives back as it is: a finite number other than
    the negative zero. *)
Definition json_exact_number (n : number) : bool :=
  match PrimFloat.classify n with
  | FloatClass.NaN | FloatClass.PInf | FloatClass.NInf | FloatClass.NZero =>
      false
  | _ => true
  end.

(** JSON keeps the value as it is: no element of an array and no property
    of an object inside it is [undefined], and every number in it is one
    that JSON gives back as it is. *)
Fixpoint kept_by_json (v : value) : bool :=
  match v with
  | VNum n => json_exact_number n
  | VArr l =>
      forallb (λ x, match x with
                    | VUndefined => false
                    | _ => kept_by_json x
                    end) l
  | VObj m =>
      map_fold (λ _ x acc,
                  match x with
                  | VUndefined => false
                  | _ => kept_by_json x
                  end && acc) true m
  | _ => true
  end.

(** A value in a condition. *)
Definition truthy_value (v : value) : bool :=
  match v with
  | VUndefined | VNull | VBool false => false
  | VNum n =>
      match PrimFloat.classify n with
      | FloatClass.PZero | FloatClass.NZero | FloatClass.NaN => false
      | _ => true
      end
  | VStr s => negb (String.eqb s "")
  | _ => true
  end.

(** Credentials with an optional field left [undefined] and a counter
    that is not a number. *)
Definition creds_with_gap : value :=
  VObj (<["me" := VUndefined]>
        (<["noiseKey" := VBin BufferC [x01; x02]]>
         (<["nextPreKeyId" := VNum PrimFloat.nan]>
          {["signalIdentities" := VArr [VUndefined; VStr "a"]]}))).

End Json.

(* ===================================================================== *)
(** * Auth state repository (database/AuthState) *)
(* ===================================================================== *)

Module AuthStore.

Import Schedule AuthState Json.

Definition SqlError := Repository.SqlError.
Definition SqlFailure := Repository.SqlFailure.

(** A row of [auth_credentials], without its key [session_id]. *)
Record credentials_row := {
  credentials_data : json;
  credentials_created_at : string;
  credentials_updated_at : string
}.

(** A row of [auth_keys], without its key
    [(session_id, key_type, key_id)]. *)
Record key_row := {
  key_data : json;
  key_created_at : string;
  key_updated_at : string
}.

Record tables := Tables {
  auth_credentials : gmap string credentials_row;
  auth_keys : gmap (string * string * string) key_row
}.

(** The two tables, the faults the storage layer is going to raise (one
    entry per statement still to come) and the log. *)
Record world := World {
  stored : tables;
  faults : list (option SqlError);
  log : list string
}.

Definition next_fault (w : world) : option SqlError := mjoin (head (faults w)).

(** How an effect of the repository ends: with a value, with a [SqlError],
    or by dying of an exception thrown inside it. *)
Inductive outcome (A : Type) :=
  | Returned (a : A)
  | Failed (e : SqlError)
  | Died.
Arguments Returned {A} _.
Arguments Failed {A} _.
Arguments Died {A}.

Definition eff (A : Type) : Type := world → world * outcome A.

Definition succeed {A} (a : A) : eff A := λ w, (w, Returned a).

Definition die {A} : eff A := λ w, (w, Died).

Definition bind {A B} (m : eff A) (k : A → eff B) : eff B :=
  λ w, match m w with
       | (w', Returned a) => k a w'
       | (w', Failed e) => (w', Failed e)
       | (w', Died) => (w', Died)
       end.

#[global] Instance eff_ret : MRet eff := @succeed.
#[global] Instance eff_bind : MBind eff := λ A B k m, bind m k.

Definition log_line (line : string) : eff unit :=
  λ w, (World (stored w) (faults w) (log w ++ [line]), Returned tt).

Fixpoint for_each {A} (xs : list A) (body : A → eff unit) : eff unit :=
  match xs with
  | [] => succeed tt
  | x :: rest => body x;; for_each rest body
  end.

(** One SQL statement. *)
Definition statement {A} (run : tables → exit SqlError (tables * A)) : eff A :=
  λ w, match faults w with
       | Some e :: rest => (World (stored w) rest (log w), Failed e)
       | pending =>
           match run (stored w) with
           | Success (t, a) => (World t (tl pending) (log w), Returned a)
           | Failure e => (World (stored w) (tl pending) (log w), Failed e)
           end
       end.

Record AuthCreds := {
  data : json;
  sessionId : string
}.

(** Binding [undefined] to a [NOT NULL] column. *)
Definition not_null (column : string) : SqlError :=
  SqlFailure ("NOT NULL constraint failed: " ++ column).

(** [saveCredentials]: [INSERT OR REPLACE] of the serialized credentials;
    [now] is the text of the storage clock. Replacing a row makes it anew,
    so both time columns take the clock. *)
Definition saveCredentials (now sessionId : string) (creds : value) : eff AuthCreds :=
  statement (λ t,
    match stringify (serializeBinaryData creds) with
    | None => Failure (not_null "auth_credentials.credentials_data")
    | Some serializedCreds =>
        Success
          (Tables (<[sessionId := {| credentials_data := serializedCreds;
                                     credentials_created_at := now;
                                     credentials_updated_at := now |}]>
                     (auth_credentials t))
                  (auth_keys t),
           {| data := serializedCreds; sessionId := sessionId |})
    end).

(** [loadCredentials]: [null] ([None]) when the session has no row. *)
Definition loadCredentials (sessionId : string) : eff (option value) :=
  result ← statement (λ t, Success (t, auth_credentials t !! sessionId));
  match result with
  | None => mret None
  | Some row =>
      match deserializeBinaryData (parse (credentials_data row)) with
      | Some creds => mret (Some creds)
      | None => die
      end
  end.

(** A batch of keys: for each key type, absent entries or a list of key ids
    with their data, [null] standing for deletion. *)
Definition SignalDataSet : Type :=
  list (string * option (list (string * value))).

(** The body of the inner loop of [saveKeys]. *)
Definition save_key (now sessionId keyType : string) (entry : string * value)
    : eff unit :=
  let '(keyId, keyData) := entry in
  match keyData with
  | VNull =>
      statement (λ t,
        Success (Tables (auth_credentials t)
                        (delete (sessionId, keyType, keyId) (auth_keys t)),
                 tt))
  | _ =>
      statement (λ t,
        match stringify (serializeBinaryData keyData) with
        | None => Failure (not_null "auth_keys.key_data")
        | Some serializedData =>
            Success
              (Tables (auth_credentials t)
                      (<[(sessionId, keyType, keyId) :=
                           {| key_data := serializedData;
                              key_created_at := now;
                              key_updated_at := now |}]> (auth_keys t)),
               tt)
        end)
  end.

Definition saveKeys (now sessionId : string) (data : SignalDataSet) : eff unit :=
  for_each data (λ '(keyType, keyEntries),
    match keyEntries with
    | None => mret tt
    | Some entries => for_each entries (save_key now sessionId keyType)
    end).

(** The loop of [loadKeys] over the rows that came back. Its assignment
    [keyMap[row.key_id] = ...] is that of [assign]: a row whose [key_id] is
    [__proto__] gives the mapping no property. *)
Fixpoint decode_rows (rows : list (string * json)) (keyMap : gmap string value)
    : option (gmap string value) :=
  match rows with
  | [] => Some keyMap
  | (key_id, text) :: rest =>
      match deserializeBinaryData (parse text) with
      | Some keyData => decode_rows rest (assign key_id keyData keyMap)
      | None => None
      end
  end.

(** [loadKeys]: with no ids, the empty mapping and no statement; otherwise
    one [SELECT ... WHERE key_id IN (...)], whose rows are those ids of the
    list that have a row (here in the order of the list), each decoded into
    the mapping. *)
Definition loadKeys (sessionId type : string) (ids : list string)
    : eff (gmap string value) :=
  if length ids =? 0 then mret ∅
  else
    result ← statement (λ t,
      Success (t, omap (λ id, (λ row, (id, key_data row))
                                <$> auth_keys t !! (sessionId, type, id))
                    (remove_dups ids)));
    match decode_rows result ∅ with
    | Some keyMap => mret keyMap
    | None => die
    end.

(** [clearSession]: two [DELETE]s and a line of log. *)
Definition clearSession (sessionId : string) : eff unit :=
  statement (λ t,
    Success (Tables (delete sessionId (auth_credentials t)) (auth_keys t), tt));;
  statement (λ t,
    Success (Tables (auth_credentials t)
                    (filter (λ kv, kv.1.1.1 ≠ sessionId) (auth_keys t)), tt));;
  log_line ("🗑️ Cleared auth state for session: " ++ sessionId).

(** The key store handed to the transport: three closures over the
    session. *)
Record SignalKeyStore := {
  get : string → list string → eff (gmap string value);
  set : string → SignalDataSet → eff unit;
  clear : eff unit
}.

Record AuthenticationState := {
  creds : value;
  keys : SignalKeyStore
}.

(** [createAuthState]: the stored credentials, or an empty object for the
    transport to fill. *)
Definition createAuthState (sessionId : string) : eff AuthenticationState :=
  existingCreds ← loadCredentials sessionId;
  let creds :=
    match existingCreds with
    | Some existing => if truthy_value existing then existing else VObj ∅
    | None => VObj ∅
    end in
  mret {| creds := creds;
          keys := {| get := loadKeys sessionId;
                     set := λ now, saveKeys now sessionId;
                     clear := clearSession sessionId |} |}.

Definition saveAuthState (now sessionId : string) (state : AuthenticationState)
    : eff unit :=
  saveCredentials now sessionId (creds state);;
  log_line ("💾 Saved auth state for session: " ++ sessionId).

Definition clearAuthState (sessionId : string) : eff unit :=
  clearSession sessionId.

(** The entries of a batch in the order [saveKeys] meets them. *)
Definition entries_of (data : SignalDataSet) : list (string * string * value) :=
  data ≫= (λ '(keyType, keyEntries),
    (λ '(keyId, keyData), (keyType, keyId, keyData)) <$> default [] keyEntries).

(** What one entry of a batch does to the table of keys when the storage
    layer accepts it. *)
Definition apply_key (now sessionId : string)
    (table : gmap (string * string * string) key_row)
    (entry : string * string * value) : gmap (string * string * string) key_row :=
  let '(keyType, keyId, keyData) := entry in
  match keyData with
  | VNull => delete (sessionId, keyType, keyId) table
  | _ =>
      <[(sessionId, keyType, keyId) :=
          {| key_data := default JNull (stringify (serializeBinaryData keyData));
             key_created_at := now;
             key_updated_at := now |}]> table
  end.

(** A batch that replaces one pre-key and deletes another. *)
Definition sample_batch : SignalDataSet :=
  [("pre-key", Some [("1", VBin Uint8ArrayC [x0a; x0b]); ("2", VNull)]);
   ("session", None)].

(** A store with nothing in it, and one that holds keys of two sessions. *)
Definition empty_world : world := World (Tables ∅ ∅) [] [].

Definition two_sessions : world :=
  World (Tables {[ "other" := {| credentials_data := JObj ∅;
                                 credentials_created_at := "t0";
                                 credentials_updated_at := "t0" |} ]}
                (<[("main", "pre-key", "1") :=
                     {| key_data := JStr "k1"; key_created_at := "t0";
                        key_updated_at := "t0" |}]>
                 {[ ("other", "pre-key", "1") :=
                      {| key_data := JStr "k2"; key_created_at := "t0";
                         key_updated_at := "t0" |} ]}))
        [] [].

(** A store in which a key was saved under the id [__proto__]. *)
Definition proto_keys : world :=
  World (Tables ∅
           {[ ("main", "pre-key", "__proto__") :=
                {| key_data := JStr "k"; key_created_at := "t0";
                   key_updated_at := "t0" |} ]})
        [] [].

End AuthStore.

(* ===================================================================== *)
(** * Properties of the base64 text form *)
(* ===================================================================== *)

Section base64_facts.

Import Base64.
#[local] Open Scope N_scope.

Example encode_Man : encode ["M"; "a"; "n"]%byte = "TWFu".
Proof. reflexivity. Qed.

Example encode_Ma : encode ["M"; "a"]%byte = "TWE=".
Proof. reflexivity. Qed.

Example encode_M : encode ["M"]%byte = "TQ==".
Proof. reflexivity. Qed.

Example decode_AQID : decode "AQID" = [x01; x02; x03].
Proof. reflexivity. Qed.

(** Lists can be consumed three elements at a time. *)
Lemma list_ind3 {A} (P : list A → Prop) :
  P [] →
  (∀ a, P [a]) →
  (∀ a b, P [a; b]) →
  (∀ a b c l, P l → P (a :: b :: c :: l)) →
  ∀ l, P l.
Proof.
  intros H0 H1 H2 H3 l.
  assert (P l ∧ (∀ a, P (a :: l)) ∧ (∀ a b, P (a :: b :: l))) as [? _].
  { induction l as [|x l (IH0 & IH1 & IH2)]; [auto|].
    split; [apply IH1|]. split; [intros a; apply IH2|].
    intros a b. by apply H3. }
  done.
Qed.

Lemma digit_sextet n :
  n < 64 → Ascii.eqb (digit n) pad = false ∧ sextet (digit n) = Some n.
Proof.
  intros Hn. rewrite <- (N2Nat.id n).
  assert (N.to_nat n < 64)%nat as Hk by lia.
  generalize dependent (N.to_nat n). clear n Hn. intros k Hk.
  do 64 (destruct k as [|k]; [by vm_compute|]). lia.
Qed.

Lemma byte_of_to_N b : byte_of_N (Byte.to_N b) = b.
Proof.
  unfold byte_of_N. pose proof (Byte.to_N_bounded b).
  rewrite N.mod_small by lia. by rewrite Byte.of_to_N.
Qed.

Lemma sextets_of_bytes_bounded bs : Forall (λ n, n < 64) (sextets_of_bytes bs).
Proof.
  induction bs as [|a|a b|a b c l IH] using list_ind3; simpl.
  - constructor.
  - pose proof (Byte.to_N_bounded a).
    repeat constructor; zify; Z.to_euclidean_division_equations; lia.
  - pose proof (Byte.to_N_bounded a). pose proof (Byte.to_N_bounded b).
    repeat constructor; zify; Z.to_euclidean_division_equations; lia.
  - pose proof (Byte.to_N_bounded a). pose proof (Byte.to_N_bounded b).
    pose proof (Byte.to_N_bounded c).
    repeat (constructor; [zify; Z.to_euclidean_division_equations; lia|]).
    exact IH.
Qed.

Lemma sextets_of_padding k : sextets_of_string (padding k) = [].
Proof. unfold padding. by destruct (Nat.modulo k 3) as [|[|[|?]]]. Qed.

Lemma sextets_of_digits l k :
  Forall (λ n, n < 64) l → sextets_of_string (digits l ++ padding k) = l.
Proof.
  induction 1 as [|n l Hn _ IH]; simpl.
  - apply sextets_of_padding.
  - destruct (digit_sextet n Hn) as [-> ->]. by rewrite IH.
Qed.

Ltac euclid := zify; Z.to_euclidean_division_equations; lia.

Lemma join_first a b :
  a < 256 → b < 256 → a / 4 * 4 + (a mod 4 * 16 + b / 16) / 16 = a.
Proof. euclid. Qed.

Lemma join_second a b c :
  b < 256 → c < 256 →
  (a mod 4 * 16 + b / 16) mod 16 * 16 + (b mod 16 * 4 + c / 64) / 4 = b.
Proof. euclid. Qed.

Lemma join_third b c :
  c < 256 → (b mod 16 * 4 + c / 64) mod 4 * 64 + c mod 64 = c.
Proof. euclid. Qed.

Lemma join_first_tail a : a < 256 → a / 4 * 4 + a mod 4 * 16 / 16 = a.
Proof. euclid. Qed.

Lemma join_second_tail a b :
  b < 256 → (a mod 4 * 16 + b / 16) mod 16 * 16 + b mod 16 * 4 / 4 = b.
Proof. euclid. Qed.

Lemma to_N_lt b : Byte.to_N b < 256.
Proof. pose proof (Byte.to_N_bounded b). lia. Qed.

Lemma bytes_of_sextets_of_bytes bs : bytes_of_sextets (sextets_of_bytes bs) = bs.
Proof.
  induction bs as [|a|a b|a b c l IH] using list_ind3.
  - done.
  - cbn [sextets_of_bytes bytes_of_sextets].
    rewrite join_first_tail by apply to_N_lt. by rewrite byte_of_to_N.
  - cbn [sextets_of_bytes bytes_of_sextets].
    rewrite join_first, join_second_tail by apply to_N_lt.
    by rewrite !byte_of_to_N.
  - cbn [sextets_of_bytes bytes_of_sextets]. rewrite IH.
    rewrite join_first, join_second, join_third by apply to_N_lt.
    by rewrite !byte_of_to_N.
Qed.

(** Reading back what [Buffer] printed gives the bytes that were printed. *)
Lemma decode_encode bs : decode (encode bs) = bs.
Proof.
  unfold decode, encode.
  rewrite sextets_of_digits by apply sextets_of_bytes_bounded.
  apply bytes_of_sextets_of_bytes.
Qed.

End base64_facts.

(* ===================================================================== *)
(** * Auth state store: the round trip *)
(* ===================================================================== *)

Section auth_state_facts.

Import AuthState.

(** ** Induction on values *)

Lemma sum_list_elem (f : value → nat) l x : x ∈ l → f x ≤ sum_list (f <$> l).
Proof.
  induction 1 as [x l|x y l _ IH]; rewrite fmap_cons; simpl; lia.
Qed.

Lemma vsize_elem l x : x ∈ l → vsize x < vsize (VArr l).
Proof.
  intros Hx%(sum_list_elem vsize). cbn [vsize]. lia.
Qed.

Lemma vsize_lookup (m : gmap string value) k x :
  m !! k = Some x → vsize x < vsize (VObj m).
Proof.
  intros Hk. simpl.
  rewrite (map_fold_delete_L _ _ k x m); [lia| |done].
  intros; lia.
Qed.

Lemma value_rect_nested (P : value → Prop) :
  P VUndefined → P VNull → (∀ b, P (VBool b)) → (∀ n, P (VNum n)) →
  (∀ s, P (VStr s)) → (∀ c bs, P (VBin c bs)) →
  (∀ l, Forall P l → P (VArr l)) →
  (∀ m, map_Forall (λ _, P) m → P (VObj m)) →
  ∀ v, P v.
Proof.
  intros Hu Hn Hb Hz Hs Hbin Harr Hobj v.
  assert (∀ n v, vsize v < n → P v) as Hlt; [|exact (Hlt (S (vsize v)) v (Nat.lt_succ_diag_r _))].
  clear v. induction n as [|n IH]; intros v Hv; [lia|].
  destruct v as [| | | | | |l|m]; auto.
  - apply Harr, Forall_forall. intros x Hx%vsize_elem. apply IH. lia.
  - apply Hobj. intros k x Hk%vsize_lookup. apply IH. lia.
Qed.

(** ** The two loops over [Object.entries] *)

Lemma assign_fmap (f : value → value) k x (m : gmap string value) :
  m !! k = None →
  assign k (f x) (f <$> delete "__proto__" m)
  = f <$> delete "__proto__" (<[k := x]> m).
Proof.
  intros Hk. unfold assign.
  destruct (String.eqb_spec k "__proto__") as [->|Hne].
  - by rewrite delete_insert_eq.
  - by rewrite delete_insert_ne, fmap_insert.
Qed.

Lemma entries_loop_fmap (f : value → value) (m : gmap string value) :
  map_fold (λ key value result, assign key (f value) result) ∅ m
  = f <$> delete "__proto__" m.
Proof.
  apply (map_fold_weak_ind (λ r m, r = f <$> delete "__proto__" m)).
  - by rewrite delete_empty, fmap_empty.
  - intros k x m' r Hk ->. by apply assign_fmap.
Qed.

Lemma entries_loop_option (g : value → option value) (h : value → value)
    (m : gmap string value) :
  map_Forall (λ _ x, g x = Some (h x)) m →
  map_fold (λ key value acc, result ← acc; v ← g value; Some (assign key v result))
    (Some ∅) m = Some (h <$> delete "__proto__" m).
Proof.
  induction m as [|k x m Hk Hfst IH] using map_first_key_ind; intros Hall.
  - by rewrite map_fold_empty, delete_empty, fmap_empty.
  - rewrite map_fold_insert_first_key by done.
    apply map_Forall_insert in Hall as [Hx Hm]; [|done].
    rewrite IH by done. simpl. rewrite Hx. simpl. by rewrite assign_fmap.
Qed.

Lemma entries_loop_forall (p : value → bool) (m : gmap string value) :
  map_fold (λ _ x acc, p x && acc) true m = true →
  map_Forall (λ _ x, p x = true) m.
Proof.
  induction m as [|k x m Hk Hfst IH] using map_first_key_ind.
  - intros _. apply map_Forall_empty.
  - rewrite map_fold_insert_first_key by done.
    intros [Hx Hm]%andb_true_iff. apply map_Forall_insert; auto.
Qed.

Lemma serialize_entries m :
  serializeBinaryData (VObj m)
  = VObj (serializeBinaryData <$> delete "__proto__" m).
Proof. simpl. by rewrite entries_loop_fmap. Qed.

Lemma proto_free_obj m :
  proto_free (VObj m) = true →
  m !! "__proto__" = None ∧ map_Forall (λ _ x, proto_free x = true) m.
Proof.
  cbn [proto_free]. destruct (m !! "__proto__"); [done|].
  intros Hm%entries_loop_forall. done.
Qed.

Lemma serialize_obj m :
  proto_free (VObj m) = true →
  serializeBinaryData (VObj m) = VObj (serializeBinaryData <$> m).
Proof.
  intros [Hp _]%proto_free_obj. by rewrite serialize_entries, delete_id.
Qed.

(** ** The tag *)

Lemma serialize_is_str v s :
  serializeBinaryData v = VStr s → v = VStr s.
Proof. by destruct v. Qed.

Lemma is_binary_tag_serialize m :
  is_binary_tag (serializeBinaryData <$> m) = is_binary_tag m.
Proof.
  unfold is_binary_tag. rewrite lookup_fmap.
  destruct (m !! "__type") as [x|] eqn:Hx; simpl; [|done].
  destruct (serializeBinaryData x) eqn:Hs;
    try (destruct x; simpl in Hs; by try discriminate).
  apply serialize_is_str in Hs as ->. done.
Qed.

Lemma deserialize_wrapper s :
  deserializeBinaryData (binary_wrapper s)
  = Some (VBin Uint8ArrayC (Base64.decode s)).
Proof.
  unfold binary_wrapper. simpl. unfold is_binary_tag.
  rewrite lookup_insert_ne, lookup_singleton_eq by done. simpl.
  by rewrite lookup_insert_eq.
Qed.

Lemma mapM_roundtrip (l : list value) :
  Forall (λ x, tag_free x = true → proto_free x = true →
               deserializeBinaryData (serializeBinaryData x) = Some (as_uint8 x)) l →
  forallb tag_free l = true →
  forallb proto_free l = true →
  mapM deserializeBinaryData (serializeBinaryData <$> l) = Some (as_uint8 <$> l).
Proof.
  induction 1 as [|x l Hx _ IH]; [done|].
  intros [Hfx Hfl]%andb_true_iff [Hpx Hpl]%andb_true_iff.
  rewrite !fmap_cons. cbn [mapM].
  rewrite Hx by done. cbn [mbind option_bind]. rewrite IH by done. done.
Qed.

Lemma as_uint8_buffer_free v : buffer_free v = true → as_uint8 v = v.
Proof.
  induction v as [| | | | |c bs|l IH|m IH] using value_rect_nested;
    cbn [buffer_free as_uint8]; try done.
  - by destruct c.
  - intros Hl. f_equal. rewrite <- (list_fmap_id l) at 2.
    apply list_fmap_ext. intros i x Hx. simpl.
    rewrite Forall_forall in IH. apply IH; [by eapply list_elem_of_lookup_2|].
    rewrite forallb_forall in Hl. apply Hl, list_elem_of_In.
    by eapply list_elem_of_lookup_2.
  - intros Hm%entries_loop_forall. f_equal.
    rewrite <- (map_fmap_id m) at 2. apply map_fmap_ext.
    intros k x Hk. simpl. apply (IH k x Hk), (Hm k x Hk).
Qed.

Lemma roundtrip_as_uint8 v :
  tag_free v = true → proto_free v = true →
  deserializeBinaryData (serializeBinaryData v) = Some (as_uint8 v).
Proof.
  induction v as [| | | | |c bs|l IH|m IH] using value_rect_nested;
    try done.
  - intros _ _. cbn [serializeBinaryData as_uint8].
    by rewrite deserialize_wrapper, decode_encode.
  - cbn [tag_free proto_free serializeBinaryData deserializeBinaryData as_uint8].
    intros Hl Hp. by rewrite mapM_roundtrip.
  - intros Htf Hpf. rewrite serialize_obj by done.
    apply proto_free_obj in Hpf as [Hproto Hpm].
    cbn [tag_free deserializeBinaryData as_uint8] in *.
    apply andb_true_iff in Htf as [Htag Hm%entries_loop_forall].
    rewrite is_binary_tag_serialize. apply negb_true_iff in Htag as ->.
    rewrite map_fold_fmap.
    rewrite (entries_loop_option
               (deserializeBinaryData ∘ serializeBinaryData) as_uint8).
    + by rewrite delete_id.
    + intros k x Hk. simpl. apply (IH k x Hk); [apply (Hm k x Hk)|].
      apply (Hpm k x Hk).
Qed.

(** C1, as amended. For every blob in which no object owns a property
    [__type] equal to ['binary'] and no object owns a property named
    [__proto__], decoding the encoded form succeeds and returns the blob
    with every nested byte sequence restored byte for byte as a
    [Uint8Array]; when the blob holds no [Buffer] the result is the blob
    itself. *)
Theorem roundtrip_tag_free v :
  tag_free v = true →
  proto_free v = true →
  deserializeBinaryData (serializeBinaryData v) = Some (as_uint8 v)
  ∧ (buffer_free v = true →
     deserializeBinaryData (serializeBinaryData v) = Some v).
Proof.
  intros Hv Hp. split; [by apply roundtrip_as_uint8|].
  intros Hb. rewrite roundtrip_as_uint8 by done.
  by rewrite as_uint8_buffer_free.
Qed.

Lemma roundtrip_tag_free_witness :
  tag_free sample_creds = true
  ∧ proto_free sample_creds = true
  ∧ deserializeBinaryData (serializeBinaryData sample_creds)
    = Some (as_uint8 sample_creds).
Proof.
  split; [by vm_compute|]. split; [by vm_compute|].
  apply (roundtrip_tag_free sample_creds); by vm_compute.
Defined.

(** The second side condition is needed as well: an own property named
    [__proto__] is not copied by either loop, so it is missing from the
    encoded form and from what is decoded. *)
Lemma roundtrip_drops_proto_key :
  tag_free proto_blob = true
  ∧ serializeBinaryData proto_blob = VObj {["a" := VStr "x"]}
  ∧ deserializeBinaryData (serializeBinaryData proto_blob)
    = Some (VObj {["a" := VStr "x"]})
  ∧ deserializeBinaryData (serializeBinaryData proto_blob) ≠ Some proto_blob.
Proof.
  split; [by vm_compute|]. split; [by vm_compute|]. split; [by vm_compute|].
  intros H. vm_compute in H. discriminate H.
Qed.

(** C1 as stated fails: an object of two strings whose [__type] is
    ['binary'] is encoded as itself and decoded as three raw bytes. *)
Lemma roundtrip_fails_on_tagged_object :
  serializeBinaryData tagged_blob = tagged_blob
  ∧ deserializeBinaryData (serializeBinaryData tagged_blob)
    = Some (VBin Uint8ArrayC [x01; x02; x03])
  ∧ deserializeBinaryData (serializeBinaryData tagged_blob) ≠ Some tagged_blob.
Proof.
  split; [by vm_compute|]. split; [by vm_compute|].
  intros H. vm_compute in H. discriminate H.
Qed.

End auth_state_facts.

(* ===================================================================== *)
(** * Session connector: the retry budget and the state snapshot *)
(* ===================================================================== *)

Section connection_facts.

Import Schedule Connection.

Lemma retry_from_succ {E A S Out} fuel (attempt : nat → exit E A) rand
    (policy : schedule S Out) s k slept :
  retry_from (Datatypes.S fuel) attempt rand policy s k slept
  = match attempt k with
    | Success a => Some (Run (Datatypes.S k) slept (Success a))
    | Failure e =>
        match step policy (rand k) s with
        | (_, _, Done) => Some (Run (Datatypes.S k) slept (Failure e))
        | (s', _, Continue d) =>
            retry_from fuel attempt rand policy s' (Datatypes.S k) (slept ++ [d])
        end
    end.
Proof. reflexivity. Qed.

(** One step of the reconnection policy: both counters advance, and the
    policy recurs exactly while the recurrence counter is below five. *)
Lemma policy_step r i n :
  ∃ out d,
    step createReconnectionPolicy r (i, n)
    = ((Datatypes.S i, Datatypes.S n), out, if (n <? 5)%nat then Continue d else Done).
Proof.
  unfold createReconnectionPolicy, jittered, intersect, recurs, whileOutput,
    exponential, forever.
  cbn [step initial]. destruct (n <? 5)%nat; eauto.
Qed.

(** From the state reached after [k] failures, a run makes at most [6 - k]
    further attempts, and exactly that many when they all fail. *)
Lemma retry_from_budget (attempt : nat → exit string WASocket) rand j :
  ∀ fuel i k slept,
    (k + j = 6)%nat → (j ≤ fuel)%nat → (0 < j)%nat →
    ∃ r,
      retry_from fuel attempt rand createReconnectionPolicy (i, k) k slept = Some r
      ∧ (attempts r ≤ 6)%nat
      ∧ ((∀ n, ∃ e, attempt n = Failure e) →
         attempts r = 6%nat ∧ outcome r = attempt 5%nat
         ∧ length (sleeps r) = (length slept + (j - 1))%nat).
Proof.
  induction j as [|j IH]; intros fuel i k slept Hk Hfuel Hj; [lia|].
  destruct fuel as [|fuel]; [lia|]. rewrite retry_from_succ.
  destruct (attempt k) as [a|e] eqn:Hat.
  - eexists. split; [done|]. split; [simpl; lia|].
    intros Hfail. destruct (Hfail k) as [e He]. congruence.
  - destruct (policy_step (rand k) i k) as (out & d & ->).
    destruct (k <? 5)%nat eqn:Hlt.
    + apply Nat.ltb_lt in Hlt.
      destruct (IH fuel (Datatypes.S i) (Datatypes.S k) (slept ++ [d])%list)
        as (r & -> & Hle & Hall); [lia..|].
      exists r. split; [done|]. split; [done|].
      intros Hfail. destruct (Hall Hfail) as (? & ? & ->).
      rewrite length_app. simpl. repeat split; try done. lia.
    + apply Nat.ltb_ge in Hlt. assert (k = 5%nat) as -> by lia.
      eexists. split; [done|]. split; [simpl; lia|].
      intros _. simpl. repeat split; try done. lia.
Qed.

(** C2, as amended. Every run of [connect] ends after at most six attempts:
    the first one and the five recurrences of the policy. When each attempt
    fails, exactly six attempts are made with five sleeps between them, no
    seventh is started, and the failure of the sixth is logged and handed to
    the caller. *)
Theorem connect_retry_budget env rand fuel :
  (6 ≤ fuel)%nat →
  ∃ r log,
    connect fuel env rand = Some (r, log)
    ∧ (attempts r ≤ 6)%nat
    ∧ ((∀ k, ∃ e, acquire (env k) = Failure e) →
       attempts r = 6%nat
       ∧ length (sleeps r) = 5%nat
       ∧ outcome r = acquire (env 5%nat)
       ∧ ∃ e, outcome r = Failure e
              ∧ log = (repeat "🚀 Starting WhatsApp connection..." 6
                       ++ ["Connection failed: " ++ e]%string)%list).
Proof.
  intros Hfuel. unfold connect, retry.
  destruct (retry_from_budget (λ k, acquire (env k)) rand 6 fuel 0%nat 0%nat [])
    as (r & Hr & Hle & Hall); [lia..|].
  change (initial createReconnectionPolicy) with (0%nat, 0%nat).
  rewrite Hr. eexists _, _. split; [done|]. split; [done|].
  intros Hfail. destruct (Hall Hfail) as (Hsix & Hout & Hlen).
  repeat split; try done. destruct (Hfail 5%nat) as [e He].
  exists e. rewrite Hsix, Hout, He. done.
Qed.

Lemma connect_retry_budget_witness :
  (6 ≤ 8)%nat
  ∧ ∃ r log, connect 8 always_failing half = Some (r, log)
             ∧ (attempts r ≤ 6)%nat.
Proof.
  split; [lia|].
  destruct (connect_retry_budget always_failing half 8) as (r & log & H & Hle & _);
    [lia|].
  exists r, log. by split.
Defined.

(** C2 as stated fails: when every attempt fails, the run makes a sixth
    attempt before the failure reaches the caller. *)
Lemma connect_makes_sixth_attempt :
  ∃ r log,
    connect 8 always_failing half = Some (r, log)
    ∧ attempts r = 6%nat
    ∧ ¬ (attempts r ≤ 5)%nat
    ∧ outcome r = Failure "Failed to load auth state: EACCES"%string.
Proof.
  eexists _, _. split; [by vm_compute|]. cbn [attempts outcome].
  split; [done|]. split; [lia|done].
Qed.

(** C9. Whatever the transport has gone through, [getConnectionState]
    answers with the snapshot [{ status: "open" }], which carries no socket:
    so it does before any [connect] and after a drop. *)
Theorem getConnectionState_constant actual :
  getConnectionState actual = {| state_status := Open; state_socket := None |}
  ∧ getConnectionState NeverConnected = getConnectionState actual
  ∧ (∀ socket loggedOut,
       state_status (getConnectionState (Dropped socket loggedOut)) = Open)
  ∧ state_socket (getConnectionState actual) = None.
Proof. by repeat split. Qed.

End connection_facts.

(* ===================================================================== *)
(** * Dates *)
(* ===================================================================== *)

Section date_facts.

Import JSDate.
#[local] Open Scope Z_scope.

Example iso_epoch : toISOString 0 = inl "1970-01-01T00:00:00.000Z".
Proof. reflexivity. Qed.

Example iso_2023 : toISOString 1700000000000 = inl "2023-11-14T22:13:20.000Z".
Proof. reflexivity. Qed.

Example iso_leap_day : toISOString 951782400000 = inl "2000-02-29T00:00:00.000Z".
Proof. reflexivity. Qed.

Example iso_before_epoch : toISOString (-1) = inl "1969-12-31T23:59:59.999Z".
Proof. reflexivity. Qed.

Example iso_year_zero : toISOString (-62167219200000) = inl "0000-01-01T00:00:00.000Z".
Proof. reflexivity. Qed.

Example iso_last : toISOString max_time = inl "+275760-09-13T00:00:00.000Z".
Proof. reflexivity. Qed.

Example iso_first : toISOString (- max_time) = inl "-271821-04-20T00:00:00.000Z".
Proof. reflexivity. Qed.

Example iso_out_of_range : toISOString (max_time + 1) = inr range_error.
Proof. reflexivity. Qed.

End date_facts.

(* ===================================================================== *)
(** * Event normalizer *)
(* ===================================================================== *)

Section normalizer_facts.

Import Proto JS MessageStream.
#[local] Open Scope Z_scope.

Example extractNumber_jid :
  extractNumber (Some "5511999:12@s.whatsapp.net") = Some "5511999".
Proof. reflexivity. Qed.

Example extractNumber_empty : extractNumber (Some "@g.us") = None.
Proof. reflexivity. Qed.

Example includes_group : includes "1203-456@g.us" "@g.us" = true.
Proof. reflexivity. Qed.

Example includes_direct : includes "555@s.whatsapp.net" "@g.us" = false.
Proof. reflexivity. Qed.

(** With or without a local identity, the recipient slot of an inbound
    event is [extractNumber] of the identity. *)
Lemma extractNumber_guarded myNumber :
  (if truthy myNumber then extractNumber myNumber else None) = extractNumber myNumber.
Proof. unfold extractNumber. by destruct (truthy myNumber). Qed.

(** A record comes out only of an event that has a key with a conversation
    identifier, and it carries the fields computed from that key. *)
Lemma extract_Some now message myNumber record lines :
  extractMessageDataEffect now message myNumber = (Some record, lines) →
  ∃ key chatId,
    Proto.key message = Some key
    ∧ remoteJid key = Some chatId ∧ chatId ≠ ""
    ∧ InsertMessage.id record = Proto.id key
    ∧ InsertMessage.chat_id record = chatId
    ∧ InsertMessage.isFromMe record = default false (fromMe key)
    ∧ InsertMessage.isGroup record = includes chatId "@g.us"
    ∧ InsertMessage.from record
      = (if default false (fromMe key) then extractNumber myNumber
         else if includes chatId "@g.us"
              then extractNumber (Some (or_else (participant key) chatId))
              else extractNumber (Some chatId))
    ∧ InsertMessage.to record
      = (if default false (fromMe key) then extractNumber (Some chatId)
         else extractNumber myNumber).
Proof.
  unfold extractMessageDataEffect.
  destruct (key message) as [key|]; [|done].
  destruct (remoteJid key) as [chatId|] eqn:Hjid; [|done]. simpl.
  destruct (String.eqb_spec chatId "") as [->|Hne]; [done|]. simpl.
  destruct (timestamp_of now (messageTimestamp message)); [|done].
  destruct (content_and_type (Proto.message message)) as [content messageType].
  rewrite !extractNumber_guarded.
  destruct (default false (fromMe key)) eqn:Hme;
    [|destruct (includes chatId "@g.us") eqn:Hgroup];
    intros [= <- <-]; exists key, chatId; simpl; rewrite ?Hme, ?Hgroup;
    by repeat split.
Qed.

(** The part of C4 that the code keeps: without a key, or without a
    conversation identifier, the result is [null] and nothing is logged. *)
Lemma extract_without_conversation now message myNumber :
  (∀ key, Proto.key message = Some key → truthy (remoteJid key) = false) →
  extractMessageDataEffect now message myNumber = (None, []).
Proof.
  intros Hkey. unfold extractMessageDataEffect.
  destruct (key message) as [key|]; [|done]. by rewrite (Hkey key).
Qed.

(** C4, at the failing input. An inbound text whose key has a conversation
    identifier but no [id] is not answered with [null]: a record comes out
    whose [id] is [undefined]; the stream's [WhatsAppMessage.make] rejects
    it, and the stream dies before the messages that follow are handed
    on. *)
Theorem extract_without_id_gives_record :
  ∃ record,
    extractMessageDataEffect 1700000000000 without_id (Some "999")
    = (Some record, [])
    ∧ InsertMessage.id record = None
    ∧ InsertMessage.chat_id record = "555@s.whatsapp.net"
    ∧ InsertMessage.content record = "hi"
    ∧ WhatsAppMessage.make record "2023-11-14T22:13:20.000Z" = None
    ∧ stream_of_batch (λ _, 1700000000000) "2023-11-14T22:13:20.000Z"
        {| type := "notify"; messages := [without_id; scenario_A] |}
      = ([], true).
Proof. eexists. split; [by vm_compute|]. by repeat split. Qed.

(** C6. Every inbound plain-text event with id ["m1"], conversation
    identifier ["555@s"] and text ["hi"], normalized with the local
    identity ["999"], yields [from = "555"], [to = "999"], [content = "hi"],
    type [text] and [isOutbound = false]; and every record made from an
    inbound event of a direct conversation has the conversation identifier
    as sender and the local identity as recipient, each reduced by
    [extractNumber]. *)
Theorem inbound_direct_sender_recipient :
  (∀ now message key info timestamp,
     Proto.key message = Some key →
     Proto.id key = Some "m1" →
     remoteJid key = Some "555@s" →
     default false (fromMe key) = false →
     Proto.message message = Some info →
     conversation info = Some "hi" →
     timestamp_of now (messageTimestamp message) = inl timestamp →
     extractMessageDataEffect now message (Some "999")
     = (Some {| InsertMessage.id := Some "m1";
                InsertMessage.from := Some "555";
                InsertMessage.to := Some "999";
                InsertMessage.chat_id := "555@s";
                InsertMessage.timestamp := timestamp;
                InsertMessage.content := "hi";
                InsertMessage.messageType := "text";
                InsertMessage.isFromMe := false;
                InsertMessage.isGroup := false;
                InsertMessage.processed := false |}, []))
  ∧ (∀ now message myNumber record lines,
       extractMessageDataEffect now message myNumber = (Some record, lines) →
       InsertMessage.isFromMe record = false →
       InsertMessage.isGroup record = false →
       InsertMessage.from record
       = extractNumber (Some (InsertMessage.chat_id record))
       ∧ InsertMessage.to record = extractNumber myNumber).
Proof.
  split.
  - intros now message key info timestamp Hkey Hid Hjid Hme Hinfo Htext Hts.
    unfold extractMessageDataEffect. rewrite Hkey, Hjid. simpl.
    rewrite Hts, Hme, Hinfo, Hid. unfold content_and_type. by rewrite Htext.
  - intros now message myNumber record lines Hrec Hin Hdirect.
    destruct (extract_Some _ _ _ _ _ Hrec)
      as (key & chatId & _ & _ & _ & _ & Hchat & Hme & Hgroup & Hfrom & Hto).
    rewrite Hfrom, Hto, Hchat. rewrite <- Hme, <- Hgroup, Hin, Hdirect. done.
Qed.

Lemma inbound_direct_sender_recipient_witness :
  timestamp_of 0 (messageTimestamp scenario_A) = inl "1970-01-01T00:00:00.000Z"
  ∧ (extractMessageDataEffect 0 scenario_A (Some "999")).1
    ≫= InsertMessage.from = Some "555"
  ∧ InsertMessage.from <$> (extractMessageDataEffect 0 scenario_A None).1
    = Some (extractNumber (Some "555@s")).
Proof.
  split; [reflexivity|]. split.
  - unfold scenario_A, text_message.
    erewrite (proj1 inbound_direct_sender_recipient 0 _ _ _
                "1970-01-01T00:00:00.000Z"); reflexivity.
  - destruct (extractMessageDataEffect 0 scenario_A None) as [[record|] lines] eqn:Hrec;
      [|by vm_compute in Hrec].
    simpl. f_equal.
    destruct (proj2 inbound_direct_sender_recipient 0 scenario_A None record lines Hrec)
      as [-> _].
    + vm_compute in Hrec. by injection Hrec as <- _.
    + vm_compute in Hrec. by injection Hrec as <- _.
    + vm_compute in Hrec. by injection Hrec as <- _.
Defined.

(** ** The ingestion pipeline *)

Lemma extract_no_identity now message record lines :
  extractMessageDataEffect now message None = (Some record, lines) →
  (InsertMessage.isFromMe record = false → InsertMessage.to record = None)
  ∧ (InsertMessage.isFromMe record = true → InsertMessage.from record = None).
Proof.
  intros Hrec.
  destruct (extract_Some _ _ _ _ _ Hrec)
    as (key & chatId & _ & _ & _ & _ & _ & Hme & _ & Hfrom & Hto).
  rewrite Hfrom, Hto, <- Hme. split; by intros ->.
Qed.

Lemma normalize_from_no_identity clock messages i record :
  record ∈ (normalize_from clock i messages).1 →
  (InsertMessage.isFromMe record = false → InsertMessage.to record = None)
  ∧ (InsertMessage.isFromMe record = true → InsertMessage.from record = None).
Proof.
  revert i. induction messages as [|message rest IH]; intros i; simpl.
  - by intros ?%elem_of_nil.
  - specialize (IH (S i)).
    destruct (normalize_from clock (S i) rest) as [processedMessages logged].
    destruct (key message) as [key|]; [|done].
    destruct (truthy (remoteJid key)); [|done].
    destruct (extractMessageDataEffect (clock i) message None)
      as [[processed|] lines] eqn:Hrec; [|done].
    simpl. intros [->|Hin]%elem_of_cons; [|by apply IH].
    by eapply extract_no_identity.
Qed.

Lemma emit_no_identity createdAt records stored :
  (∀ record, record ∈ records →
     (InsertMessage.isFromMe record = false → InsertMessage.to record = None)
     ∧ (InsertMessage.isFromMe record = true → InsertMessage.from record = None)) →
  stored ∈ (emit createdAt records).1 → no_identity stored.
Proof.
  induction records as [|record rest IH]; simpl; intros Hall.
  - by intros ?%elem_of_nil.
  - destruct (WhatsAppMessage.make record createdAt) as [message|] eqn:Hmake;
      [|by intros ?%elem_of_nil].
    destruct (emit createdAt rest) as [emitted died]. simpl in *.
    intros [->|Hin]%elem_of_cons.
    + unfold WhatsAppMessage.make in Hmake.
      destruct (InsertMessage.id record); [|done]. injection Hmake as <-.
      apply Hall, list_elem_of_here.
    + apply IH; [|done]. intros r Hr. by apply Hall, list_elem_of_further.
Qed.

(** ** Effects that add only rows without a local identity *)

Lemma adds_succeed {A} (a : A) : adds_no_identity (Repository.succeed a).
Proof. intros w k row Hrow. by left. Qed.

Lemma adds_log line : adds_no_identity (Repository.log_line line).
Proof. intros w k row Hrow. by left. Qed.

Lemma adds_bind {A B} (m : Repository.eff A) (f : A → Repository.eff B) :
  adds_no_identity m → (∀ a, adds_no_identity (f a)) → adds_no_identity (m ≫= f).
Proof.
  intros Hm Hf w k row. unfold mbind, Repository.eff_bind, Repository.bind.
  specialize (Hm w k). destruct (m w) as [w1 [a|e]]; simpl in *.
  - intros [Hrow|Hrow]%Hf; [by apply Hm|by right].
  - by apply Hm.
Qed.

Lemma adds_catchAll {A} (m : Repository.eff A) handler :
  adds_no_identity m → (∀ e, adds_no_identity (handler e)) →
  adds_no_identity (Repository.catchAll m handler).
Proof.
  intros Hm Hh w k row. unfold Repository.catchAll.
  specialize (Hm w k). destruct (m w) as [w1 [a|e]]; simpl in *.
  - by apply Hm.
  - intros [Hrow|Hrow]%Hh; [by apply Hm|by right].
Qed.

Lemma adds_insert created_at message :
  no_identity message →
  adds_no_identity (Repository.insertMessage created_at message).
Proof.
  intros Hid w k row. unfold Repository.insertMessage, Repository.statement.
  destruct (Repository.faults w) as [|[e|] rest]; simpl; auto;
    destruct (Repository.db w !! WhatsAppMessage.id message); simpl; auto.
  all: intros [[<- <-]|[_ Hrow]]%lookup_insert_Some; auto.
Qed.

Lemma adds_store created_at message :
  no_identity message → adds_no_identity (store_message created_at message).
Proof.
  intros Hid. apply adds_catchAll; [|intros _; apply adds_log].
  apply adds_bind; [apply adds_log|]. intros _.
  apply adds_bind; [by apply adds_insert|]. intros _. apply adds_log.
Qed.

Lemma adds_for_each (stream : list WhatsAppMessage.t) created_at :
  Forall no_identity stream →
  adds_no_identity (Repository.for_each stream (store_message created_at)).
Proof.
  induction 1 as [|message rest Hid _ IH]; simpl.
  - apply adds_succeed.
  - apply adds_bind; [by apply adds_store|]. by intros _.
Qed.

(** C10. The pipeline normalizes without a local identity: every record it
    makes from a batch, every message it hands on to be stored, and every
    row that storing them adds to the table has [to = null] when the event
    is inbound and [from = null] when it is outbound. *)
Theorem pipeline_has_no_local_identity clock createdAt created_at batch :
  (∀ record,
     record ∈ (normalize_batch clock batch).1 →
     (InsertMessage.isFromMe record = false → InsertMessage.to record = None)
     ∧ (InsertMessage.isFromMe record = true → InsertMessage.from record = None))
  ∧ (∀ stored,
       stored ∈ (stream_of_batch clock createdAt batch).1 →
       (WhatsAppMessage.isFromMe stored = false → WhatsAppMessage.to stored = None)
       ∧ (WhatsAppMessage.isFromMe stored = true
          → WhatsAppMessage.from stored = None))
  ∧ (∀ w k row,
       Repository.db (process_batch clock createdAt created_at batch w).1 !! k
       = Some row →
       Repository.db w !! k = None →
       (WhatsAppMessage.isFromMe row = false → WhatsAppMessage.to row = None)
       ∧ (WhatsAppMessage.isFromMe row = true → WhatsAppMessage.from row = None)).
Proof.
  assert (∀ stored, stored ∈ (stream_of_batch clock createdAt batch).1 →
                    no_identity stored) as Hstream.
  { intros stored. apply emit_no_identity.
    intros record. apply normalize_from_no_identity. }
  split; [intros record; apply normalize_from_no_identity|].
  split; [exact Hstream|].
  intros w k row Hrow Hnew.
  destruct (adds_for_each (stream_of_batch clock createdAt batch).1 created_at
              (proj2 (Forall_forall _ _) Hstream) w k row Hrow) as [Hold|Hid];
    [congruence|exact Hid].
Qed.

Lemma pipeline_has_no_local_identity_witness :
  ∃ stored,
    stored ∈ (stream_of_batch (λ _, 0%Z) "1970-01-01T00:00:00.000Z"
                (batch_of "hello")).1
    ∧ WhatsAppMessage.isFromMe stored = false
    ∧ WhatsAppMessage.to stored = None.
Proof.
  eexists. split; [vm_compute; apply list_elem_of_here|].
  split; [reflexivity|].
  eapply (proj1 (proj2 (pipeline_has_no_local_identity (λ _, 0%Z)
                   "1970-01-01T00:00:00.000Z" "1970-01-01 00:00:00"
                   (batch_of "hello"))));
    [vm_compute; apply list_elem_of_here|reflexivity].
Defined.

Example process_sample :
  Repository.db
    (process_batch (λ _, 0%Z) "1970-01-01T00:00:00.000Z" "1970-01-01 00:00:00"
       (batch_of "hello") (Repository.World ∅ [] [])).1
  !! "hello"
  = Some {| WhatsAppMessage.id := "hello";
            WhatsAppMessage.from := Some "555";
            WhatsAppMessage.to := None;
            WhatsAppMessage.chat_id := "555@s";
            WhatsAppMessage.timestamp := "1970-01-01T00:00:00.000Z";
            WhatsAppMessage.content := "hello";
            WhatsAppMessage.messageType := "text";
            WhatsAppMessage.isFromMe := false;
            WhatsAppMessage.isGroup := false;
            WhatsAppMessage.processed := false;
            WhatsAppMessage.createdAt := "1970-01-01 00:00:00" |}.
Proof. by vm_compute. Qed.

End normalizer_facts.

(* ===================================================================== *)
(** * Ingestion bridge: a full queue *)
(* ===================================================================== *)

Section bridge_facts.

Import MessageStream StreamLaws.

Lemma offer_full {A} (q : Queue.t A) a :
  length (Queue.items q) = Queue.capacity q →
  Queue.offer q a
  = (Queue.Make (Queue.capacity q) (Queue.items q) (Queue.parked q ++ [a]),
     Queue.Suspended).
Proof.
  intros Hfull. unfold Queue.offer.
  by rewrite Hfull, Nat.ltb_irrefl.
Qed.

Lemma pull_pending b :
  pending b = ((pull b).2 ++ pending (pull b).1)%list
  ∧ log (pull b).1 = log b
  ∧ Queue.capacity (messageQueue (pull b).1) = Queue.capacity (messageQueue b).
Proof.
  unfold pull, pending, Queue.takeUpTo. generalize DefaultChunkSize.
  intros chunk. destruct b as [[capacity items parked] lg]. simpl.
  split; [|done].
  by rewrite app_assoc, (app_assoc (take _ _)), take_drop, <- app_assoc,
    take_drop.
Qed.

Lemma pull_can_move b : can_move b → can_move (pull b).1.
Proof.
  unfold can_move, pull, Queue.takeUpTo. generalize DefaultChunkSize.
  intros chunk. destruct b as [[capacity items parked] lg]. simpl.
  intros [Hcap _]. split; [done|]. intros Hparked Hitems.
  apply app_eq_nil in Hitems as [Hrest Htake]. rewrite Hrest in *.
  simpl in *. rewrite Nat.sub_0_r in *.
  destruct parked as [|x parked]; [by rewrite drop_nil in Hparked|].
  destruct capacity; [lia|done].
Qed.

Lemma pull_takes b :
  Queue.items (messageQueue b) ≠ [] → (pull b).2 ≠ [].
Proof.
  unfold pull, Queue.takeUpTo, DefaultChunkSize.
  destruct b as [[capacity items parked] lg]. simpl. by destruct items.
Qed.

(** The consumer's pulls hand on everything that is pending, in order. *)
Lemma pulls_deliver n b :
  can_move b → length (pending b) ≤ n →
  (pulls n b).2 = pending b ∧ log (pulls n b).1 = log b.
Proof.
  revert b. induction n as [|n IH]; intros b Hb Hn.
  - simpl. destruct (pending b); [done|simpl in Hn; lia].
  - cbn [pulls]. destruct (pull_pending b) as (Hp & Hl & _).
    pose proof (pull_can_move b Hb) as Hb1.
    pose proof (pull_takes b) as Htakes.
    destruct (pull b) as [b1 taken]. cbn [fst snd] in *.
    assert (length (pending b1) ≤ n) as Hn1.
    { rewrite Hp, length_app in Hn.
      destruct taken as [|x taken]; [|simpl in Hn; lia].
      assert (Queue.items (messageQueue b) = []) as Hitems.
      { destruct (Queue.items (messageQueue b)); [done|].
        by destruct Htakes. }
      assert (Queue.parked (messageQueue b) = []) as Hparked.
      { destruct (Queue.parked (messageQueue b)) eqn:Hq; [done|].
        destruct Hb as [_ Hb]. exfalso. apply Hb; [by rewrite Hq|done]. }
      assert (pending b1 = []) as ->; [|simpl; lia].
      unfold pending in Hp. rewrite Hitems, Hparked in Hp. simpl in Hp.
      unfold pending. by rewrite <- Hp. }
    destruct (IH b1 Hb1 Hn1) as [Hd Hlog].
    destruct (pulls n b1) as [b2 later]. cbn [fst snd] in *.
    split; [rewrite Hp; by f_equal|congruence].
Qed.

(** What the listener does on a queue that already holds its 1000 batches,
    with any number of offers waiting behind it. It returns with the
    contents of the queue unchanged and nothing logged: the offer cannot
    fail, so the handler that would log the failure never runs, and the
    offer's fiber is suspended with the batch behind the offers that were
    waiting. The batch is not dropped: the size that [Queue.size] reports
    goes up by one, and the consumer's pulls hand on every pending batch
    in the order of arrival, the new one last. *)
Lemma upsert_on_full_queue_parks (b : bridge) (batch : BaileysMessage) :
  Queue.capacity (messageQueue b) = 1000 →
  length (Queue.items (messageQueue b)) = 1000 →
  (Queue.offer (messageQueue b) batch).2 = Queue.Suspended
  ∧ Queue.items (messageQueue (on_upsert batch b)) = Queue.items (messageQueue b)
  ∧ Queue.parked (messageQueue (on_upsert batch b))
    = (Queue.parked (messageQueue b) ++ [batch])%list
  ∧ Queue.size (messageQueue (on_upsert batch b))
    = S (Queue.size (messageQueue b))
  ∧ log (on_upsert batch b) = log b
  ∧ ∃ n,
      (pulls n (on_upsert batch b)).2 = (pending b ++ [batch])%list
      ∧ log (pulls n (on_upsert batch b)).1 = log b.
Proof.
  intros Hcap Hlen.
  assert (on_upsert batch b
          = Bridge (Queue.Make 1000 (Queue.items (messageQueue b))
                      (Queue.parked (messageQueue b) ++ [batch])) (log b))
    as Hup.
  { unfold on_upsert. rewrite offer_full by congruence. by rewrite Hcap. }
  rewrite offer_full by congruence. rewrite Hup.
  unfold Queue.size. cbn [Queue.items Queue.parked messageQueue log snd].
  split; [done|]. split; [done|]. split; [done|].
  split; [rewrite length_app; simpl; lia|]. split; [done|].
  set (b' := Bridge _ _).
  assert (pending b' = (pending b ++ [batch])%list) as Hp.
  { unfold pending, b'. simpl. by rewrite app_assoc. }
  assert (can_move b') as Hmove.
  { split; simpl; [lia|]. intros _ Hnil. rewrite Hnil in Hlen. simpl in Hlen. lia. }
  exists (length (pending b')).
  destruct (pulls_deliver (length (pending b')) b' Hmove (le_n _)) as [Hd Hl].
  split; [by rewrite Hd, Hp|exact Hl].
Qed.

Lemma upsert_on_full_queue_parks_witness :
  Queue.capacity (messageQueue full_bridge) = 1000
  ∧ length (Queue.items (messageQueue full_bridge)) = 1000
  ∧ Queue.size (messageQueue (on_upsert (batch_of "new") full_bridge)) = 1001
  ∧ log (on_upsert (batch_of "new") full_bridge) = [].
Proof.
  split; [reflexivity|]. split; [by vm_compute|].
  destruct (upsert_on_full_queue_parks full_bridge (batch_of "new"))
    as (_ & _ & _ & Hsize & Hlog & _); [reflexivity|by vm_compute|].
  split; [|exact Hlog]. rewrite Hsize. by vm_compute.
Defined.

(** C3 fails on the code. On the queue that holds its 1000 batches, with
    nothing waiting, the listener does not drop the new batch and logs no
    diagnostic: the batch waits behind the queue with its offer suspended,
    [Queue.size] reads 1001 instead of 1000, the consumer's next pull
    moves the batch into the queue, and the pull after that hands it to
    the stream, after the 1000 batches that were there. *)
Theorem full_queue_keeps_newest_batch :
  length (Queue.items (messageQueue full_bridge)) = 1000
  ∧ Queue.size (messageQueue full_bridge) = 1000
  ∧ log (on_upsert (batch_of "new") full_bridge) = []
  ∧ Queue.items (messageQueue (on_upsert (batch_of "new") full_bridge))
    = Queue.items (messageQueue full_bridge)
  ∧ Queue.parked (messageQueue (on_upsert (batch_of "new") full_bridge))
    = [batch_of "new"]
  ∧ Queue.size (messageQueue (on_upsert (batch_of "new") full_bridge)) = 1001
  ∧ Queue.items (messageQueue (pull (on_upsert (batch_of "new") full_bridge)).1)
    = [batch_of "new"]
  ∧ (pulls 2 (on_upsert (batch_of "new") full_bridge)).2
    = (repeat (batch_of "old") 1000 ++ [batch_of "new"])%list
  ∧ log (pulls 2 (on_upsert (batch_of "new") full_bridge)).1 = [].
Proof. by vm_compute. Qed.

End bridge_facts.

(* ===================================================================== *)
(** * Message repository: [markAsProcessed] *)
(* ===================================================================== *)

Section repository_facts.

Import Schedule Repository.
Import WhatsAppMessage.

Lemma statement_healthy {A} (w : world)
    (run : gmap string WhatsAppMessage.t
           → exit SqlError (gmap string WhatsAppMessage.t * A)) :
  next_fault w = None →
  statement run w
  = match run (db w) with
    | Success (db', a) => (World db' (tl (faults w)) (log w), Success a)
    | Failure e => (World (db w) (tl (faults w)) (log w), Failure e)
    end.
Proof.
  unfold next_fault, statement. by destruct (faults w) as [|[e|] rest].
Qed.

Lemma statement_faulty {A} (w : world) e
    (run : gmap string WhatsAppMessage.t
           → exit SqlError (gmap string WhatsAppMessage.t * A)) :
  next_fault w = Some e →
  statement run w = (World (db w) (tl (faults w)) (log w), Failure e).
Proof.
  unfold next_fault, statement.
  destruct (faults w) as [|[e'|] rest]; simpl; try done. by intros [= ->].
Qed.

Lemma set_processed_same m : same_but_processed m (set_processed m).
Proof. by repeat split. Qed.

Lemma set_processed_idem m : set_processed (set_processed m) = set_processed m.
Proof. done. Qed.

Lemma same_but_processed_refl m : same_but_processed m m.
Proof. by repeat split. Qed.

Lemma same_but_processed_trans a b c :
  same_but_processed a b → same_but_processed b c → same_but_processed a c.
Proof.
  unfold same_but_processed. intros H1 H2.
  destruct H1 as (?&?&?&?&?&?&?&?&?&?), H2 as (?&?&?&?&?&?&?&?&?&?).
  repeat split; congruence.
Qed.

(** The table after [markAsProcessed], whatever the storage layer does. *)
Lemma markAsProcessed_db messageId w :
  db (markAsProcessed messageId w).1 = db w
  ∨ db (markAsProcessed messageId w).1 = alter set_processed messageId (db w).
Proof.
  unfold markAsProcessed, statement.
  destruct (faults w) as [|[e|] rest]; simpl; auto.
Qed.

(** The first half of C5 and its amended second half. After a successful
    [markAsProcessed], a second call that meets no storage fault succeeds
    with the same row, still processed, and leaves the table as it is. For
    an id that is not in the table, a call that meets no storage fault also
    succeeds: it returns no row ([undefined]) and leaves the table as it
    is. *)
Theorem markAsProcessed_again_and_unknown :
  (∀ messageId w w1 row,
     markAsProcessed messageId w = (w1, Success (Some row)) →
     next_fault w1 = None →
     ∃ w2,
       markAsProcessed messageId w1 = (w2, Success (Some row))
       ∧ db w2 = db w1
       ∧ processed row = true)
  ∧ (∀ messageId w,
       db w !! messageId = None →
       next_fault w = None →
       ∃ w',
         markAsProcessed messageId w = (w', Success None)
         ∧ db w' = db w).
Proof.
  split.
  - intros messageId w w1 row Hfirst Hok.
    assert (db w1 !! messageId = Some row ∧ processed row = true) as [Hrow Hp].
    { revert Hfirst. unfold markAsProcessed, statement.
      destruct (faults w) as [|[e|] rest]; simpl; try done.
      all: intros [= <- Hrow]; simpl; split; try done.
      all: rewrite lookup_alter_eq in Hrow;
        destruct (db w !! messageId); simpl in Hrow; by simplify_eq. }
    assert (alter set_processed messageId (db w1) = db w1) as Hsame.
    { apply map_eq. intros k. destruct (decide (k = messageId)) as [->|Hne].
      - rewrite lookup_alter_eq, Hrow. simpl. f_equal.
        destruct row. simpl in Hp. by subst.
      - by rewrite lookup_alter_ne. }
    unfold markAsProcessed. rewrite statement_healthy by done.
    rewrite Hsame, Hrow. eauto.
  - intros messageId w Hnone Hok.
    unfold markAsProcessed. rewrite statement_healthy by done.
    assert (alter set_processed messageId (db w) = db w) as ->.
    { apply map_eq. intros k. destruct (decide (k = messageId)) as [->|Hne].
      - by rewrite lookup_alter_eq, Hnone.
      - by rewrite lookup_alter_ne. }
    rewrite Hnone. eauto.
Qed.

Lemma markAsProcessed_again_and_unknown_witness :
  (∃ w2, markAsProcessed "m1" (markAsProcessed "m1" sample_world).1
         = (w2, Success (Some (set_processed sample_row))))
  ∧ (∃ w', markAsProcessed "m2" sample_world = (w', Success None)).
Proof.
  split.
  - destruct (proj1 markAsProcessed_again_and_unknown "m1" sample_world
                (markAsProcessed "m1" sample_world).1 (set_processed sample_row))
      as (w2 & H & _); [by vm_compute..|].
    by exists w2.
  - destruct (proj2 markAsProcessed_again_and_unknown "m2" sample_world)
      as (w' & H & _); [by vm_compute..|].
    by exists w'.
Defined.

(** C5 as stated fails: for an id that is not in the table the call does
    not fail, with [NotFound] or otherwise; it succeeds without a row. *)
Lemma markAsProcessed_unknown_succeeds :
  sample_world.(db) !! "ghost" = None
  ∧ markAsProcessed "ghost" sample_world = (sample_world, Success None)
  ∧ ∀ e, (markAsProcessed "ghost" sample_world).2 ≠ Failure e.
Proof.
  assert (markAsProcessed "ghost" sample_world = (sample_world, Success None))
    as H by by vm_compute.
  split; [by vm_compute|]. split; [done|]. intros e. by rewrite H.
Qed.

End repository_facts.

(* ===================================================================== *)
(** * Reconciliation scheduler: the summary and the sweep *)
(* ===================================================================== *)

Section logger_facts.

Import Schedule Repository Logger.
Import WhatsAppMessage.

Lemma length_substring_0 n s :
  n ≤ String.length s → String.length (String.substring 0 n s) = n.
Proof.
  revert s. induction n as [|n IH]; intros [|c s] Hn; simpl in *;
    try done; try lia.
  by rewrite IH by lia.
Qed.

Lemma prefix_substring_0 n s : String.prefix (String.substring 0 n s) s = true.
Proof.
  revert s. induction n as [|n IH]; intros [|c s]; simpl; try done.
  destruct (Ascii.ascii_dec c c); [apply IH|done].
Qed.

(** The content shown for a record: content of at most 50 characters as it
    is, longer content as its first 50 characters followed by ["..."]. *)
Lemma truncatedContent_boundary content :
  (String.length content ≤ 50 → truncatedContent content = content)
  ∧ (String.length content = 50 → truncatedContent content = content)
  ∧ (50 < String.length content →
     truncatedContent content = String.substring 0 50 content ++ "..."
     ∧ String.length (String.substring 0 50 content) = 50
     ∧ String.prefix (String.substring 0 50 content) content = true).
Proof.
  unfold truncatedContent. split; [|split].
  - intros Hle. by rewrite (proj2 (Nat.ltb_ge _ _) Hle).
  - intros Heq. rewrite (proj2 (Nat.ltb_ge 50 (String.length content))); [done|lia].
  - intros Hlt. rewrite (proj2 (Nat.ltb_lt _ _) Hlt).
    split; [done|]. split; [apply length_substring_0; lia|].
    apply prefix_substring_0.
Qed.

Lemma truncatedContent_boundary_witness :
  String.length fifty = 50
  ∧ truncatedContent fifty = fifty
  ∧ truncatedContent "hi" = "hi"
  ∧ String.length fifty_one = 51
  ∧ truncatedContent fifty_one = fifty ++ "...".
Proof.
  split; [reflexivity|]. split.
  { apply (truncatedContent_boundary fifty). reflexivity. }
  split.
  { apply (proj1 (truncatedContent_boundary "hi")). simpl. lia. }
  split; [reflexivity|].
  destruct (proj2 (proj2 (truncatedContent_boundary fifty_one))) as [-> _].
  - vm_compute. lia.
  - reflexivity.
Defined.

(** ** Effects that keep the rows *)

Lemma keeps_rows_succeed {A} (a : A) : keeps_rows (succeed a).
Proof. intros w k row Hrow. exists row. split; [done|]. by repeat split. Qed.

Lemma keeps_rows_log line : keeps_rows (log_line line).
Proof. intros w k row Hrow. exists row. split; [done|]. by repeat split. Qed.

Lemma keeps_rows_bind {A B} (m : eff A) (f : A → eff B) :
  keeps_rows m → (∀ a, keeps_rows (f a)) → keeps_rows (m ≫= f).
Proof.
  intros Hm Hf w k row Hrow.
  destruct (Hm w k row Hrow) as (row1 & Hrow1 & Hsame1).
  unfold mbind, eff_bind, bind.
  destruct (m w) as [w1 [a|e]]; simpl in *.
  - destruct (Hf a w1 k row1 Hrow1) as (row2 & Hrow2 & Hsame2).
    exists row2. split; [done|]. by eapply same_but_processed_trans.
  - by exists row1.
Qed.

Lemma keeps_rows_catchAll {A} (m : eff A) (handler : SqlError → eff A) :
  keeps_rows m → (∀ e, keeps_rows (handler e)) → keeps_rows (catchAll m handler).
Proof.
  intros Hm Hh w k row Hrow.
  destruct (Hm w k row Hrow) as (row1 & Hrow1 & Hsame1).
  unfold catchAll.
  destruct (m w) as [w1 [a|e]]; simpl in *.
  - by exists row1.
  - destruct (Hh e w1 k row1 Hrow1) as (row2 & Hrow2 & Hsame2).
    exists row2. split; [done|]. by eapply same_but_processed_trans.
Qed.

Lemma keeps_rows_for_each {A} (xs : list A) (body : A → eff unit) :
  (∀ x, keeps_rows (body x)) → keeps_rows (for_each xs body).
Proof.
  intros Hbody. induction xs as [|x xs IH]; simpl.
  - apply keeps_rows_succeed.
  - apply keeps_rows_bind; auto.
Qed.

Lemma keeps_rows_mark messageId : keeps_rows (markAsProcessed messageId).
Proof.
  intros w k row Hrow. destruct (markAsProcessed_db messageId w) as [-> | ->].
  - exists row. split; [done|]. by repeat split.
  - destruct (decide (k = messageId)) as [->|Hne].
    + exists (set_processed row). rewrite lookup_alter_eq, Hrow.
      split; [done|]. by repeat split.
    + exists row. rewrite lookup_alter_ne by done.
      split; [done|]. by repeat split.
Qed.

Lemma keeps_rows_unprocessed : keeps_rows getUnprocessedMessages.
Proof.
  intros w k row Hrow. exists row. split; [|by repeat split].
  unfold getUnprocessedMessages, statement.
  by destruct (faults w) as [|[e|] rest].
Qed.

Lemma keeps_rows_sweep : keeps_rows logUnprocessedMessages.
Proof.
  unfold logUnprocessedMessages.
  apply keeps_rows_bind; [apply keeps_rows_unprocessed|].
  intros unprocessedMessages.
  destruct (length unprocessedMessages =? 0); [apply keeps_rows_log|].
  apply keeps_rows_bind; [apply keeps_rows_log|]. intros _.
  apply keeps_rows_bind; [|intros _; apply keeps_rows_log].
  apply keeps_rows_for_each. intros message.
  apply keeps_rows_bind; [apply keeps_rows_log|]. intros _.
  apply keeps_rows_bind; [apply keeps_rows_mark|]. intros _.
  apply keeps_rows_succeed.
Qed.

Lemma keeps_rows_tick : keeps_rows tick.
Proof.
  apply keeps_rows_catchAll; [apply keeps_rows_sweep|].
  intros _. apply keeps_rows_log.
Qed.

(** C8. [markAsProcessed] changes only [processed]: the marked row keeps
    its [id], [from], [to], conversation, timestamp, content, type,
    direction, group flag and [createdAt], and every other row is left as
    it is. Hence after a sweep of the scheduler every row is still stored
    with the [createdAt] it was inserted with. *)
Theorem markAsProcessed_changes_only_processed :
  (∀ messageId w row,
     db w !! messageId = Some row →
     (∃ row',
        db (markAsProcessed messageId w).1 !! messageId = Some row'
        ∧ same_but_processed row row')
     ∧ ∀ k, k ≠ messageId →
            db (markAsProcessed messageId w).1 !! k = db w !! k)
  ∧ (∀ w k row,
       db w !! k = Some row →
       ∃ row',
         db (tick w).1 !! k = Some row'
         ∧ same_but_processed row row'
         ∧ createdAt row' = createdAt row).
Proof.
  split.
  - intros messageId w row Hrow. split; [by apply keeps_rows_mark|].
    intros k Hne. destruct (markAsProcessed_db messageId w) as [-> | ->];
      [done|by rewrite lookup_alter_ne].
  - intros w k row Hrow.
    destruct (keeps_rows_tick w k row Hrow) as (row' & Hrow' & Hsame).
    exists row'. split; [done|]. split; [done|].
    by destruct Hsame as (?&?&?&?&?&?&?&?&?&?).
Qed.

Lemma markAsProcessed_changes_only_processed_witness :
  sample_world.(db) !! "m1" = Some sample_row
  ∧ (∃ row', db (markAsProcessed "m1" sample_world).1 !! "m1" = Some row'
             ∧ same_but_processed sample_row row')
  ∧ (∃ row', db (tick sample_world).1 !! "m1" = Some row'
             ∧ createdAt row' = createdAt sample_row).
Proof.
  split; [by vm_compute|]. split.
  - apply (proj1 markAsProcessed_changes_only_processed "m1" sample_world sample_row).
    by vm_compute.
  - destruct (proj2 markAsProcessed_changes_only_processed sample_world "m1" sample_row)
      as (row' & H & _ & Hc); [by vm_compute|].
    by exists row'.
Defined.

(** Scenario C: after one sweep over three unprocessed rows nothing is
    left unprocessed, the rows were summarized in the order of their
    timestamps, and each keeps its [createdAt]. *)
Example sweep_three_rows :
  (getUnprocessedMessages (tick three_rows).1).2 = Success []
  ∧ log (tick three_rows).1
    = ["📨 Found 3 unprocessed messages:";
       "← [text] 555 ← null: hi";
       "← [text] 555 ← null: hi";
       "← [text] 555 ← null: hi";
       "✅ Processed 3 messages"]
  ∧ id <$> (default [] (match (getUnprocessedMessages three_rows).2 with
                        | Success l => Some l
                        | Failure _ => None
                        end)) = ["b"; "c"; "a"]
  ∧ createdAt <$> rows (db (tick three_rows).1)
    = createdAt <$> rows (db three_rows).
Proof. by vm_compute. Qed.

Example sweep_sample :
  (tick sample_world).1
  = World {[ "m1" := set_processed sample_row ]} []
      ["📨 Found 1 unprocessed messages:";
       "← [text] 555 ← null: hi";
       "✅ Processed 1 messages"].
Proof. by vm_compute. Qed.

End logger_facts.
(* ===================================================================== *)
(** * Message repository: insertion, listings and the primary key *)
(* ===================================================================== *)

Section repository_laws.

Import Schedule Repository Invariant.
Import WhatsAppMessage.

Lemma rows_elem (table : gmap string WhatsAppMessage.t) row :
  row ∈ rows table ↔ ∃ k, table !! k = Some row.
Proof.
  unfold rows. rewrite list_elem_of_fmap. split.
  - intros ([k r] & -> & Hin%elem_of_map_to_list). by exists k.
  - intros [k Hk]. exists (k, row). split; [done|]. by apply elem_of_map_to_list.
Qed.

#[local] Instance by_timestamp_total : Total by_timestamp.
Proof.
  intros a b. unfold by_timestamp.
  destruct (String.leb_total (timestamp a) (timestamp b)) as [-> | ->]; auto.
Qed.

Lemma listing_spec (P : WhatsAppMessage.t → Prop) `{!∀ m, Decision (P m)}
    (table : gmap string WhatsAppMessage.t) :
  let l := merge_sort by_timestamp (filter P (rows table)) in
  Sorted by_timestamp l
  ∧ l ≡ₚ filter P (rows table)
  ∧ ∀ row, row ∈ l ↔ (∃ k, table !! k = Some row) ∧ P row.
Proof.
  intros l. split; [apply Sorted_merge_sort, _|].
  split; [apply merge_sort_Permutation|].
  intros row. subst l. rewrite merge_sort_Permutation, list_elem_of_filter.
  rewrite rows_elem. tauto.
Qed.

(** X1. Absent a storage fault, [insertMessage] of a message whose id is
    not in the table stores it under that id and returns the stored row:
    the message's columns with [createdAt] taken from the storage clock.
    When the id is already in the table the call fails with a [SqlError]
    and the table is left as it is. *)
Theorem insertMessage_contract created_at message w :
  next_fault w = None →
  (db w !! id message = None →
   ∃ row,
     insertMessage created_at message w
     = (World (<[id message := row]> (db w)) (tl (faults w)) (log w),
        Success row)
     ∧ createdAt row = created_at
     ∧ id row = id message ∧ from row = from message ∧ to row = to message
     ∧ chat_id row = chat_id message ∧ timestamp row = timestamp message
     ∧ content row = content message ∧ messageType row = messageType message
     ∧ isFromMe row = isFromMe message ∧ isGroup row = isGroup message
     ∧ processed row = processed message)
  ∧ (∀ old, db w !! id message = Some old →
     ∃ e, insertMessage created_at message w
          = (World (db w) (tl (faults w)) (log w), Failure e)).
Proof.
  intros Hok. unfold insertMessage. rewrite statement_healthy by done. split.
  - intros ->. eexists. split; [done|]. by repeat split.
  - intros old ->. by eexists.
Qed.

Lemma insertMessage_contract_witness :
  ∃ row,
    (insertMessage "2023-11-14 22:13:21" (row_at "z" "2023") sample_world).2
    = Success row
    ∧ createdAt row = "2023-11-14 22:13:21".
Proof.
  destruct (proj1 (insertMessage_contract "2023-11-14 22:13:21"
                     (row_at "z" "2023") sample_world eq_refl) eq_refl)
    as (row & H & Hc & _).
  exists row. by rewrite H.
Defined.

(** X2. [getUnprocessedMessages], absent a storage fault, returns exactly
    the rows of the table whose [processed] is false, each once per row of
    the table, in ascending order of [timestamp]; the table is left as it
    is. *)
Theorem getUnprocessedMessages_lists_unprocessed w :
  next_fault w = None →
  ∃ l,
    getUnprocessedMessages w
    = (World (db w) (tl (faults w)) (log w), Success l)
    ∧ Sorted by_timestamp l
    ∧ l ≡ₚ filter (λ m, processed m = false) (rows (db w))
    ∧ ∀ row, row ∈ l ↔ (∃ k, db w !! k = Some row) ∧ processed row = false.
Proof.
  intros Hok. unfold getUnprocessedMessages. rewrite statement_healthy by done.
  eexists. split; [done|].
  exact (listing_spec (λ m, processed m = false) (db w)).
Qed.

Lemma getUnprocessedMessages_lists_unprocessed_witness :
  ∃ l, (getUnprocessedMessages three_rows).2 = Success l ∧ Sorted by_timestamp l.
Proof.
  destruct (getUnprocessedMessages_lists_unprocessed three_rows eq_refl)
    as (l & H & Hs & _).
  exists l. by rewrite H.
Defined.

(** X3. [getMessagesByChat], absent a storage fault, returns exactly the
    rows of the table whose conversation is the one asked for, in ascending
    order of [timestamp]; for a conversation without rows the result is the
    empty list, not an error. *)
Theorem getMessagesByChat_lists_chat chatId w :
  next_fault w = None →
  ∃ l,
    getMessagesByChat chatId w
    = (World (db w) (tl (faults w)) (log w), Success l)
    ∧ Sorted by_timestamp l
    ∧ l ≡ₚ filter (λ m, chat_id m = chatId) (rows (db w))
    ∧ (∀ row, row ∈ l ↔ (∃ k, db w !! k = Some row) ∧ chat_id row = chatId)
    ∧ ((∀ k row, db w !! k = Some row → chat_id row ≠ chatId) → l = []).
Proof.
  intros Hok. unfold getMessagesByChat. rewrite statement_healthy by done.
  eexists. split; [done|].
  destruct (listing_spec (λ m, chat_id m = chatId) (db w)) as (Hs & Hp & Hin).
  split; [done|]. split; [done|]. split; [exact Hin|].
  intros Hnone.
  destruct (merge_sort by_timestamp _) as [|row l] eqn:El; [done|].
  destruct (proj1 (Hin row)) as [[k Hk] Hc]; [apply list_elem_of_here|].
  by destruct (Hnone k row Hk).
Qed.

Lemma getMessagesByChat_lists_chat_witness :
  ∃ l, (getMessagesByChat "nobody" three_rows).2 = Success l ∧ l = [].
Proof.
  destruct (getMessagesByChat_lists_chat "nobody" three_rows eq_refl)
    as (l & H & _ & _ & _ & Hnil).
  exists l. rewrite H. split; [done|]. apply Hnil.
  intros k row Hk. assert (chat_id row = "555@s.whatsapp.net") as ->; [|done].
  unfold three_rows in Hk. simpl in Hk.
  apply lookup_insert_Some in Hk as [[_ <-]|[_ Hk]]; [done|].
  apply lookup_insert_Some in Hk as [[_ <-]|[_ Hk]]; [done|].
  apply lookup_singleton_Some in Hk as [_ <-]. done.
Defined.

End repository_laws.

(* ===================================================================== *)
(** * Table invariants through effects *)
(* ===================================================================== *)

Section effect_laws.

Import Schedule Repository Invariant.
Import WhatsAppMessage.

Context {I : gmap string WhatsAppMessage.t → Prop}.

Lemma preserves_succeed {A} (a : A) : preserves I (succeed a).
Proof. by intros w. Qed.

Lemma preserves_log line : preserves I (log_line line).
Proof. by intros w. Qed.

Lemma preserves_bind {A B} (m : eff A) (f : A → eff B) :
  preserves I m → (∀ a, preserves I (f a)) → preserves I (m ≫= f).
Proof.
  intros Hm Hf w Hw. unfold mbind, eff_bind, bind.
  specialize (Hm w Hw). destruct (m w) as [w1 [a|e]]; simpl in *; [|done].
  by apply Hf.
Qed.

Lemma preserves_catchAll {A} (m : eff A) handler :
  preserves I m → (∀ e, preserves I (handler e)) → preserves I (catchAll m handler).
Proof.
  intros Hm Hh w Hw. unfold catchAll.
  specialize (Hm w Hw). destruct (m w) as [w1 [a|e]]; simpl in *; [done|].
  by apply Hh.
Qed.

Lemma preserves_for_each {A} (xs : list A) (body : A → eff unit) :
  (∀ x, preserves I (body x)) → preserves I (for_each xs body).
Proof.
  intros Hbody. induction xs as [|x xs IH]; simpl.
  - apply preserves_succeed.
  - apply preserves_bind; auto.
Qed.

Lemma preserves_statement {A}
    (run : gmap string WhatsAppMessage.t
           → exit SqlError (gmap string WhatsAppMessage.t * A)) :
  (∀ table table' a, I table → run table = Success (table', a) → I table') →
  preserves I (statement run).
Proof.
  intros Hrun w Hw. unfold statement.
  destruct (faults w) as [|[e|] rest]; simpl; try done.
  all: destruct (run (db w)) as [[table' a]|e] eqn:Hr; simpl; eauto.
Qed.

End effect_laws.

Section carry_laws.

Import Schedule Repository Invariant.
Import WhatsAppMessage.

Context (R : relation WhatsAppMessage.t) `{!PreOrder R}.

Lemma carries_succeed {A} (a : A) : carries R (succeed a).
Proof. intros w k row Hrow. by exists row. Qed.

Lemma carries_log line : carries R (log_line line).
Proof. intros w k row Hrow. by exists row. Qed.

Lemma carries_bind {A B} (m : eff A) (f : A → eff B) :
  carries R m → (∀ a, carries R (f a)) → carries R (m ≫= f).
Proof.
  intros Hm Hf w k row Hrow.
  destruct (Hm w k row Hrow) as (row1 & Hrow1 & H1).
  unfold mbind, eff_bind, bind.
  destruct (m w) as [w1 [a|e]]; simpl in *; [|by exists row1].
  destruct (Hf a w1 k row1 Hrow1) as (row2 & Hrow2 & H2).
  exists row2. split; [done|]. by etrans.
Qed.

Lemma carries_catchAll {A} (m : eff A) handler :
  carries R m → (∀ e, carries R (handler e)) → carries R (catchAll m handler).
Proof.
  intros Hm Hh w k row Hrow.
  destruct (Hm w k row Hrow) as (row1 & Hrow1 & H1).
  unfold catchAll.
  destruct (m w) as [w1 [a|e]]; simpl in *; [by exists row1|].
  destruct (Hh e w1 k row1 Hrow1) as (row2 & Hrow2 & H2).
  exists row2. split; [done|]. by etrans.
Qed.

Lemma carries_for_each {A} (xs : list A) (body : A → eff unit) :
  (∀ x, carries R (body x)) → carries R (for_each xs body).
Proof.
  intros Hbody. induction xs as [|x xs IH]; simpl.
  - apply carries_succeed.
  - apply carries_bind; auto.
Qed.

Lemma carries_statement {A}
    (run : gmap string WhatsAppMessage.t
           → exit SqlError (gmap string WhatsAppMessage.t * A)) :
  (∀ table table' a k row,
     run table = Success (table', a) → table !! k = Some row →
     ∃ row', table' !! k = Some row' ∧ R row row') →
  carries R (statement run).
Proof.
  intros Hrun w k row Hrow. unfold statement.
  destruct (faults w) as [|[e|] rest]; simpl; try by exists row.
  all: destruct (run (db w)) as [[table' a]|e] eqn:Hr; simpl; eauto.
  all: by exists row.
Qed.

End carry_laws.

#[local] Instance only_marked_preorder : PreOrder Invariant.only_marked.
Proof.
  split.
  - intros a. by left.
  - intros a b c [->|[Ha ->]] [->|[Hb ->]]; unfold Invariant.only_marked; auto.
Qed.

Section sweep_laws.

Import Schedule Repository Invariant Logger.
Import WhatsAppMessage.

Lemma keyed_alter table k :
  keyed table → keyed (alter set_processed k table).
Proof.
  intros Hkeyed j row. destruct (decide (j = k)) as [->|Hne].
  - rewrite lookup_alter_eq.
    destruct (table !! k) as [old|] eqn:Hold; [|done].
    intros [= <-]. simpl. by apply Hkeyed.
  - rewrite lookup_alter_ne by done. apply Hkeyed.
Qed.

Lemma keyed_insert table row :
  keyed table → keyed (<[id row := row]> table).
Proof.
  intros Hkeyed j r [[<- <-]|[_ Hr]]%lookup_insert_Some; [done|].
  by apply Hkeyed.
Qed.

Lemma preserves_keyed_mark messageId : preserves keyed (markAsProcessed messageId).
Proof.
  apply preserves_statement. intros table table' a Hk [= <- _].
  by apply keyed_alter.
Qed.

Lemma preserves_keyed_insert created_at message :
  preserves keyed (insertMessage created_at message).
Proof.
  apply preserves_statement. intros table table' a Hk.
  destruct (table !! id message); [done|]. intros [= <- _].
  by apply (keyed_insert table
              {| id := id message; from := from message; to := to message;
                 chat_id := chat_id message; timestamp := timestamp message;
                 content := content message; messageType := messageType message;
                 isFromMe := isFromMe message; isGroup := isGroup message;
                 processed := processed message; createdAt := created_at |}).
Qed.

Lemma preserves_keyed_unprocessed : preserves keyed getUnprocessedMessages.
Proof. apply preserves_statement. by intros table table' a Hk [= <- _]. Qed.

Lemma preserves_keyed_by_chat chatId : preserves keyed (getMessagesByChat chatId).
Proof. apply preserves_statement. by intros table table' a Hk [= <- _]. Qed.

Lemma preserves_keyed_sweep : preserves keyed logUnprocessedMessages.
Proof.
  unfold logUnprocessedMessages.
  apply preserves_bind; [apply preserves_keyed_unprocessed|].
  intros unprocessedMessages.
  destruct (length unprocessedMessages =? 0); [apply preserves_log|].
  apply preserves_bind; [apply preserves_log|]. intros _.
  apply preserves_bind; [|intros _; apply preserves_log].
  apply preserves_for_each. intros message.
  apply preserves_bind; [apply preserves_log|]. intros _.
  apply preserves_bind; [apply preserves_keyed_mark|]. intros _.
  apply preserves_succeed.
Qed.

Lemma preserves_keyed_tick : preserves keyed tick.
Proof.
  apply preserves_catchAll; [apply preserves_keyed_sweep|].
  intros _. apply preserves_log.
Qed.

(** X4. Each operation of the repository, and a whole tick of the
    scheduler, keeps every row under its own id: the primary key of a row
    never changes and no row appears under a key other than its id,
    whatever faults the storage layer raises. *)
Theorem repository_keeps_primary_key w :
  keyed (db w) →
  (∀ created_at message, keyed (db (insertMessage created_at message w).1))
  ∧ (∀ messageId, keyed (db (markAsProcessed messageId w).1))
  ∧ keyed (db (getUnprocessedMessages w).1)
  ∧ (∀ chatId, keyed (db (getMessagesByChat chatId w).1))
  ∧ keyed (db (tick w).1).
Proof.
  intros Hw. split; [intros; by apply preserves_keyed_insert|].
  split; [intros; by apply preserves_keyed_mark|].
  split; [by apply preserves_keyed_unprocessed|].
  split; [intros; by apply preserves_keyed_by_chat|].
  by apply preserves_keyed_tick.
Qed.

Lemma keyed_sample : keyed (db sample_world).
Proof.
  intros k row Hk. unfold sample_world in Hk. simpl in Hk.
  by apply lookup_singleton_Some in Hk as [<- <-].
Defined.

Lemma repository_keeps_primary_key_witness :
  keyed (db (tick sample_world).1).
Proof. apply (repository_keeps_primary_key sample_world keyed_sample). Defined.

(** ** The sweep *)

(** A handler that only logs makes the whole succeed. *)
Lemma catchAll_log_succeeds (m : eff unit) line w :
  (catchAll m (λ _, log_line line) w).2 = Success tt.
Proof. unfold catchAll. by destruct (m w) as [w' [[]|e]]. Qed.

(** X5. A tick of the scheduler never fails, whatever faults the storage
    layer raises: a failure of the sweep is caught and logged. When the
    first statement of the sweep meets a fault, the table is left as it is
    and the log gains exactly the line of the handler. *)
Theorem tick_never_fails w :
  (tick w).2 = Success tt
  ∧ (∀ e, next_fault w = Some e →
          tick w = (World (db w) (tl (faults w)) (log w ++ ["❌ Logging error"]),
                    Success tt)).
Proof.
  split; [apply catchAll_log_succeeds|].
  intros e He. unfold tick, catchAll, logUnprocessedMessages.
  unfold mbind, eff_bind, bind, getUnprocessedMessages.
  by rewrite (statement_faulty w e).
Qed.

Lemma tick_never_fails_witness :
  (tick (World ∅ [Some (SqlFailure "disk I/O error")] [])).1
  = World ∅ [] ["❌ Logging error"].
Proof.
  by rewrite (proj2 (tick_never_fails
                       (World ∅ [Some (SqlFailure "disk I/O error")] []))
                (SqlFailure "disk I/O error") eq_refl).
Defined.

Lemma marked_lookup messages table k :
  marked table messages !! k
  = (if decide (k ∈ id <$> messages) then set_processed <$> table !! k
     else table !! k).
Proof.
  revert table. induction messages as [|m l IH]; intros table.
  - done.
  - unfold marked in *. simpl. rewrite IH.
    destruct (decide (k = id m)) as [->|Hne].
    + rewrite lookup_alter_eq.
      destruct (decide (id m ∈ id m :: _)) as [_|Hout];
        [|by destruct Hout; apply list_elem_of_here].
      case_decide; [|done]. by destruct (table !! id m).
    + rewrite lookup_alter_ne by done.
      destruct (decide (k ∈ id <$> l)) as [Hin|Hout];
        destruct (decide (k ∈ id m :: _)) as [Hin'|Hout']; try done.
      * by destruct Hout'; apply list_elem_of_further.
      * by apply elem_of_cons in Hin' as [?|?].
Qed.

Lemma marking_loop_healthy messages w :
  faults w = [] →
  for_each messages
    (λ message,
       log_line (summary message);; markAsProcessed (id message);; mret tt) w
  = (World (marked (db w) messages) [] (log w ++ (summary <$> messages)),
     Success tt).
Proof.
  revert w. induction messages as [|m l IH]; intros [table fs lg] Hf;
    simpl in Hf; subst fs.
  - simpl. unfold succeed. by rewrite app_nil_r.
  - cbn [for_each fmap list_fmap].
    unfold mbind, eff_bind, bind, log_line, markAsProcessed, statement, mret,
      eff_ret, succeed. simpl.
    fold (@for_each WhatsAppMessage.t).
    specialize (IH (World (alter set_processed (id m) table) []
                      (lg ++ [summary m])) eq_refl).
    unfold mbind, eff_bind, bind, log_line, markAsProcessed, statement, mret,
      eff_ret, succeed in IH. simpl in IH.
    rewrite IH. by rewrite <- app_assoc.
Qed.

Lemma sweep_healthy w :
  faults w = [] →
  logUnprocessedMessages w
  = (World (marked (db w) (unprocessed (db w))) []
       (log w ++ sweep_lines (unprocessed (db w))),
     Success tt).
Proof.
  intros Hf. destruct w as [table fs lg]. simpl in Hf. subst fs.
  cbn [db log]. unfold logUnprocessedMessages.
  unfold mbind at 1. unfold eff_bind, bind.
  unfold getUnprocessedMessages at 1. unfold statement at 1.
  cbn [faults db log tl]. unfold unprocessed, sweep_lines.
  set (l := merge_sort by_timestamp _).
  destruct (length l =? 0) eqn:Hlen.
  - apply Nat.eqb_eq, nil_length_inv in Hlen. by rewrite Hlen.
  - unfold mbind at 1. unfold eff_bind, bind. cbn [log_line db faults log].
    unfold mbind at 1. unfold eff_bind, bind.
    rewrite marking_loop_healthy by done.
    unfold log_line. cbn [db faults log]. by rewrite <- !app_assoc.
Qed.

Lemma tick_healthy w : faults w = [] → tick w = logUnprocessedMessages w.
Proof. intros Hf. unfold tick, catchAll. by rewrite (sweep_healthy w Hf). Qed.

Lemma unprocessed_listing table :
  Sorted by_timestamp (unprocessed table)
  ∧ unprocessed table ≡ₚ filter (λ m, processed m = false) (rows table)
  ∧ ∀ row, row ∈ unprocessed table
           ↔ (∃ k, table !! k = Some row) ∧ processed row = false.
Proof. apply (listing_spec (λ m, processed m = false) table). Qed.

Lemma append_assoc (a b c : string) : (a ++ b) ++ c = a ++ b ++ c.
Proof.
  induction a as [|ch a IH]; [done|].
  change (String ch ((a ++ b) ++ c) = String ch (a ++ b ++ c)). by rewrite IH.
Qed.

Lemma summary_shape message :
  summary message = summary_head message ++ truncatedContent (content message).
Proof. unfold summary, summary_head. by rewrite !append_assoc. Qed.

(** C7. The summary that the sweep logs for a record ends with the
    record's content as it is when the content has at most 50 characters,
    so exactly 50 characters are not truncated, and with the first 50
    characters of the content followed by ["..."] when it is longer; what
    comes before the content does not depend on it. It is this summary
    that a tick logs for each unprocessed row: between the header and the
    footer the log gains the summaries of the unprocessed rows, one per
    row, in ascending order of [timestamp]. *)
Theorem summary_truncates_content message :
  (String.length (content message) ≤ 50 →
   summary message = summary_head message ++ content message)
  ∧ (50 < String.length (content message) →
     summary message
     = summary_head message ++ String.substring 0 50 (content message) ++ "..."
     ∧ String.length (String.substring 0 50 (content message)) = 50
     ∧ String.prefix (String.substring 0 50 (content message))
         (content message) = true)
  ∧ (∀ w, faults w = [] →
       (∃ l, Sorted by_timestamp l
             ∧ l ≡ₚ filter (λ m, processed m = false) (rows (db w))
             ∧ log (tick w).1 = (log w ++ sweep_lines l)%list)
       ∧ ((∃ k, db w !! k = Some message) → processed message = false →
          summary message ∈ log (tick w).1)).
Proof.
  destruct (truncatedContent_boundary (content message)) as (Hshort & _ & Hlong).
  split; [|split].
  - intros Hle. by rewrite summary_shape, Hshort.
  - intros Hlt. destruct (Hlong Hlt) as (Htr & Hlen & Hpre).
    split; [by rewrite summary_shape, Htr|]. by split.
  - intros w Hf. rewrite (tick_healthy w Hf), (sweep_healthy w Hf).
    cbn [fst log].
    destruct (unprocessed_listing (db w)) as (Hsorted & Hperm & Hin).
    split; [by exists (unprocessed (db w))|].
    intros Hrow Hp. apply elem_of_app. right. unfold sweep_lines.
    assert (message ∈ unprocessed (db w)) as Hl by by apply Hin.
    destruct (length (unprocessed (db w)) =? 0) eqn:Hlen.
    { apply Nat.eqb_eq, nil_length_inv in Hlen. rewrite Hlen in Hl.
      by apply elem_of_nil in Hl. }
    apply list_elem_of_further, elem_of_app. left.
    apply list_elem_of_fmap. by exists message.
Qed.

Lemma summary_truncates_content_witness :
  String.length (content long_row) = 51
  ∧ summary long_row = "← [text] 555 ← null: " ++ fifty ++ "..."
  ∧ "← [text] 555 ← null: " ++ fifty ++ "..." ∈ log (tick long_world).1.
Proof.
  destruct (summary_truncates_content long_row) as (_ & Hlong & Htick).
  destruct Hlong as (Hsum & _); [by vm_compute|].
  assert (summary long_row = "← [text] 555 ← null: " ++ fifty ++ "...")
    as Heq by (rewrite Hsum; reflexivity).
  split; [reflexivity|]. split; [exact Heq|]. rewrite <- Heq.
  apply (Htick long_world eq_refl); [|reflexivity].
  exists "m9". apply lookup_singleton_eq.
Defined.

Lemma marked_unprocessed table :
  keyed table →
  (∀ k row, table !! k = Some row →
            marked table (unprocessed table) !! k = Some (set_processed row))
  ∧ (∀ k, table !! k = None → marked table (unprocessed table) !! k = None)
  ∧ unprocessed (marked table (unprocessed table)) = [].
Proof.
  intros Hkeyed.
  destruct (listing_spec (λ m, processed m = false) table) as (_ & _ & Hin).
  fold (unprocessed table) in Hin.
  assert (∀ k row, table !! k = Some row →
                   marked table (unprocessed table) !! k
                   = Some (set_processed row)) as Hall.
  { intros k row Hrow. rewrite marked_lookup, Hrow.
    case_decide as Hk; [done|]. simpl. f_equal.
    destruct (processed row) eqn:Hp; [by destruct row; simpl in *; subst|].
    destruct Hk. apply list_elem_of_fmap. exists row.
    split; [by rewrite (Hkeyed k row Hrow)|]. apply Hin. eauto. }
  split; [exact Hall|]. split.
  { intros k Hnone. rewrite marked_lookup, Hnone. by case_decide. }
  destruct (listing_spec (λ m, processed m = false)
              (marked table (unprocessed table))) as (_ & _ & Hin').
  fold (unprocessed (marked table (unprocessed table))) in Hin'.
  destruct (unprocessed (marked table (unprocessed table))) as [|row rest];
    [done|].
  destruct (proj1 (Hin' row)) as [[k Hk] Hp]; [apply list_elem_of_here|].
  destruct (table !! k) as [old|] eqn:Hold.
  - rewrite (Hall k old Hold) in Hk. by injection Hk as <-.
  - rewrite marked_lookup, Hold in Hk. by case_decide.
Qed.

(** X6. One tick of the scheduler on a table met without storage faults
    leaves no row unprocessed: every row of the table is still there with
    [processed] true, and [getUnprocessedMessages] then returns the empty
    list. The log gains one line when there was nothing to do, and
    otherwise a header, one summary per unprocessed message in ascending
    order of [timestamp], and a footer; the order among messages of equal
    [timestamp] is left open. *)
Theorem tick_marks_every_row w :
  keyed (db w) →
  faults w = [] →
  (∀ k row, db w !! k = Some row →
            db (tick w).1 !! k = Some (set_processed row))
  ∧ (∀ k, db w !! k = None → db (tick w).1 !! k = None)
  ∧ (getUnprocessedMessages (tick w).1).2 = Success []
  ∧ ∃ l, Sorted by_timestamp l
         ∧ l ≡ₚ filter (λ m, processed m = false) (rows (db w))
         ∧ log (tick w).1 = (log w ++ sweep_lines l)%list.
Proof.
  intros Hkeyed Hf. rewrite (tick_healthy w Hf), (sweep_healthy w Hf).
  cbn [fst snd db log].
  destruct (marked_unprocessed (db w) Hkeyed) as (Hall & Hnone & Hnil).
  split; [exact Hall|]. split; [exact Hnone|]. split.
  - unfold getUnprocessedMessages, statement. cbn [faults db log tl snd].
    exact (f_equal Success Hnil).
  - destruct (unprocessed_listing (db w)) as (Hsorted & Hperm & _).
    by exists (unprocessed (db w)).
Qed.

Lemma keyed_three_rows : keyed (db three_rows).
Proof.
  intros k row Hk. unfold three_rows in Hk. simpl in Hk.
  apply lookup_insert_Some in Hk as [[<- <-]|[_ Hk]]; [done|].
  apply lookup_insert_Some in Hk as [[<- <-]|[_ Hk]]; [done|].
  by apply lookup_singleton_Some in Hk as [<- <-].
Defined.

Lemma tick_marks_every_row_witness :
  db (tick three_rows).1 !! "b"
  = Some (set_processed (row_at "b" "2023-11-14T22:13:20.000Z"))
  ∧ ∃ l, l ≡ₚ filter (λ m, processed m = false) (rows (db three_rows))
         ∧ log (tick three_rows).1 = (log three_rows ++ sweep_lines l)%list.
Proof.
  destruct (tick_marks_every_row three_rows keyed_three_rows eq_refl)
    as (Hall & _ & _ & l & _ & Hperm & Hlog).
  split; [apply Hall; by vm_compute|]. by exists l.
Defined.

(** X7. A second tick right after a tick that met no storage fault finds
    nothing to do: it leaves the table as it is and logs the single line
    of the empty sweep. *)
Theorem second_tick_is_idle w :
  keyed (db w) →
  faults w = [] →
  tick (tick w).1
  = (World (db (tick w).1) [] (log (tick w).1 ++ ["📋 No unprocessed messages"]),
     Success tt).
Proof.
  intros Hkeyed Hf.
  destruct (marked_unprocessed (db w) Hkeyed) as (_ & _ & Hnil).
  rewrite (tick_healthy w Hf), (sweep_healthy w Hf).
  cbn [fst]. rewrite tick_healthy by done. rewrite sweep_healthy by done.
  cbn [db log]. by rewrite Hnil.
Qed.

Lemma second_tick_is_idle_witness :
  log (tick (tick three_rows).1).1
  = (log (tick three_rows).1 ++ ["📋 No unprocessed messages"])%list.
Proof.
  by rewrite (second_tick_is_idle three_rows keyed_three_rows eq_refl).
Defined.

End sweep_laws.

Section lifecycle_laws.

Import Schedule Repository Invariant Logger MessageStream.
Import WhatsAppMessage.

Lemma carries_only_marked_mark messageId :
  carries only_marked (markAsProcessed messageId).
Proof.
  apply carries_statement; [apply _|].
  intros table table' a k row [= <- _] Hrow.
  destruct (decide (k = messageId)) as [->|Hne].
  - rewrite lookup_alter_eq, Hrow. eexists. split; [done|].
    destruct (processed row) eqn:Hp; [left|by right].
    destruct row; simpl in *; by subst.
  - rewrite lookup_alter_ne by done. exists row. split; [done|by left].
Qed.

Lemma carries_only_marked_tick : carries only_marked tick.
Proof.
  apply carries_catchAll; [apply _| |intros _; apply carries_log; apply _].
  unfold logUnprocessedMessages.
  apply carries_bind; [apply _| |].
  { apply carries_statement; [apply _|].
    intros table table' a k row [= <- _] Hrow. exists row. by split; [|left]. }
  intros unprocessedMessages.
  destruct (length unprocessedMessages =? 0); [apply carries_log; apply _|].
  apply carries_bind; [apply _|apply carries_log; apply _|]. intros _.
  apply carries_bind; [apply _| |intros _; apply carries_log; apply _].
  apply carries_for_each; [apply _|]. intros message.
  apply carries_bind; [apply _|apply carries_log; apply _|]. intros _.
  apply carries_bind; [apply _|apply carries_only_marked_mark|]. intros _.
  apply carries_succeed; apply _.
Qed.

Lemma preserves_absent_tick k : preserves (λ table, table !! k = None) tick.
Proof.
  apply preserves_catchAll; [|intros _; apply preserves_log].
  unfold logUnprocessedMessages.
  apply preserves_bind.
  { apply preserves_statement. by intros table table' a Hk [= <- _]. }
  intros unprocessedMessages.
  destruct (length unprocessedMessages =? 0); [apply preserves_log|].
  apply preserves_bind; [apply preserves_log|]. intros _.
  apply preserves_bind; [|intros _; apply preserves_log].
  apply preserves_for_each. intros message.
  apply preserves_bind; [apply preserves_log|]. intros _.
  apply preserves_bind; [|intros _; apply preserves_succeed].
  apply preserves_statement. intros table table' a Hk [= <- _].
  destruct (decide (k = id message)) as [->|Hne].
  - by rewrite lookup_alter_eq, Hk.
  - by rewrite lookup_alter_ne.
Qed.

Lemma marking_loop_faulty messages k e rest w :
  faults w = (replicate k None ++ Some e :: rest)%list →
  k < length messages →
  for_each messages
    (λ message,
       log_line (summary message);; markAsProcessed (id message);; mret tt) w
  = (World (marked (db w) (take k messages)) rest
       (Repository.log w ++ (summary <$> take (S k) messages)),
     Failure e).
Proof.
  revert k w. induction messages as [|m l IH]; intros k [table fs lg] Hf Hk;
    simpl in Hf, Hk; [lia|]. subst fs.
  destruct k as [|k].
  - cbn [for_each]. unfold mbind, eff_bind, bind, log_line, markAsProcessed,
      statement. by simpl.
  - cbn [for_each replicate app fmap list_fmap take].
    unfold mbind, eff_bind, bind, log_line, markAsProcessed, statement, mret,
      eff_ret, succeed. simpl.
    fold (@for_each WhatsAppMessage.t).
    specialize (IH k (World (alter set_processed (id m) table)
                        (replicate k None ++ Some e :: rest)
                        (lg ++ [summary m])) eq_refl ltac:(lia)).
    unfold mbind, eff_bind, bind, log_line, markAsProcessed, statement, mret,
      eff_ret, succeed in IH. simpl in IH.
    rewrite IH. by rewrite <- app_assoc.
Qed.

Lemma tick_faulty k e rest w :
  faults w = (replicate (S k) None ++ Some e :: rest)%list →
  k < length (unprocessed (db w)) →
  tick w
  = (World (marked (db w) (take k (unprocessed (db w)))) rest
       (Repository.log w
          ++ ("📨 Found " ++ pretty (length (unprocessed (db w)))
                ++ " unprocessed messages:")
          :: (summary <$> take (S k) (unprocessed (db w)))
          ++ ["❌ Logging error"]),
     Success tt).
Proof.
  intros Hf Hk. destruct w as [table fs lg]. simpl in Hf. subst fs.
  cbn [db Repository.log] in *. unfold tick, catchAll, logUnprocessedMessages.
  unfold mbind at 1. unfold eff_bind, bind.
  unfold getUnprocessedMessages at 1. unfold statement at 1.
  cbn [faults db Repository.log tl replicate app]. unfold unprocessed in *.
  set (l := merge_sort by_timestamp _) in *.
  destruct (length l =? 0) eqn:Hlen.
  { apply Nat.eqb_eq in Hlen. lia. }
  unfold mbind at 1. unfold eff_bind, bind. cbn [log_line db faults Repository.log].
  unfold mbind at 1. unfold eff_bind, bind.
  rewrite (marking_loop_faulty l k e rest) by done.
  unfold log_line. cbn [db faults Repository.log]. by rewrite <- !app_assoc.
Qed.

Lemma keyed_ids_NoDup table : keyed table → NoDup (id <$> rows table).
Proof.
  intros Hkeyed. unfold rows. rewrite <- list_fmap_compose.
  rewrite (list_fmap_ext (id ∘ snd) fst (map_to_list table)).
  - apply NoDup_fst_map_to_list.
  - intros i [k row] Hi. simpl. apply (Hkeyed k row).
    apply elem_of_map_to_list. by eapply list_elem_of_lookup_2.
Qed.

(** X8. Whatever faults the storage layer raises, a tick of the scheduler
    neither deletes nor adds a row, and changes a row at most by taking
    [processed] from false to true: a processed row is never taken back to
    unprocessed. A sweep that fails midway keeps what it did: when the
    listing and the first [k] updates go through and the next update
    fails, the tick still succeeds, the first [k] messages of the listing
    are processed, the others are as they were, and the Repository.log ends with the
    summaries of the first [k+1] messages and the line of the failure. *)
Theorem tick_only_marks w :
  (∀ k row,
     db w !! k = Some row →
     ∃ row', db (tick w).1 !! k = Some row'
             ∧ (row' = row ∨ (processed row = false ∧ row' = set_processed row))
             ∧ (processed row = true → processed row' = true))
  ∧ (∀ k, db w !! k = None → db (tick w).1 !! k = None)
  ∧ (∀ k e rest,
       keyed (db w) →
       faults w = (replicate (S k) None ++ Some e :: rest)%list →
       k < length (filter (λ m, processed m = false) (rows (db w))) →
       ∃ l, Sorted by_timestamp l
            ∧ l ≡ₚ filter (λ m, processed m = false) (rows (db w))
            ∧ (tick w).2 = Success tt
            ∧ faults (tick w).1 = rest
            ∧ (∀ message, message ∈ take k l →
                 db (tick w).1 !! id message = Some (set_processed message))
            ∧ (∀ message, message ∈ drop k l →
                 db (tick w).1 !! id message = Some message)
            ∧ Repository.log (tick w).1
              = (Repository.log w
                   ++ ("📨 Found " ++ pretty (length l)
                         ++ " unprocessed messages:")%string
                   :: (summary <$> take (S k) l) ++ ["❌ Logging error"])%list).
Proof.
  split; [|split].
  - intros k row Hrow.
    destruct (carries_only_marked_tick w k row Hrow) as (row' & Hrow' & Hm).
    exists row'. split; [done|]. split; [exact Hm|].
    by destruct Hm as [->|[_ ->]].
  - intros k. apply (preserves_absent_tick k).
  - intros k e rest Hkeyed Hf Hk.
    destruct (unprocessed_listing (db w)) as (Hsorted & Hperm & Hin).
    set (l := unprocessed (db w)) in *.
    assert (k < length l) as Hkl by by rewrite Hperm.
    rewrite (tick_faulty k e rest w Hf Hkl). fold l. cbn [fst snd db faults Repository.log].
    exists l. split; [done|]. split; [done|]. split; [done|]. split; [done|].
    assert (∀ message, message ∈ l → db w !! id message = Some message) as Hrow.
    { intros message [[key Hkey] _]%Hin. by rewrite (Hkeyed _ _ Hkey). }
    assert (NoDup (id <$> l)) as Hnd.
    { rewrite Hperm.
      apply (sublist_NoDup _ (id <$> rows (db w)));
        [by apply keyed_ids_NoDup|apply fmap_sublist, sublist_filter]. }
    rewrite <- (take_drop k l), fmap_app in Hnd.
    apply NoDup_app in Hnd as (_ & Hdisjoint & _).
    split; [|split; [|done]].
    + intros message Hm. rewrite marked_lookup.
      rewrite decide_True by (apply list_elem_of_fmap; by exists message).
      rewrite Hrow; [done|].
      rewrite <- (take_drop k l). apply elem_of_app. by left.
    + intros message Hm. rewrite marked_lookup.
      rewrite decide_False.
      * apply Hrow. rewrite <- (take_drop k l). apply elem_of_app. by right.
      * intros Hid. apply (Hdisjoint _ Hid).
        apply list_elem_of_fmap. by exists message.
Qed.

Lemma tick_only_marks_witness :
  ∃ l,
    l ≡ₚ filter (λ m, processed m = false) (rows (db failing_sweep))
    ∧ (tick failing_sweep).2 = Success tt
    ∧ (∀ message, message ∈ take 1 l →
         db (tick failing_sweep).1 !! id message
         = Some (set_processed message))
    ∧ (∀ message, message ∈ drop 1 l →
         db (tick failing_sweep).1 !! id message = Some message).
Proof.
  destruct (proj2 (proj2 (tick_only_marks failing_sweep))
              1 (SqlFailure "disk I/O error") [])
    as (l & _ & Hperm & Hok & _ & Hmarked & Hkept & _).
  - apply keyed_three_rows.
  - reflexivity.
  - vm_compute. lia.
  - by exists l.
Defined.

(** ** Insert, list, mark *)

(** X9. A message inserted unprocessed into a table that did not hold its
    id is listed by [getUnprocessedMessages]; once [markAsProcessed] has
    been called on its id it is listed no more, and the listing is back to
    the rows that were unprocessed before the insertion (no storage faults
    throughout). *)
Theorem insert_list_mark created_at message w :
  faults w = [] →
  db w !! id message = None →
  processed message = false →
  let w1 := (insertMessage created_at message w).1 in
  let w2 := (markAsProcessed (id message) w1).1 in
  ∃ row l0 l1 l2,
    (getUnprocessedMessages w).2 = Success l0
    ∧ (getUnprocessedMessages w1).2 = Success l1
    ∧ (getUnprocessedMessages w2).2 = Success l2
    ∧ db w1 !! id message = Some row
    ∧ row ∈ l1
    ∧ (∀ r, r ∈ l1 ↔ r = row ∨ r ∈ l0)
    ∧ db w2 !! id message = Some (set_processed row)
    ∧ (∀ r, r ∈ l2 ↔ r ∈ l0).
Proof.
  intros Hf Hfresh Hp w1 w2.
  destruct w as [table fs lg]. simpl in Hf, Hfresh. subst fs.
  subst w1 w2. unfold insertMessage, markAsProcessed, getUnprocessedMessages,
    statement. cbn [faults db log tl fst snd]. rewrite Hfresh.
  cbn [faults db log tl fst snd].
  set (row := {| id := id message; createdAt := created_at |}).
  exists row. eexists _, _, _. split; [done|]. split; [done|]. split; [done|].
  destruct (listing_spec (λ m, processed m = false) table) as (_ & _ & H0).
  destruct (listing_spec (λ m, processed m = false) (<[id message := row]> table))
    as (_ & _ & H1).
  destruct (listing_spec (λ m, processed m = false)
              (alter set_processed (id message) (<[id message := row]> table)))
    as (_ & _ & H2).
  cbn zeta in H0, H1, H2.
  split; [by rewrite lookup_insert_eq|].
  split; [apply H1; split; [exists (id message); by rewrite lookup_insert_eq|done]|].
  split.
  { intros r. rewrite H1, H0. split.
    - intros [[k [[_ <-]|[Hne Hk]]%lookup_insert_Some] Hr]; [by left|].
      right. eauto.
    - intros [->|[[k Hk] Hr]].
      + split; [exists (id message); by rewrite lookup_insert_eq|done].
      + split; [|done]. exists k. rewrite lookup_insert_ne; [done|].
        intros <-. congruence. }
  split; [by rewrite lookup_alter_eq, lookup_insert_eq|].
  intros r. rewrite H2, H0. split.
  - intros [[k Hk] Hr]. destruct (decide (k = id message)) as [->|Hne].
    + rewrite lookup_alter_eq, lookup_insert_eq in Hk.
      injection Hk as <-. done.
    + rewrite lookup_alter_ne, lookup_insert_ne in Hk by done. eauto.
  - intros [[k Hk] Hr]. split; [|done]. exists k.
    rewrite lookup_alter_ne, lookup_insert_ne; [done| |]; intros <-; congruence.
Qed.

Lemma insert_list_mark_witness :
  ∃ l2, (getUnprocessedMessages
           (markAsProcessed "z"
              (insertMessage "2023-11-14 22:13:21" (row_at "z" "2023")
                 sample_world).1).1).2 = Success l2
        ∧ ∀ r, r ∈ l2 ↔ r ∈ [sample_row].
Proof.
  destruct (insert_list_mark "2023-11-14 22:13:21" (row_at "z" "2023")
              sample_world eq_refl eq_refl eq_refl)
    as (row & l0 & l1 & l2 & H0 & _ & H2 & _ & _ & _ & _ & Hiff).
  exists l2. split; [exact H2|].
  intros r. rewrite Hiff. vm_compute in H0. by injection H0 as <-.
Defined.

(** ** The pipeline's writes *)

Lemma for_each_succeeds {A} (xs : list A) (body : A → eff unit) w :
  (∀ x w', (body x w').2 = Success tt) → (for_each xs body w).2 = Success tt.
Proof.
  intros Hbody. revert w. induction xs as [|x xs IH]; intros w; [done|].
  simpl. unfold mbind, eff_bind, bind.
  specialize (Hbody x w). destruct (body x w) as [w1 [[]|e]]; [|done].
  apply IH.
Qed.

Lemma carries_eq_insert created_at message :
  carries eq (insertMessage created_at message).
Proof.
  apply carries_statement; [apply _|].
  intros table table' a k row Hrun Hrow.
  destruct (table !! id message) as [old|] eqn:Hold; [done|].
  injection Hrun as <- _. exists row. split; [|done].
  rewrite lookup_insert_ne; [done|]. intros <-. congruence.
Qed.

Lemma carries_eq_store created_at message :
  carries eq (store_message created_at message).
Proof.
  apply carries_catchAll; [apply _| |intros _; apply carries_log; apply _].
  apply carries_bind; [apply _|apply carries_log; apply _|]. intros _.
  apply carries_bind; [apply _|apply carries_eq_insert|]. intros _.
  apply carries_log; apply _.
Qed.

Lemma store_message_healthy created_at message w :
  faults w = [] →
  faults (store_message created_at message w).1 = []
  ∧ is_Some (db (store_message created_at message w).1 !! id message).
Proof.
  intros Hf. destruct w as [table fs lg]. simpl in Hf. subst fs.
  unfold store_message, catchAll, mbind, eff_bind, bind, log_line,
    insertMessage, statement. cbn [faults db log tl fst snd].
  destruct (table !! id message) as [old|] eqn:Hold; cbn [faults db log fst].
  - by rewrite Hold.
  - by rewrite lookup_insert_eq.
Qed.

Lemma store_loop_healthy created_at (stream : list WhatsAppMessage.t) w :
  faults w = [] →
  faults (for_each stream (store_message created_at) w).1 = []
  ∧ ∀ message, message ∈ stream →
      is_Some (db (for_each stream (store_message created_at) w).1
               !! id message).
Proof.
  revert w. induction stream as [|m stream IH]; intros w Hf.
  { split; [done|]. intros message Hin. by apply elem_of_nil in Hin. }
  destruct (store_message_healthy created_at m w Hf) as [Hf1 [row Hrow]].
  cbn [for_each]. unfold mbind, eff_bind, bind.
  pose proof (catchAll_log_succeeds
                (log_line ("üì® Processing message: " ++ id m ++ " from "
                             ++ JS.show (from m));;
                 insertMessage created_at m;;
                 log_line ("üíæ Message stored: "
                             ++ String.substring 0 50 (content m) ++ "..."))
                ("‚ùå Failed to process message " ++ id m) w) as Hs.
  change (catchAll _ _ w) with (store_message created_at m w) in Hs.
  destruct (store_message created_at m w) as [w1 [[]|e]] eqn:Hw1; [|done].
  cbn [fst] in Hf1, Hrow. destruct (IH w1 Hf1) as [IHf IHm].
  split; [done|]. intros message Hin.
  apply elem_of_cons in Hin as [->|Hin]; [|by apply IHm].
  destruct (carries_for_each eq stream (store_message created_at)
              (carries_eq_store created_at) w1 (id m) row Hrow)
    as (row' & H & <-).
  by exists row.
Qed.



End lifecycle_laws.

(* ===================================================================== *)
(** * Event normalizer: what a record owes to its event *)
(* ===================================================================== *)

Section normalizer_laws.

Import Proto JS MessageStream StreamLaws.
#[local] Open Scope Z_scope.

Lemma toISOString_range t :
  (∃ text, JSDate.toISOString t = inl text) ↔ - JSDate.max_time ≤ t ≤ JSDate.max_time.
Proof.
  unfold JSDate.toISOString.
  destruct (Z.leb_spec (- JSDate.max_time) t), (Z.leb_spec t JSDate.max_time);
    cbn [andb].
  - destruct (JSDate.civil_from_days (t / 86400000)) as [[y m] d].
    split; [lia|eauto].
  - split; [by intros [? ?]|lia].
  - split; [by intros [? ?]|lia].
  - split; [by intros [? ?]|lia].
Qed.

Lemma toISOString_error t e :
  JSDate.toISOString t = inr e → e = JSDate.range_error.
Proof.
  unfold JSDate.toISOString.
  destruct (_ && _); [|congruence].
  by destruct (JSDate.civil_from_days (t / 86400000)) as [[y m] d].
Qed.

Lemma timestamp_of_time_value now message :
  timestamp_of now (messageTimestamp message)
  = JSDate.toISOString (time_value now message).
Proof.
  unfold timestamp_of, time_value.
  destruct (messageTimestamp message) as [seconds|]; [|done].
  by destruct (seconds =? 0).
Qed.

Lemma extract_cases now message myNumber :
  let guard :=
    match Proto.key message with
    | Some key => truthy (remoteJid key)
    | None => false
    end in
  let valid :=
    - JSDate.max_time ≤ time_value now message ≤ JSDate.max_time in
  (guard = false → extractMessageDataEffect now message myNumber = (None, []))
  ∧ (guard = true → ¬ valid →
     extractMessageDataEffect now message myNumber
     = (None, ["Error extracting message data: " ++ JSDate.range_error]%string))
  ∧ (guard = true → valid →
     ∃ record, extractMessageDataEffect now message myNumber = (Some record, [])).
Proof.
  intros guard valid. subst guard valid. unfold extractMessageDataEffect.
  rewrite timestamp_of_time_value.
  destruct (Proto.key message) as [key|]; [|by repeat split].
  destruct (truthy (remoteJid key)); simpl; [|by repeat split].
  pose proof (toISOString_range (time_value now message)) as Hrange.
  destruct (JSDate.toISOString (time_value now message)) as [text|e] eqn:Hiso.
  - split; [done|]. split.
    + intros _ Hinvalid. destruct Hinvalid. apply Hrange. eauto.
    + intros _ _.
      destruct (default false (fromMe key)),
        (includes (default "" (remoteJid key)) "@g.us"),
        (content_and_type (Proto.message message)); eauto.
  - split; [done|]. split.
    + intros _ _. by rewrite (toISOString_error _ _ Hiso).
    + intros _ Hvalid. apply Hrange in Hvalid as [text Htext]. congruence.
Qed.


(** X11. [extractMessageDataEffect] never throws and answers [null] in
    exactly three cases: the event has no key, its key has no conversation
    identifier, or the time value to print is not a valid date. Only in the
    last case is anything logged, and then exactly one line; a record is
    never accompanied by a logged line. *)
Theorem extract_null_cases now message myNumber :
  let guard :=
    match Proto.key message with
    | Some key => truthy (remoteJid key)
    | None => false
    end in
  let valid :=
    - JSDate.max_time ≤ time_value now message ≤ JSDate.max_time in
  (guard = false → extractMessageDataEffect now message myNumber = (None, []))
  ∧ (guard = true → ¬ valid →
     extractMessageDataEffect now message myNumber
     = (None, ["Error extracting message data: " ++ JSDate.range_error]%string))
  ∧ (guard = true → valid →
     ∃ record, extractMessageDataEffect now message myNumber = (Some record, [])).
Proof. exact (extract_cases now message myNumber). Qed.

Lemma extract_null_cases_witness :
  extractMessageDataEffect 0 far_future None
  = (None, ["Error extracting message data: Invalid Date"]%string)
  ∧ ∃ record, extractMessageDataEffect 0 group_message None = (Some record, []).
Proof.
  split.
  - apply (extract_null_cases 0 far_future None); [reflexivity|].
    vm_compute. intros [_ H]. by apply H.
  - apply (extract_null_cases 0 group_message None); [reflexivity|].
    vm_compute. split; by intros [=].
Defined.

Lemma or_else_nonempty s fallback : fallback ≠ "" → or_else s fallback ≠ "".
Proof.
  intros Hf. unfold or_else, truthy. destruct s as [s|]; [|done].
  simpl. destruct (String.eqb_spec s ""); simpl; done.
Qed.

Lemma truthy_nonempty s : truthy s = true → default "" s ≠ "".
Proof.
  unfold truthy. destruct s as [s|]; [|done]. simpl.
  by destruct (String.eqb_spec s "").
Qed.

Lemma content_and_type_sound messageInfo :
  (content_and_type messageInfo).1 ≠ ""
  ∧ (content_and_type messageInfo).2 ∈ message_types.
Proof.
  unfold content_and_type, message_types.
  destruct messageInfo as [info|]; [|split; [done|set_solver]].
  destruct (truthy (conversation info)) eqn:Hc;
    [split; [by apply truthy_nonempty|set_solver]|].
  destruct (truthy (mjoin (extendedTextMessage info))) eqn:He;
    [split; [by apply truthy_nonempty|set_solver]|].
  destruct (imageMessage info) as [caption|];
    [split; [by apply or_else_nonempty|set_solver]|].
  destruct (videoMessage info) as [caption|];
    [split; [by apply or_else_nonempty|set_solver]|].
  destruct (audioMessage info); [split; [done|set_solver]|].
  destruct (stickerMessage info); [split; [done|set_solver]|].
  destruct (documentMessage info); split; try done; set_solver.
Qed.

Lemma extract_content now message myNumber record lines :
  extractMessageDataEffect now message myNumber = (Some record, lines) →
  InsertMessage.content record = (content_and_type (Proto.message message)).1
  ∧ InsertMessage.messageType record = (content_and_type (Proto.message message)).2
  ∧ InsertMessage.processed record = false
  ∧ timestamp_of now (messageTimestamp message)
    = inl (InsertMessage.timestamp record).
Proof.
  unfold extractMessageDataEffect.
  destruct (Proto.key message) as [key|]; [|done].
  destruct (truthy (remoteJid key)); simpl; [|done].
  destruct (timestamp_of now (messageTimestamp message)); [|done].
  destruct (content_and_type (Proto.message message)) as [content messageType].
  destruct (default false (fromMe key)),
    (includes (default "" (remoteJid key)) "@g.us");
    by intros [= <- <-].
Qed.

(** X12. Every record that [extractMessageDataEffect] makes has a content
    that is not empty and a type among [text], [image], [video], [audio],
    [sticker], [document] and [other]; the initial type ['unknown'] never
    reaches a record. The record is unprocessed, and its timestamp is the
    ISO text of the event's own time, or of the clock when the event
    carries none. *)
Theorem record_content_and_type now message myNumber record lines :
  extractMessageDataEffect now message myNumber = (Some record, lines) →
  InsertMessage.content record ≠ ""
  ∧ InsertMessage.messageType record ∈ message_types
  ∧ InsertMessage.messageType record ≠ "unknown"
  ∧ InsertMessage.processed record = false
  ∧ JSDate.toISOString (time_value now message)
    = inl (InsertMessage.timestamp record).
Proof.
  intros Hrec. destruct (extract_content _ _ _ _ _ Hrec) as (Hc & Ht & Hp & Hts).
  destruct (content_and_type_sound (Proto.message message)) as [Hne Hin].
  rewrite <- Hc in Hne. rewrite <- Ht in Hin.
  split; [done|]. split; [done|]. split.
  { intros Hu. rewrite Hu in Hin. unfold message_types in Hin.
    rewrite !elem_of_cons, elem_of_nil in Hin. intuition discriminate. }
  split; [done|]. by rewrite <- timestamp_of_time_value.
Qed.

Lemma record_content_and_type_witness :
  ∃ record,
    (extractMessageDataEffect 0 group_message None).1 = Some record
    ∧ InsertMessage.content record ≠ ""
    ∧ InsertMessage.timestamp record = "2023-11-14T22:13:20.000Z".
Proof.
  destruct (extractMessageDataEffect 0 group_message None)
    as [[record|] lines] eqn:Hrec; [|by vm_compute in Hrec].
  exists record. split; [done|].
  destruct (record_content_and_type 0 group_message None record lines Hrec)
    as (Hc & _ & _ & _ & Hts).
  split; [exact Hc|].
  change (JSDate.toISOString (time_value 0 group_message))
    with (@inl string string "2023-11-14T22:13:20.000Z") in Hts.
  by injection Hts as <-.
Defined.

(** ** [extractNumber] *)

Lemma before_no_occurrence c s : ¬ occurs c (before c s).
Proof.
  unfold occurs. induction s as [|d s IH]; simpl; [tauto|].
  destruct (Ascii.eqb_spec d c); simpl; [tauto|].
  intros [?|?]; [done|tauto].
Qed.

Lemma before_keeps_absent c c' s : ¬ occurs c s → ¬ occurs c (before c' s).
Proof.
  unfold occurs. induction s as [|d s IH]; simpl; [tauto|].
  destruct (Ascii.eqb_spec d c'); simpl; tauto.
Qed.

Lemma before_prefix c s : String.prefix (before c s) s = true.
Proof.
  induction s as [|d s IH]; simpl; [done|].
  destruct (Ascii.eqb_spec d c); simpl; [done|].
  by destruct (Ascii.ascii_dec d d).
Qed.

Lemma before_absent c s : ¬ occurs c s → before c s = s.
Proof.
  unfold occurs. induction s as [|d s IH]; simpl; [done|].
  intros Hno. destruct (Ascii.eqb_spec d c) as [->|Hne]; [tauto|].
  rewrite IH; tauto.
Qed.

Lemma prefix_trans a b c :
  String.prefix a b = true → String.prefix b c = true → String.prefix a c = true.
Proof.
  revert b c. induction a as [|x a IH]; intros [|y b] [|z c]; simpl; try done.
  destruct (Ascii.ascii_dec x y) as [->|]; [|done].
  destruct (Ascii.ascii_dec y z) as [->|]; [|done].
  apply IH.
Qed.

Lemma extractNumber_Some fullId number :
  extractNumber fullId = Some number →
  ∃ s, fullId = Some s ∧ s ≠ ""
       ∧ number = before ":" (before "@" s) ∧ number ≠ "".
Proof.
  unfold extractNumber, truthy. destruct fullId as [s|]; [|done]. simpl.
  destruct (String.eqb_spec s "") as [|Hs]; simpl; [done|].
  destruct (String.eqb_spec (before ":" (before "@" s)) "") as [|Hn]; [done|].
  intros [= <-]. eauto.
Qed.

(** X13. A number that [extractNumber] returns is never empty, contains
    neither ['@'] nor [':'], and is a prefix of the identifier it was taken
    from. Applying [extractNumber] to its own result changes nothing, and
    an identifier that is not empty and contains neither character is
    returned as it is. *)
Theorem extractNumber_canonical fullId :
  (∀ number,
     extractNumber fullId = Some number →
     number ≠ ""
     ∧ ¬ occurs "@" number ∧ ¬ occurs ":" number
     ∧ String.prefix number (default "" fullId) = true)
  ∧ extractNumber (extractNumber fullId) = extractNumber fullId
  ∧ (∀ s, fullId = Some s → s ≠ "" → ¬ occurs "@" s → ¬ occurs ":" s →
          extractNumber fullId = Some s).
Proof.
  assert (∀ s, s ≠ "" → ¬ occurs "@" s → ¬ occurs ":" s →
               extractNumber (Some s) = Some s) as Hplain.
  { intros s Hs Hat Hcolon. unfold extractNumber, truthy. simpl.
    destruct (String.eqb_spec s ""); [done|]. simpl.
    rewrite (before_absent "@" s Hat), (before_absent ":" s Hcolon).
    by destruct (String.eqb_spec s ""). }
  assert (∀ number, extractNumber fullId = Some number →
            number ≠ "" ∧ ¬ occurs "@" number ∧ ¬ occurs ":" number
            ∧ String.prefix number (default "" fullId) = true) as Hshape.
  { intros number (s & -> & Hs & -> & Hn)%extractNumber_Some.
    split; [done|]. split; [apply before_keeps_absent, before_no_occurrence|].
    split; [apply before_no_occurrence|]. simpl.
    eapply prefix_trans; apply before_prefix. }
  split; [exact Hshape|]. split.
  - destruct (extractNumber fullId) as [number|] eqn:Hn; [|done].
    destruct (Hshape number eq_refl) as (? & ? & ? & _). by apply Hplain.
  - intros s ->. apply Hplain.
Qed.

Lemma extractNumber_canonical_witness :
  extractNumber (Some "5511999:12@s.whatsapp.net") = Some "5511999"
  ∧ ¬ occurs "@" "5511999"
  ∧ extractNumber (Some "5511999") = Some "5511999".
Proof.
  split; [reflexivity|]. split.
  - apply (proj1 (extractNumber_canonical (Some "5511999:12@s.whatsapp.net"))
             "5511999"). reflexivity.
  - apply (proj2 (proj2 (extractNumber_canonical (Some "5511999"))) "5511999");
      try done; unfold occurs; simpl; intros H;
      repeat (destruct H as [H|H]; [discriminate H|]); done.
Defined.

(** X14. A record carries the identifiers of its event: its [id] is the
    key's id, its conversation is the key's conversation identifier, and
    it is a group record exactly when that identifier contains ['@g.us'].
    An outbound record is sent by the local identity to the conversation;
    an inbound record of a group is sent by the participant, or by the
    conversation when the key names no participant, to the local
    identity. Each side is reduced by [extractNumber], and is [null] when
    that gives nothing. *)
Theorem record_matches_event now message myNumber record lines :
  extractMessageDataEffect now message myNumber = (Some record, lines) →
  ∃ key chatId,
    Proto.key message = Some key
    ∧ remoteJid key = Some chatId
    ∧ InsertMessage.id record = Proto.id key
    ∧ InsertMessage.chat_id record = chatId
    ∧ InsertMessage.isFromMe record = default false (fromMe key)
    ∧ InsertMessage.isGroup record = includes chatId "@g.us"
    ∧ (InsertMessage.isFromMe record = true →
       InsertMessage.from record = extractNumber myNumber
       ∧ InsertMessage.to record = extractNumber (Some chatId))
    ∧ (InsertMessage.isFromMe record = false →
       InsertMessage.isGroup record = true →
       InsertMessage.from record
       = extractNumber (Some (or_else (participant key) chatId))
       ∧ InsertMessage.to record = extractNumber myNumber).
Proof.
  intros (key & chatId & Hkey & Hjid & _ & Hid & Hchat & Hme & Hgroup
          & Hfrom & Hto)%extract_Some.
  exists key, chatId. do 6 (split; [done|]). split.
  - intros Hm. rewrite Hfrom, Hto. rewrite Hme in Hm. by rewrite Hm.
  - intros Hm Hg. rewrite Hfrom, Hto. rewrite Hme in Hm. rewrite Hgroup in Hg.
    by rewrite Hm, Hg.
Qed.

Lemma record_matches_event_witness :
  ∃ record,
    (extractMessageDataEffect 0 group_message (Some "5511777@s.whatsapp.net")).1
    = Some record
    ∧ InsertMessage.from record = Some "5511888"
    ∧ InsertMessage.to record = Some "5511777".
Proof.
  destruct (extractMessageDataEffect 0 group_message (Some "5511777@s.whatsapp.net"))
    as [[record|] lines] eqn:Hrec; [|by vm_compute in Hrec].
  exists record. split; [done|].
  destruct (record_matches_event 0 group_message _ record lines Hrec)
    as (key & chatId & Hkey & Hjid & _ & _ & Hme & Hgroup & _ & Hin).
  injection Hkey as <-. injection Hjid as <-.
  destruct (Hin Hme Hgroup) as [-> ->]. by split.
Defined.

End normalizer_laws.

(* ===================================================================== *)
(** * Ingestion bridge: order and conservation *)
(* ===================================================================== *)

Section bridge_laws.

Import Proto JS MessageStream StreamLaws.

Lemma extract_ids now message myNumber record lines :
  extractMessageDataEffect now message myNumber = (Some record, lines) →
  record_ids record = source_ids message.
Proof.
  intros (key & chatId & Hkey & Hjid & _ & Hid & Hchat & _)%extract_Some.
  unfold record_ids, source_ids. rewrite Hkey. simpl. rewrite Hjid. simpl.
  by rewrite Hid, Hchat.
Qed.

Lemma normalize_from_sublist clock messages i :
  (record_ids <$> (normalize_from clock i messages).1)
    `sublist_of` (source_ids <$> messages).
Proof.
  revert i. induction messages as [|message rest IH]; intros i; simpl.
  - constructor.
  - specialize (IH (S i)).
    destruct (normalize_from clock (S i) rest) as [processedMessages logged].
    simpl in IH.
    destruct (Proto.key message) as [key|] eqn:Hkey; simpl;
      [|by apply sublist_cons].
    destruct (truthy (remoteJid key)); simpl; [|by apply sublist_cons].
    destruct (extractMessageDataEffect (clock i) message None)
      as [[record|] lines] eqn:Hrec; simpl; [|by apply sublist_cons].
    rewrite (extract_ids _ _ _ _ _ Hrec). by apply sublist_skip.
Qed.

Lemma normalize_from_complete clock messages i :
  (∀ j message,
     messages !! j = Some message →
     (∃ key, Proto.key message = Some key ∧ truthy (remoteJid key) = true)
     ∧ (- JSDate.max_time ≤ time_value (clock (i + j)%nat) message ≤ JSDate.max_time)%Z) →
  record_ids <$> (normalize_from clock i messages).1 = source_ids <$> messages
  ∧ (normalize_from clock i messages).2 = [].
Proof.
  revert i. induction messages as [|message rest IH]; intros i Hall; [done|].
  simpl. destruct (IH (S i)) as [IHr IHl].
  { intros j m Hm. specialize (Hall (S j) m Hm).
    by replace (S i + j) with (i + S j) by lia. }
  destruct (normalize_from clock (S i) rest) as [processedMessages logged].
  simpl in IHr, IHl. subst logged.
  destruct (Hall 0 message eq_refl) as [(key & Hkey & Hjid) Hvalid].
  rewrite Nat.add_0_r in Hvalid. rewrite Hkey, Hjid.
  destruct (extract_cases (clock i) message None) as (_ & _ & Hok).
  rewrite Hkey, Hjid in Hok. destruct (Hok eq_refl Hvalid) as [record Hrec].
  rewrite Hrec. cbn [fst snd app]. by rewrite !fmap_cons, (extract_ids _ _ _ _ _ Hrec), IHr.
Qed.

(** X15. The records made from a batch follow the order in which the
    events arrived, at most one record per event: their identifiers are a
    subsequence of the events' identifiers. When every event of the batch
    has a key with a conversation identifier and a time value that is a
    valid date, no event is skipped and nothing is logged. *)
Theorem normalize_batch_in_order clock batch :
  (record_ids <$> (normalize_batch clock batch).1)
    `sublist_of` (source_ids <$> messages batch)
  ∧ length (normalize_batch clock batch).1 ≤ length (messages batch)
  ∧ ((∀ j message,
        messages batch !! j = Some message →
        (∃ key, Proto.key message = Some key ∧ truthy (remoteJid key) = true)
        ∧ (- JSDate.max_time ≤ time_value (clock j) message ≤ JSDate.max_time)%Z) →
     record_ids <$> (normalize_batch clock batch).1 = source_ids <$> messages batch
     ∧ (normalize_batch clock batch).2 = []).
Proof.
  unfold normalize_batch. split; [apply normalize_from_sublist|]. split.
  - pose proof (sublist_length _ _ (normalize_from_sublist clock (messages batch) 0)) as H.
    by rewrite !length_fmap in H.
  - intros Hall. by apply normalize_from_complete.
Qed.

Lemma normalize_batch_in_order_witness :
  record_ids <$> (normalize_batch (λ _, 0%Z) (batch_of "hello")).1
  = source_ids <$> messages (batch_of "hello").
Proof.
  refine (proj1 (proj2 (proj2 (normalize_batch_in_order (λ _, 0%Z)
                                 (batch_of "hello"))) _)).
  intros j message Hm. destruct j as [|j]; [|by destruct j].
  injection Hm as <-. split; [by eexists|]. by vm_compute.
Defined.

(** X16. The stream hands on, in order and stamped with [createdAt], the
    messages made from the records that come before the first record
    without an [id]. If there is no such record every record is handed on
    and the stream lives; otherwise the stream dies at that record and
    nothing after it is handed on. *)
Theorem stream_stops_at_missing_id createdAt (records : list InsertMessage.t) :
  ∃ kept rest,
    records = (kept ++ rest)%list
    ∧ (λ record, WhatsAppMessage.make record createdAt) <$> kept
      = Some <$> (emit createdAt records).1
    ∧ Forall (λ m, WhatsAppMessage.createdAt m = createdAt) (emit createdAt records).1
    ∧ (if (emit createdAt records).2
       then ∃ record rest', rest = record :: rest' ∧ InsertMessage.id record = None
       else rest = []).
Proof.
  induction records as [|record records (kept & rest & -> & Hmake & Hstamp & Hdied)];
    simpl.
  - by exists [], [].
  - destruct (WhatsAppMessage.make record createdAt) as [message|] eqn:Hm.
    + destruct (emit createdAt (kept ++ rest)) as [emitted died]. simpl in *.
      exists (record :: kept), rest. split; [done|]. split.
      { rewrite fmap_cons, Hm, Hmake. done. }
      split; [|done]. constructor; [|done].
      unfold WhatsAppMessage.make in Hm.
      destruct (InsertMessage.id record); [|done]. by injection Hm as <-.
    + exists [], (record :: kept ++ rest). split; [done|]. split; [done|].
      split; [constructor|]. simpl. eexists _, _. split; [done|].
      unfold WhatsAppMessage.make in Hm.
      by destruct (InsertMessage.id record).
Qed.

(** X17. The bridge loses no batch and keeps the order of arrival. From
    the empty queue of [createMessageStream] on, the queue never holds
    more than its capacity and offers wait only while it is full. The
    listener appends the new batch behind all that is pending, in the
    queue when there is room and behind the suspended offers otherwise,
    and never logs. A pull takes the oldest pending batches and leaves the
    others pending in their order. *)
Theorem bridge_is_fifo b batch :
  bridge_ok new_bridge
  ∧ (bridge_ok b →
     bridge_ok (on_upsert batch b)
     ∧ pending (on_upsert batch b) = (pending b ++ [batch])%list
     ∧ log (on_upsert batch b) = log b
     ∧ bridge_ok (pull b).1
     ∧ pending b = ((pull b).2 ++ pending (pull b).1)%list
     ∧ log (pull b).1 = log b
     ∧ (pull b).2 = take DefaultChunkSize (Queue.items (messageQueue b))).
Proof.
  split; [split; simpl; [lia|done]|].
  intros [Hcap Hpark]. unfold on_upsert, pull, pending, bridge_ok, Queue.offer,
    Queue.takeUpTo.
  generalize DefaultChunkSize. intros chunk.
  destruct b as [[capacity items parked] lg]. simpl in *.
  destruct (Nat.ltb_spec (length items) capacity) as [Hlt|Hge]; simpl.
  - assert (parked = []) as -> by (destruct parked; [done|]; specialize (Hpark ltac:(done)); lia).
    rewrite !app_nil_r, length_app. simpl.
    split; [split; [lia|done]|]. split; [done|]. split; [done|].
    rewrite take_nil, drop_nil, !app_nil_r.
    split; [split; [rewrite length_drop; lia|done]|].
    split; [by rewrite take_drop|]. done.
  - split; [split; [done|intros _; lia]|].
    split; [by rewrite app_assoc|]. split; [done|].
    split.
    { split.
      - rewrite length_app, length_take, length_drop. lia.
      - intros Hne.
        assert (capacity - length (drop chunk items) < length parked) as Hlt.
        { destruct (decide (capacity - length (drop chunk items)
                            < length parked)); [done|].
          destruct Hne. apply drop_ge. lia. }
        rewrite length_app, length_take. rewrite length_drop in *. lia. }
    split; [|done].
    by rewrite app_assoc, (app_assoc (take _ _)), take_drop, <- app_assoc, take_drop.
Qed.

Lemma bridge_is_fifo_witness :
  pending (on_upsert (batch_of "b") (on_upsert (batch_of "a") new_bridge))
  = [batch_of "a"; batch_of "b"].
Proof.
  destruct (bridge_is_fifo new_bridge (batch_of "a")) as [Hnew Hstep].
  destruct (Hstep Hnew) as (Hok & Hp & _).
  destruct (bridge_is_fifo (on_upsert (batch_of "a") new_bridge) (batch_of "b"))
    as [_ Hstep'].
  destruct (Hstep' Hok) as (_ & -> & _). by rewrite Hp.
Defined.

End bridge_laws.

(* ===================================================================== *)
(** * Session connector: success and back-off *)
(* ===================================================================== *)

Section connection_laws.

Import Schedule Connection ConnectionLaws.

Lemma policy_delay r i n :
  (n < 5)%nat →
  ∃ out d,
    step createReconnectionPolicy r (i, n)
    = ((Datatypes.S i, Datatypes.S n), out, Continue d)
    ∧ (d == backoff i * (8 # 10) * (1 - r) + backoff i * (12 # 10) * r)%Q.
Proof.
  intros Hn. unfold createReconnectionPolicy, jittered, intersect, recurs,
    whileOutput, exponential, forever. cbn [step initial].
  apply Nat.ltb_lt in Hn. rewrite Hn.
  eexists _, _. split; [done|]. unfold backoff.
  assert (0 <= 1000 * inject_Z (2 ^ Z.of_nat i))%Q as Hpos.
  { apply Qmult_le_0_compat; [done|].
    change 0%Q with (inject_Z 0). rewrite <- Zle_Qle. lia. }
  rewrite (Q.max_l _ _ Hpos). reflexivity.
Qed.

Lemma jitter_bounds x r :
  (0 <= x)%Q → (0 <= r)%Q → (r <= 1)%Q →
  (x * (8 # 10) <= x * (8 # 10) * (1 - r) + x * (12 # 10) * r
   ∧ x * (8 # 10) * (1 - r) + x * (12 # 10) * r <= x * (12 # 10))%Q.
Proof. intros Hx H0 H1. split; nra. Qed.

Lemma retry_from_success (attempt : nat → exit string WASocket) rand d :
  ∀ fuel i k slept socket,
    (k + d ≤ 5)%nat → (d < fuel)%nat →
    (∀ j, (k ≤ j < k + d)%nat → ∃ e, attempt j = Failure e) →
    attempt (k + d)%nat = Success socket →
    ∃ more,
      retry_from fuel attempt rand createReconnectionPolicy (i, k) k slept
      = Some (Run (Datatypes.S (k + d)) (slept ++ more) (Success socket))
      ∧ length more = d.
Proof.
  induction d as [|d IH]; intros fuel i k slept socket Hk Hfuel Hfail Hok.
  - destruct fuel as [|fuel]; [lia|]. rewrite retry_from_succ.
    rewrite Nat.add_0_r in *. rewrite Hok. exists []. by rewrite app_nil_r.
  - destruct fuel as [|fuel]; [lia|]. rewrite retry_from_succ.
    destruct (Hfail k) as [e ->]; [lia|].
    destruct (policy_delay (rand k) i k) as (out & delay & -> & _); [lia|].
    destruct (IH fuel (Datatypes.S i) (Datatypes.S k) (slept ++ [delay])%list socket)
      as (more & -> & Hlen); [lia|lia| |by rewrite Nat.add_succ_comm|].
    { intros j Hj. apply Hfail. lia. }
    exists (delay :: more). rewrite <- app_assoc. simpl.
    rewrite Nat.add_succ_r. split; [done|]. by rewrite Hlen.
Qed.

(** X18. When the attempts of [connect] fail until one of the first six
    succeeds, [connect] returns the socket of that attempt: it has made
    exactly the attempts up to that one, has slept once after each
    failure, and has logged one starting line per attempt and no failure
    line. *)
Theorem connect_returns_first_success env rand fuel k socket :
  (k ≤ 5)%nat → (k < fuel)%nat →
  (∀ j, (j < k)%nat → ∃ e, acquire (env j) = Failure e) →
  acquire (env k) = Success socket →
  ∃ slept,
    connect fuel env rand
    = Some (Run (Datatypes.S k) slept (Success socket),
            repeat "🚀 Starting WhatsApp connection..."%string (Datatypes.S k))
    ∧ length slept = k.
Proof.
  intros Hk Hfuel Hfail Hok. unfold connect, retry.
  change (initial createReconnectionPolicy) with (0%nat, 0%nat).
  destruct (retry_from_success (λ j, acquire (env j)) rand k fuel 0%nat 0%nat
              [] socket) as (more & -> & Hlen); [lia|lia| |done|].
  { intros j Hj. apply Hfail. lia. }
  exists more. cbn [attempts outcome Nat.add app]. by rewrite app_nil_r.
Qed.

Lemma connect_returns_first_success_witness :
  ∃ slept,
    connect 8 third_time_lucky half
    = Some (Run 3 slept (Success 7%nat),
            repeat "🚀 Starting WhatsApp connection..."%string 3)
    ∧ length slept = 2%nat.
Proof.
  apply (connect_returns_first_success third_time_lucky half 8 2 7%nat);
    try lia; try done.
  intros j Hj. destruct j as [|[|j]]; [by eexists..|lia].
Defined.

Lemma retry_from_sleeps (attempt : nat → exit string WASocket) rand fuel :
  (∀ j, 0 <= rand j ∧ rand j <= 1)%Q →
  ∀ k slept r,
    retry_from fuel attempt rand createReconnectionPolicy (k, k) k slept = Some r →
    length slept = k →
    (∀ j d, slept !! j = Some d →
            (backoff j * (8 # 10) <= d ∧ d <= backoff j * (12 # 10))%Q) →
    ∀ j d, sleeps r !! j = Some d →
           (backoff j * (8 # 10) <= d ∧ d <= backoff j * (12 # 10))%Q.
Proof.
  intros Hrand. induction fuel as [|fuel IH]; intros k slept r; [done|].
  rewrite retry_from_succ.
  destruct (attempt k) as [a|e]; [by intros [= <-]|].
  destruct (decide (k < 5)%nat) as [Hlt|Hge].
  - destruct (policy_delay (rand k) k k Hlt) as (out & delay & -> & Hd).
    intros Hr Hlen Hslept. apply (IH _ _ _ Hr).
    + rewrite length_app. simpl. lia.
    + intros j d Hjd.
      apply lookup_app_Some in Hjd as [Hjd|[Hge Hjd]]; [by apply Hslept|].
      apply list_lookup_singleton_Some in Hjd as [Hj0 <-].
      assert (j = k) as -> by lia. rewrite Hd.
      destruct (Hrand k). apply jitter_bounds; [|done..].
      unfold backoff. apply Qmult_le_0_compat; [done|].
      change 0%Q with (inject_Z 0). rewrite <- Zle_Qle. lia.
  - destruct (policy_step (rand k) k k) as (out & d' & ->).
    rewrite (proj2 (Nat.ltb_ge k 5)) by lia.
    by intros [= <-].
Qed.

(** X19. The sleeps of [connect] back off exponentially within the jitter:
    when the random service draws numbers between 0 and 1, the sleep after
    the [j]-th failed attempt (from 0) lasts between 0.8 and 1.2 times
    [2^j] seconds. *)
Theorem connect_backoff env rand fuel r log :
  (∀ j, 0 <= rand j ∧ rand j <= 1)%Q →
  connect fuel env rand = Some (r, log) →
  ∀ j d, sleeps r !! j = Some d →
         (inject_Z (800 * 2 ^ Z.of_nat j) <= d
          ∧ d <= inject_Z (1200 * 2 ^ Z.of_nat j))%Q.
Proof.
  intros Hrand. unfold connect, retry.
  change (initial createReconnectionPolicy) with (0%nat, 0%nat).
  destruct (retry_from fuel _ rand createReconnectionPolicy (0%nat, 0%nat) 0 [])
    as [r'|] eqn:Hr; [|done].
  intros [= <- _] j d Hd.
  destruct (retry_from_sleeps _ rand fuel Hrand 0%nat [] r' Hr eq_refl) with j d
    as [Hlo Hhi]; [by intros ? ? ?|done|].
  unfold backoff in *. rewrite !inject_Z_mult.
  generalize dependent (inject_Z (2 ^ Z.of_nat j)). intros x Hlo Hhi.
  change (inject_Z 800) with (800%Q). change (inject_Z 1200) with (1200%Q).
  split; lra.
Qed.

Lemma connect_backoff_witness :
  ∃ r log,
    connect 8 always_failing half = Some (r, log)
    ∧ ∀ d, sleeps r !! 2%nat = Some d → (3200 <= d ∧ d <= 4800)%Q.
Proof.
  destruct (connect 8 always_failing half) as [[r log]|] eqn:Hr;
    [|by vm_compute in Hr].
  exists r, log. split; [done|]. intros d Hd.
  refine (connect_backoff always_failing half 8 r log _ Hr 2%nat d Hd).
  intros j. unfold half. split; by vm_compute.
Defined.

End connection_laws.

(* ===================================================================== *)
(** * The table under arbitrary clients *)
(* ===================================================================== *)

Section client_laws.

Import Schedule Repository Invariant Client.
Import WhatsAppMessage.

Lemma carries_only_marked_call c w k row :
  db w !! k = Some row →
  ∃ row', db (after w c) !! k = Some row' ∧ only_marked row row'.
Proof.
  intros Hrow. destruct c as [created_at message| |messageId|chatId]; simpl.
  - destruct (carries_eq_insert created_at message w k row Hrow)
      as (row' & Hrow' & <-).
    exists row. split; [done|by left].
  - apply (carries_statement only_marked); [|done].
    intros table table' a k' r [= <- _] Hr. exists r. split; [done|by left].
  - by apply carries_only_marked_mark.
  - apply (carries_statement only_marked); [|done].
    intros table table' a k' r [= <- _] Hr. exists r. split; [done|by left].
Qed.

Lemma preserves_keyed_call c w : keyed (db w) → keyed (db (after w c)).
Proof.
  destruct c as [created_at message| |messageId|chatId]; simpl.
  - apply preserves_keyed_insert.
  - apply preserves_keyed_unprocessed.
  - apply preserves_keyed_mark.
  - apply preserves_keyed_by_chat.
Qed.

Lemma absent_call c w k :
  (∀ created_at message, c = InsertMessage created_at message → id message ≠ k) →
  db w !! k = None → db (after w c) !! k = None.
Proof.
  intros Hc. destruct c as [created_at message| |messageId|chatId]; simpl.
  - apply (preserves_statement (I := λ table, table !! k = None)).
    intros table table' a Hk. destruct (table !! id message); [done|].
    intros [= <- _]. rewrite lookup_insert_ne; [done|]. by eapply Hc.
  - apply (preserves_statement (I := λ table, table !! k = None)).
    by intros table table' a Hk [= <- _].
  - apply (preserves_statement (I := λ table, table !! k = None)).
    intros table table' a Hk [= <- _].
    destruct (decide (k = messageId)) as [->|Hne].
    + by rewrite lookup_alter_eq, Hk.
    + by rewrite lookup_alter_ne.
  - apply (preserves_statement (I := λ table, table !! k = None)).
    by intros table table' a Hk [= <- _].
Qed.

(** X27. The table is append-only up to the [processed] flag. Whatever
    calls are made on the repository, in whatever order (so under any
    interleaving of the fiber that stores messages with the one that
    sweeps), and whatever faults the storage layer raises: a row that is
    in the table stays in it and changes at most by [processed] going from
    false to true, so a processed row never changes again; rows stay under
    their own id; and an id comes into the table only through an
    [insertMessage] of a message with that id. *)
Theorem table_is_append_only calls w :
  (∀ k row,
     db w !! k = Some row →
     ∃ row', db (after_all calls w) !! k = Some row'
             ∧ (row' = row ∨ (processed row = false ∧ row' = set_processed row))
             ∧ (processed row = true → row' = row))
  ∧ (keyed (db w) → keyed (db (after_all calls w)))
  ∧ (∀ k,
       db w !! k = None →
       (∀ created_at message,
          InsertMessage created_at message ∈ calls → id message ≠ k) →
       db (after_all calls w) !! k = None).
Proof.
  unfold after_all. split; [|split].
  - intros k row Hrow.
    assert (∃ row', db (foldl after w calls) !! k = Some row'
                    ∧ only_marked row row') as (row' & Hrow' & Hm).
    { revert w row Hrow. induction calls as [|c calls IH]; intros w row Hrow.
      - exists row. split; [done|by left].
      - simpl. destruct (carries_only_marked_call c w k row Hrow)
          as (row1 & Hrow1 & H1).
        destruct (IH _ _ Hrow1) as (row2 & Hrow2 & H2).
        exists row2. split; [done|]. by etrans. }
    exists row'. split; [done|]. split; [exact Hm|].
    intros Hp. destruct Hm as [->|[Hq _]]; [done|congruence].
  - revert w. induction calls as [|c calls IH]; intros w Hw; [done|].
    simpl. by apply IH, preserves_keyed_call.
  - intros k. revert w. induction calls as [|c calls IH]; intros w Hk Hins;
      [done|].
    simpl. apply IH.
    + apply absent_call; [|done]. intros created_at message ->.
      apply (Hins created_at), list_elem_of_here.
    + intros created_at message Hin.
      by apply (Hins created_at), list_elem_of_further.
Qed.

Lemma table_is_append_only_witness :
  ∃ row',
    db (after_all [MarkAsProcessed "m1"; InsertMessage "t1" sample_row;
                   GetUnprocessedMessages] sample_world) !! "m1" = Some row'
    ∧ (row' = sample_row
       ∨ (processed sample_row = false ∧ row' = set_processed sample_row))
    ∧ (processed sample_row = true → row' = sample_row).
Proof.
  exact (proj1 (table_is_append_only
                  [MarkAsProcessed "m1"; InsertMessage "t1" sample_row;
                   GetUnprocessedMessages] sample_world)
           "m1" sample_row eq_refl).
Defined.

End client_laws.

(* ===================================================================== *)
(** * From an event to a processed row *)
(* ===================================================================== *)

Section pipeline_laws.

Import Proto JS Schedule Repository Invariant Logger MessageStream StreamLaws.
Import WhatsAppMessage.

Lemma emit_complete createdAt (records : list InsertMessage.t) :
  Forall (λ record, is_Some (InsertMessage.id record)) records →
  (emit createdAt records).2 = false
  ∧ ∀ record id,
      record ∈ records → InsertMessage.id record = Some id →
      ∃ message, message ∈ (emit createdAt records).1
                 ∧ WhatsAppMessage.id message = id.
Proof.
  induction 1 as [|record records [id0 Hid0] _ [IHd IHm]]; simpl.
  - split; [done|]. intros record id Hin. by apply elem_of_nil in Hin.
  - unfold make. rewrite Hid0.
    destruct (emit createdAt records) as [emitted died]. simpl in *.
    split; [done|]. intros r id Hin Hid.
    apply elem_of_cons in Hin as [->|Hin].
    + eexists. split; [apply list_elem_of_here|]. simpl. congruence.
    + destruct (IHm r id Hin Hid) as (m & Hm & Hidm).
      exists m. split; [by apply list_elem_of_further|done].
Qed.

Lemma preserves_keyed_store created_at message :
  preserves keyed (store_message created_at message).
Proof.
  apply preserves_catchAll; [|intros _; apply preserves_log].
  apply preserves_bind; [apply preserves_log|]. intros _.
  apply preserves_bind; [apply preserves_keyed_insert|]. intros _.
  apply preserves_log.
Qed.

(** X29. An event ends as a processed row. When the storage layer raises
    no fault and every event of a batch has a key with an [id] and a
    conversation identifier, and a time value that is a valid date, the
    stream does not die on the batch; storing its messages leaves, for
    each event, a row under the event's [id]; and the next tick leaves
    that row processed, marks every row that was there before, and
    leaves nothing for [getUnprocessedMessages] to list. *)
Theorem event_ends_processed clock createdAt created_at batch w :
  faults w = [] →
  keyed (db w) →
  (∀ j message,
     messages batch !! j = Some message →
     (∃ key, Proto.key message = Some key ∧ truthy (remoteJid key) = true
             ∧ is_Some (Proto.id key))
     ∧ (- JSDate.max_time ≤ time_value (clock j) message ≤ JSDate.max_time)%Z) →
  ∃ w1 w2,
    process_batch clock createdAt created_at batch w = (w1, Success tt)
    ∧ tick w1 = (w2, Success tt)
    ∧ (stream_of_batch clock createdAt batch).2 = false
    ∧ (∀ message key id,
         message ∈ messages batch →
         Proto.key message = Some key → Proto.id key = Some id →
         (∃ row, db w1 !! id = Some row ∧ WhatsAppMessage.id row = id)
         ∧ ∃ row, db w2 !! id = Some row ∧ WhatsAppMessage.id row = id
                  ∧ processed row = true)
    ∧ (∀ k row, db w !! k = Some row → db w2 !! k = Some (set_processed row))
    ∧ (getUnprocessedMessages w2).2 = Success [].
Proof.
  intros Hf Hkeyed Hvalid.
  (* the records of the batch carry the ids of its events *)
  destruct (normalize_from_complete clock (messages batch) 0) as [Hids _].
  { intros j message Hm. destruct (Hvalid j message Hm) as [(key & ? & ? & _) ?].
    split; [by exists key|done]. }
  fold (normalize_batch clock batch) in Hids.
  set (records := (normalize_batch clock batch).1) in *.
  assert (Forall (λ record, is_Some (InsertMessage.id record)) records) as Hall.
  { apply Forall_forall. intros record Hin.
    assert (record_ids record ∈ source_ids <$> messages batch) as Hsrc.
    { rewrite <- Hids. apply list_elem_of_fmap. by exists record. }
    apply list_elem_of_fmap in Hsrc as (message & Heq & Hmsg).
    apply list_elem_of_lookup in Hmsg as [j Hj].
    destruct (Hvalid j message Hj) as [(key & Hkey & Hjid & [id Hid]) _].
    unfold record_ids, source_ids in Heq. rewrite Hkey in Heq. simpl in Heq.
    destruct (remoteJid key) as [chat|]; [|done]. simpl in Heq.
    injection Heq as -> _. by exists id. }
  destruct (emit_complete createdAt records Hall) as [Hlive Hemit].
  (* storing *)
  destruct (store_loop_healthy created_at (emit createdAt records).1 w Hf)
    as [Hf1 Hstored].
  assert ((process_batch clock createdAt created_at batch w).2 = Success tt)
    as Hok.
  { apply for_each_succeeds. intros x w'. apply catchAll_log_succeeds. }
  assert (keyed (db (process_batch clock createdAt created_at batch w).1))
    as Hkeyed1.
  { apply preserves_for_each; [|done]. intros x. apply preserves_keyed_store. }
  unfold process_batch, stream_of_batch in *. fold records in Hok, Hkeyed1 |- *.
  destruct (for_each (emit createdAt records).1 (store_message created_at) w)
    as [w1 r1] eqn:Hw1.
  cbn [fst snd] in *. subst r1.
  (* sweeping *)
  destruct (marked_unprocessed (db w1) Hkeyed1) as (Hmarked & _ & Hnone).
  exists w1. eexists. split; [done|].
  rewrite (tick_healthy w1 Hf1), (sweep_healthy w1 Hf1).
  split; [done|]. split; [done|].
  cbn [db]. split; [|split].
  - intros message key id Hin Hkey Hid.
    assert (∃ record, record ∈ records ∧ InsertMessage.id record = Some id)
      as (record & Hrec & Hrid).
    { apply list_elem_of_lookup in Hin as [j Hj].
      destruct (Hvalid j message Hj) as [(key' & Hkey' & Hjid & _) _].
      assert (key' = key) as -> by congruence.
      destruct (remoteJid key) as [chat|] eqn:Hchat; [|done].
      assert (Some (Some id, chat) ∈ record_ids <$> records) as Hsrc.
      { rewrite Hids. apply list_elem_of_fmap. exists message.
        split; [|by eapply list_elem_of_lookup_2].
        unfold source_ids. rewrite Hkey. simpl. rewrite Hchat. simpl.
        by rewrite Hid. }
      apply list_elem_of_fmap in Hsrc as (record & Heq & Hrec).
      exists record. split; [done|]. unfold record_ids in Heq. congruence. }
    destruct (Hemit record id Hrec Hrid) as (m & Hm & <-).
    destruct (Hstored m Hm) as [row Hrow].
    pose proof (Hkeyed1 _ _ Hrow) as Hrowid.
    split; [by exists row|].
    exists (set_processed row). by rewrite (Hmarked _ _ Hrow).
  - intros k row Hrow.
    destruct (carries_for_each eq (emit createdAt records).1
                (store_message created_at) (carries_eq_store created_at)
                w k row Hrow) as (row' & Hrow' & <-).
    rewrite Hw1 in Hrow'. by apply Hmarked.
  - unfold getUnprocessedMessages, statement. cbn [faults db log tl snd].
    exact (f_equal Success Hnone).
Qed.

Lemma event_ends_processed_witness :
  ∃ w2 row,
    tick (process_batch (λ _, 0%Z) "1970-01-01T00:00:00.000Z"
            "1970-01-01 00:00:00" (batch_of "m2") sample_world).1
    = (w2, Success tt)
    ∧ db w2 !! "m2" = Some row ∧ processed row = true
    ∧ db w2 !! "m1" = Some (set_processed sample_row).
Proof.
  destruct (event_ends_processed (λ _, 0%Z) "1970-01-01T00:00:00.000Z"
              "1970-01-01 00:00:00" (batch_of "m2") sample_world)
    as (w1 & w2 & Hstore & Htick & _ & Hevent & Hold & _).
  - done.
  - apply keyed_sample.
  - intros j message Hm. destruct j as [|j]; [|by destruct j].
    injection Hm as <-. split; [by eexists|]. by vm_compute.
  - destruct (Hevent (text_message (Some "m2") "555@s" "m2" None) _ "m2"
                (list_elem_of_here _ _) eq_refl eq_refl)
      as [_ (row & Hrow & _ & Hp)].
    exists w2, row. rewrite Hstore. split; [done|]. split; [done|].
    split; [done|]. by apply Hold.
Defined.

End pipeline_laws.
(* ===================================================================== *)
(** * Serialization and JSON *)
(* ===================================================================== *)

Section json_laws.

Import AuthState Json.

Lemma entries_loop_all (p : value → bool) (m : gmap string value) :
  map_Forall (λ _ x, p x = true) m →
  map_fold (λ _ x acc, p x && acc) true m = true.
Proof.
  induction m as [|k x m Hk Hfst IH] using map_first_key_ind.
  - intros _. by rewrite map_fold_empty.
  - rewrite map_fold_insert_first_key by done.
    intros [Hx Hm]%map_Forall_insert; [|done]. by rewrite Hx, IH.
Qed.

Lemma forallb_elem (p : value → bool) l :
  forallb p l = true ↔ ∀ x, x ∈ l → p x = true.
Proof.
  rewrite forallb_forall. split; intros H x Hx; apply H;
    by apply list_elem_of_In.
Qed.

Lemma plain_serialize v : plain (serializeBinaryData v) = true.
Proof.
  induction v as [| | | | |c bs|l IH|m IH] using value_rect_nested; try done.
  - cbn [serializeBinaryData plain]. apply forallb_elem.
    intros x (y & -> & Hy)%list_elem_of_fmap.
    rewrite Forall_forall in IH. by apply IH.
  - rewrite serialize_entries. cbn [plain]. apply entries_loop_all.
    intros k x. rewrite lookup_fmap.
    destruct (delete "__proto__" m !! k) as [y|] eqn:Hy; [|done].
    intros [= <-]. apply lookup_delete_Some in Hy as [_ Hy].
    by apply (IH k y).
Qed.

(** What [serializeBinaryData] builds owns no property named
    [__proto__]. *)
Lemma proto_free_serialize v : proto_free (serializeBinaryData v) = true.
Proof.
  induction v as [| | | | |c bs|l IH|m IH] using value_rect_nested; try done.
  - cbn [serializeBinaryData proto_free]. apply forallb_elem.
    intros x (y & -> & Hy)%list_elem_of_fmap.
    rewrite Forall_forall in IH. by apply IH.
  - rewrite serialize_entries. cbn [proto_free].
    rewrite lookup_fmap, lookup_delete_eq. simpl. apply entries_loop_all.
    intros k x. rewrite lookup_fmap.
    destruct (delete "__proto__" m !! k) as [y|] eqn:Hy; [|done].
    intros [= <-]. apply lookup_delete_Some in Hy as [_ Hy].
    by apply (IH k y).
Qed.

Lemma serialize_plain v :
  plain v = true → proto_free v = true → serializeBinaryData v = v.
Proof.
  induction v as [| | | | |c bs|l IH|m IH] using value_rect_nested; try done.
  - cbn [plain proto_free serializeBinaryData]. intros Hl Hp.
    pose proof (proj1 (forallb_elem _ _) Hl) as Hall.
    pose proof (proj1 (forallb_elem _ _) Hp) as Hpall. f_equal.
    rewrite <- (list_fmap_id l) at 2. apply list_fmap_ext.
    intros i x Hx. simpl. rewrite Forall_forall in IH.
    apply list_elem_of_lookup_2 in Hx. auto.
  - intros Hm Hp. rewrite serialize_obj by done.
    apply proto_free_obj in Hp as [_ Hp].
    cbn [plain] in Hm. apply entries_loop_forall in Hm.
    f_equal. rewrite <- (map_fmap_id m) at 2. apply map_fmap_ext.
    intros k x Hk. simpl. apply (IH k x Hk); [apply (Hm k x Hk)|].
    apply (Hp k x Hk).
Qed.

Lemma as_uint8_plain v : plain v = true → as_uint8 v = v.
Proof.
  induction v as [| | | | |c bs|l IH|m IH] using value_rect_nested; try done.
  - cbn [plain as_uint8]. intros Hl.
    pose proof (proj1 (forallb_elem _ _) Hl) as Hall. f_equal.
    rewrite <- (list_fmap_id l) at 2. apply list_fmap_ext.
    intros i x Hx. simpl. rewrite Forall_forall in IH.
    apply list_elem_of_lookup_2 in Hx. auto.
  - cbn [plain as_uint8]. intros Hm%entries_loop_forall.
    f_equal. rewrite <- (map_fmap_id m) at 2. apply map_fmap_ext.
    intros k x Hk. simpl. apply (IH k x Hk), (Hm k x Hk).
Qed.

Lemma deserialize_plain v :
  plain v = true → tag_free v = true → proto_free v = true →
  deserializeBinaryData v = Some v.
Proof.
  intros Hp Ht Hf. rewrite <- (serialize_plain v Hp Hf) at 1.
  by rewrite roundtrip_as_uint8, as_uint8_plain.
Qed.

(** X20. [serializeBinaryData] leaves no raw byte sequence among the
    properties and elements of its result: each one has become a wrapper
    whose payload is base64 text, so nothing of the result is lost in JSON
    text for being binary; and no object of the result owns a property
    named [__proto__], since the loop copies none. For a value in which no
    object owns a property named [__proto__]: serializing twice is
    serializing once; when the value holds no raw bytes it is returned as
    it is, and [deserializeBinaryData] returns it as it is unless an
    object in it carries the wrapper's tag. *)
Theorem serialize_is_binary_safe v :
  plain (serializeBinaryData v) = true
  ∧ proto_free (serializeBinaryData v) = true
  ∧ (proto_free v = true →
     serializeBinaryData (serializeBinaryData v) = serializeBinaryData v)
  ∧ (plain v = true → proto_free v = true → serializeBinaryData v = v)
  ∧ (plain v = true → proto_free v = true → tag_free v = true →
     deserializeBinaryData v = Some v).
Proof.
  split; [apply plain_serialize|]. split; [apply proto_free_serialize|].
  split.
  { intros _. apply serialize_plain;
      [apply plain_serialize|apply proto_free_serialize]. }
  split; [apply serialize_plain|].
  intros Hp Hf Ht. by apply deserialize_plain.
Qed.

Lemma serialize_is_binary_safe_witness :
  serializeBinaryData (serializeBinaryData sample_creds)
  = serializeBinaryData sample_creds
  ∧ serializeBinaryData (VArr [VStr "a"; VNull]) = VArr [VStr "a"; VNull]
  ∧ deserializeBinaryData (VArr [VStr "a"; VNull]) = Some (VArr [VStr "a"; VNull]).
Proof.
  split; [|split].
  - apply (serialize_is_binary_safe sample_creds). by vm_compute.
  - apply (serialize_is_binary_safe (VArr [VStr "a"; VNull])); reflexivity.
  - apply (serialize_is_binary_safe (VArr [VStr "a"; VNull])); reflexivity.
Defined.

(** ** Through JSON *)

Lemma undefined_or_not v : v = VUndefined ∨ v ≠ VUndefined.
Proof. destruct v; auto. Qed.

Lemma stringify_defined v : v ≠ VUndefined → is_Some (stringify v).
Proof. destruct v as [| | | | |[] ?| |]; by eauto. Qed.

Lemma stringify_parse v :
  plain v = true → v ≠ VUndefined → parse <$> stringify v = Some (pruned v).
Proof.
  induction v as [| | |n| |c bs|l IH|m IH] using value_rect_nested; try done.
  - intros _ _. cbn [stringify pruned]. by destruct (json_number n).
  - intros Hl _. cbn [plain stringify pruned fmap option_fmap option_map parse] in *.
    pose proof (proj1 (forallb_elem _ _) Hl) as Hall. do 2 f_equal.
    rewrite <- list_fmap_compose. apply list_fmap_ext.
    intros i x Hx. apply list_elem_of_lookup_2 in Hx. simpl.
    rewrite Forall_forall in IH. specialize (IH x Hx (Hall x Hx)).
    destruct (undefined_or_not x) as [->|Hdef]; [done|].
    specialize (IH Hdef). destruct (stringify x) as [j|]; [|done].
    injection IH as IH. simpl. rewrite IH. by destruct x.
  - intros Hm%entries_loop_forall _.
    cbn [stringify pruned fmap option_fmap option_map parse]. do 2 f_equal.
    apply map_eq. intros k. rewrite lookup_fmap, !lookup_omap.
    destruct (m !! k) as [x|] eqn:Hk; [|done]. simpl.
    specialize (IH k x Hk (Hm k x Hk)).
    destruct (undefined_or_not x) as [->|Hdef]; [done|].
    specialize (IH Hdef). destruct (stringify x) as [j|]; [|done].
    injection IH as IH. simpl. rewrite IH. by destruct x.
Qed.

Lemma serialize_undefined v :
  serializeBinaryData v = VUndefined ↔ v = VUndefined.
Proof. by destruct v. Qed.

Lemma pruned_undefined v : pruned v = VUndefined ↔ v = VUndefined.
Proof.
  destruct v as [| | |n| | | |]; try done.
  cbn [pruned]. by destruct (json_number n).
Qed.

Lemma pruned_serialize v :
  pruned (serializeBinaryData v) = serializeBinaryData (pruned v).
Proof.
  induction v as [| | |n| |c bs|l IH|m IH] using value_rect_nested; try done.
  - cbn [serializeBinaryData pruned]. by destruct (json_number n).
  - cbn [serializeBinaryData pruned]. f_equal.
    rewrite <- !list_fmap_compose. apply list_fmap_ext.
    intros i x Hx. apply list_elem_of_lookup_2 in Hx. simpl.
    rewrite Forall_forall in IH. specialize (IH x Hx).
    destruct (undefined_or_not x) as [->|Hdef]; [done|].
    transitivity (pruned (serializeBinaryData x)).
    + pose proof (serialize_undefined x).
      destruct (serializeBinaryData x); try done. tauto.
    + rewrite IH. by destruct x.
  - rewrite serialize_entries. cbn [pruned]. rewrite serialize_entries.
    f_equal. apply map_eq. intros k. rewrite lookup_omap, !lookup_fmap.
    destruct (decide (k = "__proto__")) as [->|Hne];
      [by rewrite !lookup_delete_eq|].
    rewrite !lookup_delete_ne by done. rewrite lookup_omap.
    destruct (m !! k) as [x|] eqn:Hk; [|done]. simpl.
    specialize (IH k x Hk).
    destruct (undefined_or_not x) as [->|Hdef]; [done|].
    transitivity (Some (pruned (serializeBinaryData x))).
    + pose proof (serialize_undefined x).
      destruct (serializeBinaryData x); try done. tauto.
    + rewrite IH. by destruct x.
Qed.

Lemma pruned_is_str v s : pruned v = VStr s → v = VStr s.
Proof.
  destruct v as [| | |n| | | |]; try done.
  cbn [pruned]. by destruct (json_number n).
Qed.

Lemma tag_free_pruned v : tag_free v = true → tag_free (pruned v) = true.
Proof.
  induction v as [| | |n| |c bs|l IH|m IH] using value_rect_nested; try done.
  - intros _. cbn [pruned]. by destruct (json_number n).
  - cbn [tag_free pruned]. intros Hl.
    pose proof (proj1 (forallb_elem _ _) Hl) as Hall. apply forallb_elem.
    intros y (x & -> & Hx)%list_elem_of_fmap.
    rewrite Forall_forall in IH. specialize (IH x Hx (Hall x Hx)).
    by destruct x.
  - cbn [tag_free pruned].
    intros [Htag Hm%entries_loop_forall]%andb_true_iff.
    apply andb_true_iff. split.
    + apply negb_true_iff. apply negb_true_iff in Htag.
      unfold is_binary_tag in *. rewrite lookup_omap.
      destruct (m !! "__type") as [x|] eqn:Hx; [|done]. simpl.
      destruct (undefined_or_not x) as [->|Hdef]; [done|].
      assert (match x with VUndefined => None | _ => Some (pruned x) end
              = Some (pruned x)) as -> by by destruct x.
      destruct (pruned x) eqn:Hp; try done.
      apply pruned_is_str in Hp. by subst.
    + apply entries_loop_all. intros k y. rewrite lookup_omap.
      destruct (m !! k) as [x|] eqn:Hk; [|done]. simpl.
      specialize (IH k x Hk (Hm k x Hk)).
      destruct x; try done; by intros [= <-].
Qed.

Lemma json_number_exact n : json_exact_number n = true → json_number n = Some n.
Proof.
  unfold json_exact_number, json_number. by destruct (PrimFloat.classify n).
Qed.

Lemma proto_free_pruned v : proto_free v = true → proto_free (pruned v) = true.
Proof.
  induction v as [| | |n| |c bs|l IH|m IH] using value_rect_nested; try done.
  - intros _. cbn [pruned]. by destruct (json_number n).
  - cbn [proto_free pruned]. intros Hl.
    pose proof (proj1 (forallb_elem _ _) Hl) as Hall. apply forallb_elem.
    intros y (x & -> & Hx)%list_elem_of_fmap.
    rewrite Forall_forall in IH. specialize (IH x Hx (Hall x Hx)).
    by destruct x.
  - intros [Hp Hm]%proto_free_obj. cbn [proto_free pruned].
    rewrite lookup_omap, Hp. simpl. apply entries_loop_all.
    intros k y. rewrite lookup_omap.
    destruct (m !! k) as [x|] eqn:Hk; [|done]. simpl.
    specialize (IH k x Hk (Hm k x Hk)).
    destruct x; try done; by intros [= <-].
Qed.

Lemma pruned_kept v : kept_by_json v = true → pruned v = v.
Proof.
  induction v as [| | |n| |c bs|l IH|m IH] using value_rect_nested; try done.
  - cbn [kept_by_json pruned]. intros Hn. by rewrite json_number_exact.
  - cbn [kept_by_json pruned]. intros Hl. f_equal.
    rewrite <- (list_fmap_id l) at 2. apply list_fmap_ext.
    intros i x Hx. apply list_elem_of_lookup_2 in Hx. simpl.
    rewrite Forall_forall in IH. specialize (IH x Hx).
    rewrite forallb_forall in Hl. specialize (Hl x).
    rewrite <- list_elem_of_In in Hl. specialize (Hl Hx).
    destruct x; try done; by apply IH.
  - cbn [kept_by_json pruned]. intros Hm. f_equal.
    apply map_eq. intros k. rewrite lookup_omap.
    destruct (m !! k) as [x|] eqn:Hk; [|done]. simpl.
    pose proof (entries_loop_forall
                  (λ x, match x with
                        | VUndefined => false
                        | _ => kept_by_json x
                        end) m Hm k x Hk) as Hx. simpl in Hx.
    specialize (IH k x Hk).
    destruct x; try done; by rewrite IH.
Qed.

(** What [JSON.parse(JSON.stringify(serializeBinaryData(v)))] followed by
    [deserializeBinaryData] gives. *)
Lemma through_json v :
  tag_free v = true → proto_free v = true → v ≠ VUndefined →
  ∃ text,
    stringify (serializeBinaryData v) = Some text
    ∧ deserializeBinaryData (parse text) = Some (as_uint8 (pruned v)).
Proof.
  intros Htag Hproto Hdef.
  pose proof (stringify_parse (serializeBinaryData v) (plain_serialize v)) as Hj.
  destruct (stringify (serializeBinaryData v)) as [text|] eqn:Ht.
  - exists text. split; [done|].
    assert (parse text = pruned (serializeBinaryData v)) as ->.
    { assert (serializeBinaryData v ≠ VUndefined) as Hs
        by by rewrite serialize_undefined.
      specialize (Hj Hs). by injection Hj. }
    rewrite pruned_serialize.
    apply roundtrip_as_uint8; [by apply tag_free_pruned|by apply proto_free_pruned].
  - assert (serializeBinaryData v ≠ VUndefined) as Hs
      by by rewrite serialize_undefined.
    by specialize (Hj Hs).
Qed.

End json_laws.

(* ===================================================================== *)
(** * Auth state repository: credentials *)
(* ===================================================================== *)

Section auth_store_laws.

Import Schedule AuthState Json AuthStore.

Lemma statement_ok {A} (w : world) (run : tables → exit SqlError (tables * A)) :
  next_fault w = None →
  statement run w
  = match run (stored w) with
    | Success (t, a) => (World t (tl (faults w)) (log w), Returned a)
    | Failure e => (World (stored w) (tl (faults w)) (log w), Failed e)
    end.
Proof.
  unfold next_fault, statement. by destruct (faults w) as [|[e|] rest].
Qed.

(** X21. Credentials come back from the store as they went in, up to what
    JSON keeps. When no object of the credentials carries the wrapper's
    tag or owns a property named [__proto__], and the storage layer raises
    no fault, [loadCredentials] after [saveCredentials] returns the
    credentials with every raw byte sequence restored byte for byte as a
    [Uint8Array], properties that were [undefined] dropped, [undefined]
    array elements turned into [null], [NaN] and the infinities turned
    into [null] and the negative zero into zero, whatever the session had
    stored before; so they come back as they went in, up to the class of
    the byte sequences, when nothing in them is [undefined] and every
    number is finite and not the negative zero. The rows of other sessions
    and all keys are left as they are. *)
Theorem credentials_round_trip now sessionId credentials w :
  faults w = [] →
  tag_free credentials = true →
  proto_free credentials = true →
  credentials ≠ VUndefined →
  ∃ saved w1,
    saveCredentials now sessionId credentials w = (w1, Returned saved)
    ∧ AuthStore.sessionId saved = sessionId
    ∧ stringify (serializeBinaryData credentials) = Some (data saved)
    ∧ loadCredentials sessionId w1
      = (w1, Returned (Some (as_uint8 (pruned credentials))))
    ∧ (kept_by_json credentials = true →
       loadCredentials sessionId w1 = (w1, Returned (Some (as_uint8 credentials))))
    ∧ (∀ other, other ≠ sessionId →
         auth_credentials (stored w1) !! other
         = auth_credentials (stored w) !! other)
    ∧ auth_keys (stored w1) = auth_keys (stored w).
Proof.
  intros Hf Htag Hproto Hdef.
  destruct (through_json credentials Htag Hproto Hdef)
    as (text & Htext & Hback).
  destruct w as [t fs lg]. simpl in Hf. subst fs.
  unfold saveCredentials, statement. cbn [faults stored log tl]. rewrite Htext.
  eexists _, _. split; [done|]. split; [done|]. split; [done|].
  assert (loadCredentials sessionId
            (World (Tables (<[sessionId := {| credentials_data := text;
                                              credentials_created_at := now;
                                              credentials_updated_at := now |}]>
                              (auth_credentials t)) (auth_keys t)) [] lg)
          = (World (Tables (<[sessionId := {| credentials_data := text;
                                              credentials_created_at := now;
                                              credentials_updated_at := now |}]>
                              (auth_credentials t)) (auth_keys t)) [] lg,
             Returned (Some (as_uint8 (pruned credentials))))) as Hload.
  { unfold loadCredentials, mbind, eff_bind, bind, statement.
    cbn [faults stored log tl auth_credentials]. rewrite lookup_insert_eq.
    cbn [credentials_data]. by rewrite Hback. }
  split; [exact Hload|]. split.
  { intros Hd. rewrite Hload. by rewrite (pruned_kept _ Hd). }
  split; [|done].
  intros other Hne. cbn [stored auth_credentials]. by rewrite lookup_insert_ne.
Qed.

Lemma credentials_round_trip_witness :
  ∃ w1,
    (saveCredentials "t1" "main" creds_with_gap two_sessions).1 = w1
    ∧ loadCredentials "main" w1
      = (w1, Returned (Some (as_uint8 (pruned creds_with_gap)))).
Proof.
  destruct (credentials_round_trip "t1" "main" creds_with_gap two_sessions)
    as (saved & w1 & Hsave & _ & _ & Hload & _);
    [done|by vm_compute|by vm_compute|done|].
  exists w1. by rewrite Hsave.
Defined.

Example creds_with_gap_through_store :
  as_uint8 (pruned creds_with_gap)
  = VObj (<["noiseKey" := VBin Uint8ArrayC [x01; x02]]>
          (<["nextPreKeyId" := VNull]>
           {["signalIdentities" := VArr [VNull; VStr "a"]]})).
Proof. by vm_compute. Qed.

(** X22. For a session without stored credentials [loadCredentials]
    answers [null]; it does not fail, and the store is left as it is. The
    state that [createAuthState] builds then starts from an empty object
    of credentials. *)
Theorem loadCredentials_absent sessionId w :
  next_fault w = None →
  auth_credentials (stored w) !! sessionId = None →
  loadCredentials sessionId w
  = (World (stored w) (tl (faults w)) (log w), Returned None)
  ∧ ∃ state,
      createAuthState sessionId w
      = (World (stored w) (tl (faults w)) (log w), Returned state)
      ∧ creds state = VObj ∅.
Proof.
  intros Hok Hnone.
  assert (loadCredentials sessionId w
          = (World (stored w) (tl (faults w)) (log w), Returned None)) as Hload.
  { unfold loadCredentials, mbind, eff_bind, bind.
    rewrite statement_ok by done. by rewrite Hnone. }
  split; [done|].
  unfold createAuthState, mbind, eff_bind, bind. rewrite Hload.
  by eexists.
Qed.

Lemma loadCredentials_absent_witness :
  loadCredentials "main" two_sessions = (two_sessions, Returned None).
Proof.
  by destruct (loadCredentials_absent "main" two_sessions eq_refl eq_refl)
    as [-> _].
Defined.

(** X26. [createAuthState] hands the transport the credentials that were
    saved for the session: after [saveCredentials] of an object of
    credentials (no object in it carries the wrapper's tag or owns a
    property named [__proto__]; no storage fault), the state built for the
    session carries those credentials as JSON keeps them, with every raw
    byte sequence restored as a [Uint8Array], and building it changes
    nothing in the store. *)
Theorem createAuthState_after_save now sessionId (fields : gmap string value) w :
  faults w = [] →
  tag_free (VObj fields) = true →
  proto_free (VObj fields) = true →
  ∃ state,
    createAuthState sessionId (saveCredentials now sessionId (VObj fields) w).1
    = ((saveCredentials now sessionId (VObj fields) w).1, Returned state)
    ∧ creds state = as_uint8 (pruned (VObj fields)).
Proof.
  intros Hf Htag Hproto.
  destruct (through_json (VObj fields) Htag Hproto)
    as (text & Htext & Hback); [done|].
  destruct w as [t fs lg]. simpl in Hf. subst fs.
  unfold saveCredentials, statement. cbn [faults stored log tl fst].
  rewrite Htext. cbn [fst].
  unfold createAuthState, loadCredentials, mbind, eff_bind, bind, statement.
  cbn [faults stored log tl auth_credentials]. rewrite lookup_insert_eq.
  cbn [credentials_data]. rewrite Hback.
  cbn [mret eff_ret succeed]. eexists. split; [done|]. done.
Qed.

Lemma createAuthState_after_save_witness :
  ∃ state,
    (createAuthState "main"
       (saveCredentials "t1" "main"
          (VObj {["noiseKey" := VBin BufferC [x01; x02]]}) empty_world).1).2
    = Returned state
    ∧ creds state = VObj {["noiseKey" := VBin Uint8ArrayC [x01; x02]]}.
Proof.
  destruct (createAuthState_after_save "t1" "main"
              {["noiseKey" := VBin BufferC [x01; x02]]} empty_world)
    as (state & Hstate & Hcreds); [done|by vm_compute|by vm_compute|].
  exists state. rewrite Hstate. split; [done|]. rewrite Hcreds. by vm_compute.
Defined.

(** ** Keys *)

Lemma assign_insert k x (m : gmap string value) :
  k ≠ "__proto__" → assign k x m = <[k := x]> m.
Proof. intros Hne. unfold assign. by destruct (String.eqb_spec k "__proto__"). Qed.

Lemma decode_rows_lookup (table : gmap (string * string * string) key_row)
    sessionId type (l : list string) :
  "__proto__" ∉ l →
  ∀ acc keyMap,
    decode_rows
      (omap (λ id, (λ row, (id, key_data row)) <$> table !! (sessionId, type, id)) l)
      acc = Some keyMap →
    ∀ id,
      keyMap !! id
      = if decide (id ∈ l) then
          match table !! (sessionId, type, id) with
          | Some row => deserializeBinaryData (parse (key_data row))
          | None => acc !! id
          end
        else acc !! id.
Proof.
  induction l as [|x l IH]; intros Hproto acc keyMap.
  - simpl. by intros [= <-] id.
  - apply not_elem_of_cons in Hproto as [Hx0 Hproto]. specialize (IH Hproto).
    cbn [omap list_omap].
    destruct (table !! (sessionId, type, x)) as [row|] eqn:Hx.
    + cbn [fmap option_fmap option_map decode_rows].
      destruct (deserializeBinaryData (parse (key_data row))) as [v|] eqn:Hv;
        [|done].
      rewrite assign_insert by done.
      intros Hrest id. rewrite (IH _ _ Hrest id).
      destruct (decide (id = x)) as [->|Hne].
      * rewrite Hx, lookup_insert_eq, Hv.
        rewrite (decide_True (P := x ∈ x :: l)) by apply list_elem_of_here.
        by case_decide.
      * rewrite lookup_insert_ne by done.
        destruct (decide (id ∈ l)) as [Hin|Hout].
        -- by rewrite decide_True by by apply list_elem_of_further.
        -- rewrite decide_False; [done|]. by intros [?|?]%elem_of_cons.
    + cbn [fmap option_fmap option_map].
      intros Hrest id. rewrite (IH _ _ Hrest id).
      destruct (decide (id = x)) as [->|Hne].
      * rewrite Hx.
        rewrite (decide_True (P := x ∈ x :: l)) by apply list_elem_of_here.
        by case_decide.
      * destruct (decide (id ∈ l)) as [Hin|Hout].
        -- by rewrite decide_True by by apply list_elem_of_further.
        -- rewrite decide_False; [done|]. by intros [?|?]%elem_of_cons.
Qed.

Lemma decode_rows_total (table : gmap (string * string * string) key_row)
    sessionId type (l : list string) :
  (∀ id row, id ∈ l → table !! (sessionId, type, id) = Some row →
             is_Some (deserializeBinaryData (parse (key_data row)))) →
  ∀ acc,
    is_Some (decode_rows
               (omap (λ id, (λ row, (id, key_data row))
                              <$> table !! (sessionId, type, id)) l) acc).
Proof.
  induction l as [|x l IH]; intros Hall acc; [by eexists|].
  cbn [omap list_omap].
  assert (∀ id row, id ∈ l → table !! (sessionId, type, id) = Some row →
            is_Some (deserializeBinaryData (parse (key_data row)))) as Hrest.
  { intros id row Hin. apply Hall. by apply list_elem_of_further. }
  destruct (table !! (sessionId, type, x)) as [row|] eqn:Hx.
  - cbn [fmap option_fmap option_map decode_rows].
    destruct (Hall x row (list_elem_of_here _ _) Hx) as [v ->]. by apply IH.
  - by apply IH.
Qed.

(** X23. [loadKeys] returns a mapping with exactly the ids asked for that
    have a row under the session and key type, each with its decoded data;
    an id without a row is simply missing from the mapping, and the store
    is left as it is. This holds when no id asked for is [__proto__]: the
    loop's assignment gives the mapping no property of that name. With no
    ids it returns the empty mapping without going to the storage layer at
    all. The call goes through whenever the rows asked for decode. *)
Theorem loadKeys_returns_present sessionId type ids w :
  (ids = [] → loadKeys sessionId type ids w = (w, Returned ∅))
  ∧ (ids ≠ [] → next_fault w = None →
     (∀ w' keyMap,
        loadKeys sessionId type ids w = (w', Returned keyMap) →
        w' = World (stored w) (tl (faults w)) (log w)
        ∧ ("__proto__" ∉ ids →
           ∀ id,
             keyMap !! id
             = if decide (id ∈ ids) then
                 row ← auth_keys (stored w) !! (sessionId, type, id);
                 deserializeBinaryData (parse (key_data row))
               else None))
     ∧ ((∀ id row, id ∈ ids →
           auth_keys (stored w) !! (sessionId, type, id) = Some row →
           is_Some (deserializeBinaryData (parse (key_data row)))) →
        ∃ keyMap,
          loadKeys sessionId type ids w
          = (World (stored w) (tl (faults w)) (log w), Returned keyMap))).
Proof.
  split; [by intros ->|]. intros Hne Hok.
  unfold loadKeys. destruct ids as [|id0 ids]; [done|]. cbn [length Nat.eqb].
  unfold mbind, eff_bind, bind. rewrite statement_ok by done.
  set (l := id0 :: ids) in *. split.
  - intros w' keyMap.
    destruct (decode_rows _ ∅) as [m|] eqn:Hrows; [|done].
    intros [= <- <-]. split; [done|]. intros Hproto id.
    assert ("__proto__" ∉ remove_dups l) as Hproto'
      by by rewrite elem_of_remove_dups.
    rewrite (decode_rows_lookup _ _ _ _ Hproto' _ _ Hrows id).
    destruct (decide (id ∈ remove_dups l)) as [Hin|Hout].
    + rewrite decide_True by by apply elem_of_remove_dups.
      by destruct (auth_keys (stored w) !! (sessionId, type, id)).
    + rewrite decide_False; [done|]. by rewrite <- elem_of_remove_dups.
  - intros Hall.
    destruct (decode_rows_total (auth_keys (stored w)) sessionId type
                (remove_dups l)) with (acc := (∅ : gmap string value))
      as [m ->]; [|by eexists].
    intros id row Hin. apply Hall. by apply elem_of_remove_dups.
Qed.

(** A row whose [key_id] is [__proto__] gives the mapping no property. *)
Lemma loadKeys_skips_proto_id :
  loadKeys "main" "pre-key" ["__proto__"] proto_keys
  = (proto_keys, Returned ∅).
Proof. by vm_compute. Qed.

Lemma loadKeys_returns_present_witness :
  loadKeys "main" "pre-key" [] two_sessions = (two_sessions, Returned ∅)
  ∧ ∃ keyMap,
      loadKeys "main" "pre-key" ["1"; "2"] two_sessions
      = (two_sessions, Returned keyMap).
Proof.
  split.
  - by apply (loadKeys_returns_present "main" "pre-key" [] two_sessions).
  - destruct (loadKeys_returns_present "main" "pre-key" ["1"; "2"] two_sessions)
      as [_ H]. destruct (H ltac:(done) eq_refl) as [_ Htotal].
    apply Htotal. intros id row _ Hrow. unfold two_sessions in Hrow.
    cbn [stored auth_keys] in Hrow.
    apply lookup_insert_Some in Hrow as [[_ <-]|[_ Hrow]]; [by eexists|].
    apply lookup_singleton_Some in Hrow as [_ <-]. by eexists.
Defined.

Lemma save_key_healthy now sessionId keyType keyId keyData c table lg :
  keyData ≠ VUndefined →
  save_key now sessionId keyType (keyId, keyData) (World (Tables c table) [] lg)
  = (World (Tables c (apply_key now sessionId table (keyType, keyId, keyData)))
       [] lg, Returned tt).
Proof.
  intros Hdef. unfold save_key, apply_key, statement.
  cbn [faults stored log tl auth_credentials auth_keys].
  destruct (stringify_defined (serializeBinaryData keyData)) as [text Htext];
    [by rewrite serialize_undefined|].
  destruct keyData; try done; by rewrite Htext.
Qed.

Lemma save_entries_healthy now sessionId keyType entries c table lg :
  Forall (λ e, e.2 ≠ VUndefined) entries →
  for_each entries (save_key now sessionId keyType) (World (Tables c table) [] lg)
  = (World (Tables c
              (foldl (apply_key now sessionId) table
                 ((λ '(keyId, keyData), (keyType, keyId, keyData)) <$> entries)))
       [] lg, Returned tt).
Proof.
  intros Hall. revert table.
  induction Hall as [|[keyId keyData] entries Hdef _ IH]; intros table; [done|].
  cbn [for_each]. unfold mbind, eff_bind, bind.
  rewrite save_key_healthy by done. by rewrite IH.
Qed.

Lemma saveKeys_healthy now sessionId data c table lg :
  Forall (λ e, e.2 ≠ VUndefined) (entries_of data) →
  saveKeys now sessionId data (World (Tables c table) [] lg)
  = (World (Tables c (foldl (apply_key now sessionId) table (entries_of data)))
       [] lg, Returned tt).
Proof.
  unfold saveKeys, entries_of. revert table.
  induction data as [|[keyType keyEntries] data IH]; intros table Hall; [done|].
  cbn [for_each mbind list_bind] in *. unfold mbind at 1. unfold eff_bind, bind.
  apply Forall_app in Hall as [Hhere Hrest].
  destruct keyEntries as [entries|].
  - rewrite save_entries_healthy.
    + rewrite IH by done. by rewrite foldl_app.
    + simpl in Hhere. rewrite Forall_fmap in Hhere.
      eapply Forall_impl; [exact Hhere|]. by intros [keyId keyData].
  - cbn [mret eff_ret succeed default fmap list_fmap app].
    by rewrite IH.
Qed.

Lemma apply_key_other now sessionId table entry key :
  key ≠ (sessionId, entry.1.1, entry.1.2) →
  apply_key now sessionId table entry !! key = table !! key.
Proof.
  destruct entry as [[keyType keyId] keyData]. simpl. intros Hne.
  destruct keyData; by rewrite ?lookup_insert_ne, ?lookup_delete_ne.
Qed.

Lemma foldl_apply_key_other now sessionId entries table key :
  (∀ entry, entry ∈ entries → key ≠ (sessionId, entry.1.1, entry.1.2)) →
  foldl (apply_key now sessionId) table entries !! key = table !! key.
Proof.
  revert table. induction entries as [|entry entries IH]; intros table Hall;
    [done|].
  simpl. rewrite IH.
  - apply apply_key_other, Hall, list_elem_of_here.
  - intros e He. by apply Hall, list_elem_of_further.
Qed.

Lemma foldl_apply_key_at now sessionId entries table keyType keyId keyData :
  NoDup (fst <$> entries) →
  (keyType, keyId, keyData) ∈ entries →
  foldl (apply_key now sessionId) table entries !! (sessionId, keyType, keyId)
  = apply_key now sessionId table (keyType, keyId, keyData)
      !! (sessionId, keyType, keyId).
Proof.
  revert table. induction entries as [|entry entries IH]; intros table Hnd Hin.
  { by apply elem_of_nil in Hin. }
  rewrite fmap_cons in Hnd. apply NoDup_cons in Hnd as [Hfresh Hnd].
  apply elem_of_cons in Hin as [<-|Hin].
  - simpl. rewrite foldl_apply_key_other; [done|].
    intros e He Heq. destruct Hfresh. apply list_elem_of_fmap.
    exists e. split; [|done]. destruct e as [[t i] d]. simpl in Heq.
    by injection Heq as -> ->.
  - simpl. rewrite (IH _ Hnd Hin).
    unfold apply_key at 1.
    destruct keyData; by rewrite ?lookup_insert_eq, ?lookup_delete_eq.
Qed.

(** X24. [saveKeys], when the storage layer raises no fault, no data of
    the batch is [undefined] and no key is named twice, leaves each key of
    the batch as the batch says: a key given [null] has no row, and a key
    given data has a row that holds the JSON text of its serialized form;
    when no object of the data carries the wrapper's tag or owns a
    property named [__proto__], the row decodes to the data as JSON keeps
    it ([undefined] properties dropped, [undefined] elements, [NaN] and
    the infinities turned into [null], the negative zero into zero), raw
    byte sequences restored byte for byte. Keys that the batch does not
    name, the keys of other sessions and all credentials are left as they
    are. *)
Theorem saveKeys_applies_batch now sessionId data w :
  faults w = [] →
  Forall (λ e, e.2 ≠ VUndefined) (entries_of data) →
  NoDup (fst <$> entries_of data) →
  ∃ w1,
    saveKeys now sessionId data w = (w1, Returned tt)
    ∧ auth_credentials (stored w1) = auth_credentials (stored w)
    ∧ (∀ keyType keyId keyData,
         (keyType, keyId, keyData) ∈ entries_of data →
         match keyData with
         | VNull => auth_keys (stored w1) !! (sessionId, keyType, keyId) = None
         | _ =>
             ∃ row,
               auth_keys (stored w1) !! (sessionId, keyType, keyId) = Some row
               ∧ stringify (serializeBinaryData keyData) = Some (key_data row)
               ∧ (tag_free keyData = true → proto_free keyData = true →
                  deserializeBinaryData (parse (key_data row))
                  = Some (as_uint8 (pruned keyData)))
         end)
    ∧ (∀ key,
         (∀ entry, entry ∈ entries_of data →
                   key ≠ (sessionId, entry.1.1, entry.1.2)) →
         auth_keys (stored w1) !! key = auth_keys (stored w) !! key).
Proof.
  intros Hf Hdef Hnd. destruct w as [[c table] fs lg]. simpl in Hf. subst fs.
  rewrite saveKeys_healthy by done.
  eexists. split; [done|]. split; [done|]. cbn [stored auth_keys]. split.
  - intros keyType keyId keyData Hin.
    rewrite (foldl_apply_key_at _ _ _ _ _ _ _ Hnd Hin).
    rewrite Forall_forall in Hdef. specialize (Hdef _ Hin). simpl in Hdef.
    destruct (stringify_defined (serializeBinaryData keyData)) as [text Htext];
      [by rewrite serialize_undefined|].
    assert (tag_free keyData = true → proto_free keyData = true →
            deserializeBinaryData (parse text)
            = Some (as_uint8 (pruned keyData))) as Hback.
    { intros Htag Hproto.
      destruct (through_json keyData Htag Hproto Hdef)
        as (text' & Htext' & Hback).
      congruence. }
    unfold apply_key.
    destruct keyData; try done;
      try (exists {| key_data := text; key_created_at := now;
                     key_updated_at := now |};
           rewrite lookup_insert_eq, Htext; by repeat split).
    by rewrite lookup_delete_eq.
  - intros key Hother. by apply foldl_apply_key_other.
Qed.

Lemma saveKeys_applies_batch_witness :
  ∃ w1,
    saveKeys "t1" "main" sample_batch two_sessions = (w1, Returned tt)
    ∧ auth_keys (stored w1) !! ("main", "pre-key", "2") = None
    ∧ auth_keys (stored w1) !! ("other", "pre-key", "1")
      = auth_keys (stored two_sessions) !! ("other", "pre-key", "1").
Proof.
  destruct (saveKeys_applies_batch "t1" "main" sample_batch two_sessions)
    as (w1 & Hsave & _ & Hat & Hother).
  - done.
  - repeat constructor; done.
  - by vm_compute; repeat constructor; rewrite ?elem_of_cons, ?elem_of_nil;
      intuition discriminate.
  - exists w1. split; [done|]. split.
    + by apply (Hat "pre-key" "2" VNull), list_elem_of_further, list_elem_of_here.
    + apply Hother. intros entry Hin.
      apply list_elem_of_In in Hin. simpl in Hin.
      destruct Hin as [<-|[<-|[]]]; done.
Defined.

(** X25. [clearSession], when the storage layer raises no fault, removes
    the credentials and every key of the session, leaves the rows of every
    other session as they are and logs one line; clearing again changes
    nothing more. The two deletions are separate statements: when the
    second one meets a fault the credentials are already gone while the
    keys are all still there, and the call fails. *)
Theorem clearSession_removes_session sessionId w :
  (faults w = [] →
   ∃ w1,
     clearSession sessionId w = (w1, Returned tt)
     ∧ auth_credentials (stored w1) !! sessionId = None
     ∧ (∀ keyType keyId,
          auth_keys (stored w1) !! (sessionId, keyType, keyId) = None)
     ∧ (∀ other, other ≠ sessionId →
          auth_credentials (stored w1) !! other
          = auth_credentials (stored w) !! other)
     ∧ (∀ key, key.1.1 ≠ sessionId →
          auth_keys (stored w1) !! key = auth_keys (stored w) !! key)
     ∧ log w1
       = (log w ++ [("🗑️ Cleared auth state for session: " ++ sessionId)%string])%list
     ∧ stored (clearSession sessionId w1).1 = stored w1)
  ∧ (∀ e rest, faults w = None :: Some e :: rest →
     clearSession sessionId w
     = (World (Tables (delete sessionId (auth_credentials (stored w)))
                      (auth_keys (stored w))) rest (log w),
        Failed e)).
Proof.
  destruct w as [[c table] fs lg]. split.
  - simpl. intros ->.
    unfold clearSession, mbind, eff_bind, bind, statement, log_line.
    cbn [faults stored log tl auth_credentials auth_keys].
    eexists. split; [done|]. cbn [stored auth_credentials auth_keys log].
    split; [by rewrite lookup_delete_eq|]. split.
    { intros keyType keyId. apply map_lookup_filter_None. right.
      intros row _. simpl. tauto. }
    split; [by intros other Hne; rewrite lookup_delete_ne|]. split.
    { intros key Hne. destruct (table !! key) as [row|] eqn:Hrow.
      - by apply map_lookup_filter_Some.
      - apply map_lookup_filter_None. by left. }
    split; [done|]. cbn [faults stored log tl auth_credentials auth_keys fst].
    f_equal.
    + apply delete_id. by rewrite lookup_delete_eq.
    + apply map_filter_id. intros key row [_ H]%map_lookup_filter_Some. done.
  - simpl. intros e rest ->. done.
Qed.

Lemma clearSession_removes_session_witness :
  ∃ w1,
    clearSession "main" two_sessions = (w1, Returned tt)
    ∧ auth_keys (stored w1) !! ("main", "pre-key", "1") = None
    ∧ auth_keys (stored w1) !! ("other", "pre-key", "1")
      = auth_keys (stored two_sessions) !! ("other", "pre-key", "1").
Proof.
  destruct (proj1 (clearSession_removes_session "main" two_sessions) eq_refl)
    as (w1 & Hclear & _ & Hgone & _ & Hkeep & _).
  exists w1. split; [done|]. split; [apply Hgone|]. by apply Hkeep.
Defined.

End auth_store_laws.

(** ** The key store of a state *)

Section key_store_laws.

Import Schedule AuthState Json AuthStore.

Lemma createAuthState_keys sessionId w w' state :
  createAuthState sessionId w = (w', Returned state) →
  keys state = {| get := loadKeys sessionId;
                  set := λ now, saveKeys now sessionId;
                  clear := clearSession sessionId |}.
Proof.
  unfold createAuthState, mbind, eff_bind, bind.
  destruct (loadCredentials sessionId w) as [w1 [existing|e|]]; [|done|done].
  cbn [mret eff_ret succeed]. by intros [= _ <-].
Qed.

Lemma saved_key_decodes now sessionId entries table keyType keyId keyData :
  NoDup (fst <$> entries) →
  (keyType, keyId, keyData) ∈ entries →
  keyData ≠ VUndefined →
  tag_free keyData = true →
  proto_free keyData = true →
  (row ← foldl (apply_key now sessionId) table entries
           !! (sessionId, keyType, keyId);
   deserializeBinaryData (parse (key_data row)))
  = match keyData with
    | VNull => None
    | _ => Some (as_uint8 (pruned keyData))
    end.
Proof.
  intros Hnd Hin Hdef Htag Hproto.
  rewrite (foldl_apply_key_at _ _ _ _ _ _ _ Hnd Hin).
  destruct (through_json keyData Htag Hproto Hdef) as (text & Htext & Hback).
  unfold apply_key.
  destruct keyData; try done;
    try (rewrite lookup_insert_eq, Htext; exact Hback).
  by rewrite lookup_delete_eq.
Qed.

Lemma loadKeys_no_rows sessionId type ids c table lg :
  (∀ id, table !! (sessionId, type, id) = None) →
  loadKeys sessionId type ids (World (Tables c table) [] lg)
  = (World (Tables c table) [] lg, Returned ∅).
Proof.
  intros Hnone. unfold loadKeys.
  destruct ids as [|id0 ids]; [done|]. cbn [length Nat.eqb].
  unfold mbind, eff_bind, bind. rewrite statement_ok by done.
  cbn [stored auth_keys faults tl log].
  assert (omap (λ id, (λ row, (id, key_data row))
                        <$> table !! (sessionId, type, id))
            (remove_dups (id0 :: ids)) = []) as ->; [|done].
  generalize (remove_dups (id0 :: ids)). intros l.
  induction l as [|x l IH]; [done|]. cbn [omap list_omap].
  by rewrite Hnone.
Qed.

Lemma loadKeys_healthy sessionId type ids c table lg keyMap :
  ids ≠ [] →
  "__proto__" ∉ ids →
  (∀ id, id ∈ ids →
         (row ← table !! (sessionId, type, id);
          deserializeBinaryData (parse (key_data row))) = keyMap !! id) →
  (∀ id, id ∈ ids → is_Some (table !! (sessionId, type, id)) →
         is_Some (keyMap !! id)) →
  (∀ id, id ∉ ids → keyMap !! id = None) →
  loadKeys sessionId type ids (World (Tables c table) [] lg)
  = (World (Tables c table) [] lg, Returned keyMap).
Proof.
  intros Hne Hproto Hat Hsome Hout. unfold loadKeys.
  destruct ids as [|id0 ids]; [done|]. cbn [length Nat.eqb].
  unfold mbind, eff_bind, bind. rewrite statement_ok by done.
  cbn [stored auth_keys faults tl log].
  set (l := id0 :: ids) in *.
  destruct (decode_rows _ ∅) as [m|] eqn:Hm.
  2: { destruct (decode_rows_total table sessionId type (remove_dups l))
         with (acc := (∅ : gmap string value)) as [m' Hm']; [|congruence].
       intros id row Hin Hrow. apply (proj1 (elem_of_remove_dups _ _)) in Hin.
       specialize (Hat id Hin). rewrite Hrow in Hat. simpl in Hat.
       rewrite Hat. apply Hsome; [done|]. by rewrite Hrow. }
  assert (m = keyMap) as ->; [|done].
  apply map_eq. intros id.
  assert ("__proto__" ∉ remove_dups l) as Hproto'
    by by rewrite elem_of_remove_dups.
  rewrite (decode_rows_lookup _ _ _ _ Hproto' _ _ Hm id).
  destruct (decide (id ∈ remove_dups l)) as [Hin|Hnin].
  - apply (proj1 (elem_of_remove_dups _ _)) in Hin. rewrite <- (Hat id Hin).
    destruct (table !! (sessionId, type, id)) as [row|] eqn:Hrow; [done|].
    by rewrite lookup_empty.
  - rewrite lookup_empty. symmetry. apply Hout.
    by rewrite <- elem_of_remove_dups.
Qed.

(** X28. Keys go through the key store of a state as through a map.
    After [set] of a batch (no storage fault, no [undefined] data, no
    object inside the data that carries the wrapper's tag or owns a
    property named [__proto__], no key named twice), [get] on ids, none
    of them [__proto__], that the batch names under a key type returns a
    mapping that holds, for
    each of them, the data of the batch as JSON keeps it ([undefined]
    properties dropped, [undefined] elements, [NaN] and the infinities
    turned into [null], the negative zero into zero) with raw byte
    sequences restored byte for byte, an id given [null] being missing,
    and holds no other id; [get] leaves the store as it is. After
    [clear], [get] returns the empty mapping for every key type and list
    of ids. *)
Theorem state_keys_round_trip now sessionId data keyType ids w0 w0' state w :
  createAuthState sessionId w0 = (w0', Returned state) →
  faults w = [] →
  Forall (λ e, e.2 ≠ VUndefined ∧ tag_free e.2 = true
               ∧ proto_free e.2 = true) (entries_of data) →
  NoDup (fst <$> entries_of data) →
  ids ≠ [] →
  "__proto__" ∉ ids →
  (∀ id, id ∈ ids → ∃ keyData, (keyType, id, keyData) ∈ entries_of data) →
  ∃ w1 keyMap,
    set (keys state) now data w = (w1, Returned tt)
    ∧ get (keys state) keyType ids w1 = (w1, Returned keyMap)
    ∧ (∀ id keyData,
         id ∈ ids → (keyType, id, keyData) ∈ entries_of data →
         keyMap !! id = match keyData with
                        | VNull => None
                        | _ => Some (as_uint8 (pruned keyData))
                        end)
    ∧ (∀ id, id ∉ ids → keyMap !! id = None)
    ∧ ∃ w2,
        clear (keys state) w1 = (w2, Returned tt)
        ∧ ∀ type' ids', get (keys state) type' ids' w2 = (w2, Returned ∅).
Proof.
  intros Hstate Hf Hall Hnd Hne Hnoproto Hnamed.
  rewrite (createAuthState_keys _ _ _ _ Hstate). cbn [get set clear].
  destruct w as [[c table] fs lg]. simpl in Hf. subst fs.
  rewrite saveKeys_healthy
    by (eapply Forall_impl; [exact Hall|]; by intros e [? _]).
  set (table1 := foldl (apply_key now sessionId) table (entries_of data)).
  assert (∀ id keyData,
            (keyType, id, keyData) ∈ entries_of data →
            (row ← table1 !! (sessionId, keyType, id);
             deserializeBinaryData (parse (key_data row)))
            = match keyData with
              | VNull => None
              | _ => Some (as_uint8 (pruned keyData))
              end) as Hback.
  { intros id keyData Hin. rewrite Forall_forall in Hall.
    destruct (Hall _ Hin) as (Hdef & Htag & Hproto).
    by apply saved_key_decodes. }
  set (keyMap :=
         (list_to_map
            (omap (λ id, (λ v, (id, v))
                           <$> (row ← table1 !! (sessionId, keyType, id);
                                deserializeBinaryData (parse (key_data row))))
               (remove_dups ids)) : gmap string value)).
  assert (∀ id, keyMap !! id
                = if decide (id ∈ ids)
                  then row ← table1 !! (sessionId, keyType, id);
                       deserializeBinaryData (parse (key_data row))
                  else None) as Hmap.
  { intros id. unfold keyMap.
    assert (∀ l : list string, NoDup l →
              (list_to_map
                 (omap (λ id, (λ v, (id, v))
                          <$> (row ← table1 !! (sessionId, keyType, id);
                               deserializeBinaryData (parse (key_data row))))
                    l) : gmap string value) !! id
              = if decide (id ∈ l)
                then row ← table1 !! (sessionId, keyType, id);
                     deserializeBinaryData (parse (key_data row))
                else None) as Hl.
    { induction l as [|x l IH]; intros Hndl; [done|].
      apply NoDup_cons in Hndl as [Hx Hndl]. cbn [omap list_omap].
      destruct (decide (id = x)) as [->|Hidx].
      - rewrite (decide_True (P := x ∈ x :: l)) by apply list_elem_of_here.
        destruct (row ← table1 !! (sessionId, keyType, x);
                  deserializeBinaryData (parse (key_data row))) as [v|] eqn:Hv.
        + cbn [fmap option_fmap option_map list_to_map]. simpl.
          by rewrite lookup_insert_eq.
        + cbn [fmap option_fmap option_map]. rewrite (IH Hndl).
          by rewrite decide_False.
      - assert ((if decide (id ∈ x :: l)
                 then row ← table1 !! (sessionId, keyType, id);
                      deserializeBinaryData (parse (key_data row))
                 else None)
                = (if decide (id ∈ l)
                   then row ← table1 !! (sessionId, keyType, id);
                        deserializeBinaryData (parse (key_data row))
                   else None)) as ->.
        { destruct (decide (id ∈ l)) as [Hin|Hout].
          - by rewrite decide_True by by apply list_elem_of_further.
          - rewrite decide_False; [done|]. by intros [?|?]%elem_of_cons. }
        destruct (row ← table1 !! (sessionId, keyType, x);
                  deserializeBinaryData (parse (key_data row))) as [v|] eqn:Hv.
        + cbn [fmap option_fmap option_map list_to_map]. simpl.
          rewrite lookup_insert_ne by done. by apply IH.
        + cbn [fmap option_fmap option_map]. by apply IH. }
    rewrite (Hl _ (NoDup_remove_dups ids)).
    destruct (decide (id ∈ ids)) as [Hin|Hout].
    - by rewrite decide_True by by apply elem_of_remove_dups.
    - rewrite decide_False; [done|]. by rewrite elem_of_remove_dups. }
  eexists _, keyMap. split; [done|]. split.
  { apply loadKeys_healthy; [done|done| | |].
    - intros id Hin. by rewrite Hmap, decide_True.
    - intros id Hin [row Hrow]. rewrite Hmap, decide_True by done.
      destruct (Hnamed id Hin) as [keyData Hentry].
      specialize (Hback id keyData Hentry). rewrite Hback.
      rewrite Hrow in Hback. simpl in Hback.
      destruct keyData; try by eexists.
      (* a key given [null] has no row *)
      assert (table1 !! (sessionId, keyType, id) = None) as Hgone.
      { unfold table1.
        rewrite (foldl_apply_key_at _ _ _ _ _ _ _ Hnd Hentry).
        unfold apply_key. by rewrite lookup_delete_eq. }
      congruence.
    - intros id Hout. by rewrite Hmap, decide_False. }
  split.
  { intros id keyData Hin Hentry. rewrite Hmap, decide_True by done.
    by apply Hback. }
  split.
  { intros id Hout. by rewrite Hmap, decide_False. }
  unfold clearSession, mbind, eff_bind, bind, statement, log_line.
  cbn [faults stored log tl auth_credentials auth_keys].
  eexists. split; [done|]. intros type' ids'.
  apply loadKeys_no_rows. intros id.
  apply map_lookup_filter_None. right. intros row _. simpl. tauto.
Qed.

Lemma fresh_state :
  ∃ state, createAuthState "main" empty_world = (empty_world, Returned state).
Proof.
  unfold createAuthState, loadCredentials, mbind, eff_bind, bind, statement,
    empty_world.
  cbn [faults stored log tl auth_credentials]. rewrite lookup_empty.
  by eexists.
Defined.

Lemma state_keys_round_trip_witness :
  ∃ state w1 keyMap,
    createAuthState "main" empty_world = (empty_world, Returned state)
    ∧ set (keys state) "t1" sample_batch two_sessions = (w1, Returned tt)
    ∧ get (keys state) "pre-key" ["1"; "2"] w1 = (w1, Returned keyMap)
    ∧ keyMap !! "1" = Some (VBin Uint8ArrayC [x0a; x0b])
    ∧ keyMap !! "2" = None.
Proof.
  destruct fresh_state as [state Hstate].
  destruct (state_keys_round_trip "t1" "main" sample_batch "pre-key" ["1"; "2"]
              empty_world empty_world state two_sessions Hstate)
    as (w1 & keyMap & Hset & Hget & Hat & _).
  - done.
  - repeat constructor; done.
  - by vm_compute; repeat constructor; rewrite ?elem_of_cons, ?elem_of_nil;
      intuition discriminate.
  - done.
  - intros [?|[?|?%elem_of_nil]%elem_of_cons]%elem_of_cons; done.
  - intros id [->|[->|[]%elem_of_nil]%elem_of_cons]%elem_of_cons.
    + exists (VBin Uint8ArrayC [x0a; x0b]). apply list_elem_of_here.
    + exists VNull. apply list_elem_of_further, list_elem_of_here.
  - exists state, w1, keyMap. split; [done|]. split; [done|].
    split; [done|]. split.
    + apply (Hat "1" (VBin Uint8ArrayC [x0a; x0b]));
        [apply list_elem_of_here|apply list_elem_of_here].
    + apply (Hat "2" VNull);
        [apply list_elem_of_further, list_elem_of_here
        |apply list_elem_of_further, list_elem_of_here].
Defined.

End key_store_laws.
